(** * Gradient reducers of [GNMT/seq2seq/train/gradient_reducers.py]

    A shallow embedding of the flat buffer packer, the sign codec, the
    orthogonalisation primitive and the reducers built on them, followed by
    the theorems that relate them to the written specification.

    Numeric model.  IEEE floats are embedded as rationals ([Q]) wherever the
    code only copies, compares, takes signs or does field arithmetic, and as
    real numbers ([R]) where it needs a square root.  Copies, comparisons,
    [sign], [abs], [x / 1] and [0 + x] are exact on floats, so results that
    only use them carry over; rounding, NaN and infinities are not modelled. *)

From stdpp Require Import gmap list.
From Stdlib Require Import ZArith QArith Qround Qabs Qminmax Reals Lra Lia.
From Equations Require Import Equations.

(** ** Exceptions and results *)

Inductive exn : Type :=
  | IndexError
  | RuntimeError
  | AssertionError
  | UnboundLocalError
  | RanOutOfAttempts.

Inductive result (A : Type) : Type :=
  | Ok (a : A)
  | Raise (e : exn).
Arguments Ok {A} a.
Arguments Raise {A} e.

#[global] Instance result_ret : MRet result := fun A a => Ok a.
#[global] Instance result_bind : MBind result := fun A B k m =>
  match m with
  | Ok a => k a
  | Raise e => Raise e
  end.

Definition of_option {A} (e : exn) (o : option A) : result A :=
  match o with
  | Some a => Ok a
  | None => Raise e
  end.

Definition is_ok {A} (r : result A) : Prop := ∃ a, r = Ok a.

(** ** Element types and shapes *)

Inductive dtype : Type := float32 | float64 | int32 | int64.

(** [tensor.element_size()] *)
Definition dtype_size (d : dtype) : Z :=
  match d with
  | float32 | int32 => 4
  | float64 | int64 => 8
  end.

(** Number of elements of a shape, the product of its dimensions. *)
Definition numel (shape : list nat) : nat := foldr Nat.mul 1%nat shape.

(** The loop that opens [TensorBuffer.__init__], on the element counts:
    [indices = [0]; for t in tensors: indices.append(indices[-1] + t.nelement())]. *)
Definition indices (nelements : list nat) : list nat :=
  foldl (fun idx n => idx ++ [(List.last idx 0 + n)%nat]) [0%nat] nelements.

(** [indices[:-1]] and [indices[1:]] *)
Definition start_idx (nelements : list nat) : list nat := removelast (indices nelements).
Definition end_idx (nelements : list nat) : list nat := tail (indices nelements).

(** The running totals [s + n0, s + n0 + n1, ...], the closed form of [indices]. *)
Fixpoint running (s : nat) (ns : list nat) : list nat :=
  match ns with
  | [] => []
  | n :: ns' => (s + n)%nat :: running (s + n) ns'
  end.

(** ** Tensors in a store

    A tensor is a contiguous view into a storage: the storage it lives in, the
    offset of its first element and its shape.  Two tensors alias when they
    share a storage; [t.view(..)] and slices keep the storage. *)

Module Heap.

Record tensor : Type := Tensor {
  storage : positive;
  offset : nat;
  shape : list nat;
}.

Definition nelement (t : tensor) : nat := numel (shape t).

Record TensorBuffer : Type := {
  _start_idx : list nat;
  _end_idx : list nat;
  _tensors : list tensor;
  buffer : tensor;
}.

Section Heap.
Context {A : Type}.

(** The elements of [t], in row-major order. *)
Definition read (σ : gmap positive (list A)) (t : tensor) : result (list A) :=
  match σ !! storage t with
  | Some sto =>
      if decide (offset t + nelement t ≤ length sto)
      then Ok (take (nelement t) (drop (offset t) sto))
      else Raise RuntimeError
  | None => Raise RuntimeError
  end.

(** Overwrite the elements of [t] with [vs]. *)
Definition assign (σ : gmap positive (list A)) (t : tensor) (vs : list A)
  : result (gmap positive (list A)) :=
  match σ !! storage t with
  | Some sto =>
      if decide (offset t + nelement t ≤ length sto ∧ length vs = nelement t)
      then Ok (<[storage t := take (offset t) sto ++ vs
                               ++ drop (offset t + nelement t) sto]> σ)
      else Raise RuntimeError
  | None => Raise RuntimeError
  end.

(** [dst[:] = src] for tensors of one shape (shapes that differ and
    broadcast are outside the model and raise). *)
Definition setitem (σ : gmap positive (list A)) (dst src : tensor)
  : result (gmap positive (list A)) :=
  if decide (shape dst = shape src) then
    vs ← read σ src;
    assign σ dst vs
  else Raise RuntimeError.

(** A new storage, as every out-of-place torch operation allocates. *)
Definition alloc (σ : gmap positive (list A)) (vs : list A)
  : gmap positive (list A) * tensor :=
  let l := fresh (dom σ) in
  (<[l := vs]> σ, Tensor l 0 [length vs]).

(** [torch.cat([t.view(-1) for t in tensors])]: raises on an empty list,
    otherwise the concatenation in a new storage. *)
Fixpoint read_all (σ : gmap positive (list A)) (ts : list tensor)
  : result (list (list A)) :=
  match ts with
  | [] => Ok []
  | t :: ts' =>
      v ← read σ t;
      vs ← read_all σ ts';
      Ok (v :: vs)
  end.

Definition cat (σ : gmap positive (list A)) (ts : list tensor)
  : result (gmap positive (list A) * tensor) :=
  match ts with
  | [] => Raise RuntimeError
  | _ => vs ← read_all σ ts; Ok (alloc σ (concat vs))
  end.

(** [TensorBuffer.__init__] *)
Definition init (σ : gmap positive (list A)) (tensors : list tensor)
  : result (gmap positive (list A) * TensorBuffer) :=
  let ns := map nelement tensors in
  '(σ', buf) ← cat σ tensors;
  Ok (σ', {| _start_idx := start_idx ns;
             _end_idx := end_idx ns;
             _tensors := tensors;
             buffer := buf |}).

(** [TensorBuffer.__getitem__]:
    the slice [self.buffer[start:end]] viewed with the shape of [self._tensors[index]].
    An index past the recorded offsets is an [IndexError]; a slice (clamped
    to the buffer) whose length is not that of the shape cannot be viewed. *)
Definition getitem (tb : TensorBuffer) (index : nat) : result tensor :=
  s ← of_option IndexError (_start_idx tb !! index);
  e ← of_option IndexError (_end_idx tb !! index);
  t ← of_option IndexError (_tensors tb !! index);
  let len := nelement (buffer tb) in
  if decide ((e `min` len) - (s `min` len) = nelement t)%nat
  then Ok (Tensor (storage (buffer tb)) (offset (buffer tb) + s) (shape t))
  else Raise RuntimeError.

Definition len (tb : TensorBuffer) : nat := length (_tensors tb).

(** [TensorBuffer.unpack]: [for tensor, entry in zip(tensors, self): tensor[:] = entry].
    Iterating the buffer asks for items 0, 1, ... until [IndexError]. *)
Fixpoint unpack_from (tb : TensorBuffer) (i : nat) (tensors : list tensor)
    (σ : gmap positive (list A)) : result (gmap positive (list A)) :=
  match tensors with
  | [] => Ok σ
  | t :: rest =>
      match getitem tb i with
      | Raise IndexError => Ok σ
      | Raise e => Raise e
      | Ok entry =>
          σ' ← setitem σ t entry;
          unpack_from tb (S i) rest σ'
      end
  end.

Definition unpack (tb : TensorBuffer) (tensors : list tensor)
    (σ : gmap positive (list A)) : result (gmap positive (list A)) :=
  unpack_from tb 0 tensors σ.

(** [TensorBuffer.pack]: [for tensor, entry in zip(tensors, self): entry[:] = tensor] *)
Fixpoint pack_from (tb : TensorBuffer) (i : nat) (tensors : list tensor)
    (σ : gmap positive (list A)) : result (gmap positive (list A)) :=
  match tensors with
  | [] => Ok σ
  | t :: rest =>
      match getitem tb i with
      | Raise IndexError => Ok σ
      | Raise e => Raise e
      | Ok entry =>
          σ' ← setitem σ entry t;
          pack_from tb (S i) rest σ'
      end
  end.

Definition pack (tb : TensorBuffer) (tensors : option (list tensor))
    (σ : gmap positive (list A)) : result (gmap positive (list A)) :=
  pack_from tb 0 (default (_tensors tb) tensors) σ.

(** [TensorBuffer.nelement] *)
Definition buffer_nelement (tb : TensorBuffer) : nat := nelement (buffer tb).

End Heap.
End Heap.

(** ** Tensors as values

    Where aliasing plays no role a tensor is its shape and its elements in
    row-major order. *)

Record vtensor (A : Type) : Type := VTensor {
  vshape : list nat;
  vdata : list A;
}.
Arguments VTensor {A} vshape vdata.
Arguments vshape {A} v.
Arguments vdata {A} v.

Definition vnelement {A} (t : vtensor A) : nat := numel (vshape t).

(** A tensor holds as many elements as its shape says. *)
Definition wf_tensor {A} (t : vtensor A) : Prop := length (vdata t) = vnelement t.

(** [torch.sign] on floats and [Tensor.to(torch.int32)], [Tensor.float()]
    between the small integers the codec uses and floats. *)
Definition Qsign (q : Q) : Q :=
  if (0 <? Qnum q)%Z then 1%Q else if (Qnum q <? 0)%Z then (-1)%Q else 0%Q.

Definition to_int32 (q : Q) : Z := (Qnum q ÷ Zpos (Qden q))%Z.
Definition to_float (z : Z) : Q := inject_Z z.

(** ** The bit-packing primitive *)

Module bit2byte.

(** Modelled from the spec: the extension module [bit2byte] is imported by
    the source but is not part of it.  The spec has [packing] take a
    [(32, c)] tensor of signs and pack each column of 32 signs into one
    32-bit word, and [unpacking] do the inverse into a [(32, c)] tensor of
    ones; row [i] is kept in bit [31 - i], a sign is kept as the sign bit
    of its int32 (zero falls in the non-negative bucket), and an unpacked
    bit [b] is left as [b << 1], which the caller turns into [1 - 2b]. *)
Definition sign_bit (s : Z) : Z := if (s <? 0)%Z then 1%Z else 0%Z.

(** A 32-bit pattern read as a signed int32. *)
Definition wrap32 (u : Z) : Z := ((u + 2 ^ 31) mod 2 ^ 32 - 2 ^ 31)%Z.

Definition pack_word (col : list Z) : Z :=
  wrap32 (fold_left (fun acc s => Z.lor (Z.shiftl acc 1) (sign_bit s)) col 0%Z).

Definition column (j : nat) (rows : list (list Z)) : list Z :=
  map (fun row => nth j row 0%Z) rows.

Definition packing (c : nat) (src : list (list Z)) : list Z :=
  map (fun j => pack_word (column j src)) (seq 0 c).

Definition unpack_row (i : nat) (src : list Z) (dst_row : list Z) : list Z :=
  zip_with (fun d w => Z.shiftl (Z.land d (Z.shiftr w (31 - Z.of_nat i))) 1)
           dst_row src.

Definition unpacking (src : list Z) (dst : list (list Z)) : list (list Z) :=
  imap (fun i row => unpack_row i src row) dst.

End bit2byte.

(** ** The sign codec *)

Module SignCompressor.

(** [tensor.view(32, -1)] of a flat tensor: 32 rows of [c] consecutive
    elements; ambiguous, hence an error, on an empty tensor. *)
Definition view_32 {A} (flat : list A) : result (nat * list (list A)) :=
  if decide (length flat = 0%nat) then Raise RuntimeError
  else if decide (length flat mod 32 = 0)%nat then
    let c := (length flat / 32)%nat in
    Ok (c, map (fun r => take c (drop (r * c) flat)) (seq 0 32))
  else Raise RuntimeError.

(** [add_elm = 32 - (src_len % 32); if src_len % 32 == 0: add_elm = 0] *)
Definition add_elm (src_len : nat) : nat :=
  if decide (src_len mod 32 = 0)%nat then 0%nat else (32 - src_len mod 32)%nat.

(** [SignCompressor.element_num] *)
Definition element_num (size : list nat) : nat :=
  fold_left (fun num s => (num * s)%nat) size 1%nat.

(** [SignCompressor.packing] *)
Definition packing (src_tensor : vtensor Q) : result (vtensor Z * list nat) :=
  let signs := map Qsign (vdata src_tensor) in
  let src_tensor_size := vshape src_tensor in
  let src_len := length signs in
  let new_tensor := replicate (add_elm src_len) 0%Q in
  '(c, rows) ← view_32 (signs ++ new_tensor);
  let rows := map (map to_int32) rows in
  let dst_tensor := bit2byte.packing c rows in
  Ok (VTensor [c] dst_tensor, src_tensor_size).

(** [SignCompressor.unpacking]; the element-wise [&=] of the primitive
    needs a row of the ones tensor and the words to be equally long. *)
Definition unpacking (src_tensor : vtensor Z) (src_tensor_size : list nat)
  : result (vtensor Q) :=
  let src_element_num := element_num src_tensor_size in
  let new_tensor := replicate (src_element_num + add_elm src_element_num) 1%Z in
  '(c, rows) ← view_32 new_tensor;
  if decide (length (vdata src_tensor) = c) then
    let rows := bit2byte.unpacking (vdata src_tensor) rows in
    let flat := take src_element_num (concat rows) in
    let flat := map (fun d => (- (d + -1))%Z) flat in
    Ok (VTensor src_tensor_size (map to_float flat))
  else Raise RuntimeError.

(** [SignCompressor.compress] and [SignCompressor.uncompress] *)
Definition compress (src_tensor : vtensor Q) := packing src_tensor.

Definition uncompress (src_tensor : vtensor Z) (src_tensor_size : list nat) :=
  unpacking src_tensor src_tensor_size.

(** What the primitive leaves in place of a sign [q], and what a round trip
    decodes an element to: the bucket of its sign bit. *)
Definition decoded (q : Q) : Z := (2 * bit2byte.sign_bit (to_int32 q))%Z.

Definition sign_bucket (q : Q) : Q := if (Qnum q <? 0)%Z then (-1)%Q else 1%Q.

Definition roundtrip (x : vtensor Q) : result (vtensor Q) :=
  '(packed, size) ← compress x;
  uncompress packed size.

(** [torch.sign(x)] *)
Definition sign (x : vtensor Q) : vtensor Q :=
  VTensor (vshape x) (map Qsign (vdata x)).

End SignCompressor.

(** ** Collectives

    A reducer runs in a monad that raises exceptions and records every call
    that reaches [torch.distributed]: the operation, the number of elements
    put on the wire and the size of one element. *)

Inductive collective : Type := AllReduce | AllGather.

Record event : Type := Event {
  ev_op : collective;
  ev_nelement : nat;
  ev_element_size : Z;
}.

Definition M (A : Type) : Type := list event → result (A * list event).

#[global] Instance M_ret : MRet M := fun A a tr => Ok (a, tr).
#[global] Instance M_bind : MBind M := fun A B k m tr =>
  match m tr with
  | Ok (a, tr') => k a tr'
  | Raise e => Raise e
  end.

Definition lift {A} (r : result A) : M A := fun tr =>
  match r with
  | Ok a => Ok (a, tr)
  | Raise e => Raise e
  end.

Definition wire (op : collective) (n : nat) (size : Z) : M unit :=
  fun tr => Ok (tt, tr ++ [Event op n size]).

Definition run {A} (m : M A) : result (A * list event) := m [].

(** The other workers, seen from this one: the world size, and for the
    [k]-th call that reaches the wire what every worker (this one included)
    contributes, given this worker's buffer. *)
Record network (F : Type) : Type := Network {
  n_workers : nat;
  gather_float : nat → list F → list (list F);
  gather_int : nat → list Z → list (list Z);
}.
Arguments n_workers {F} n.
Arguments gather_float {F} n k mine.
Arguments gather_int {F} n k mine.

(** [n_bits(tensor)] *)
Definition n_bits (nelement : nat) (element_size : Z) : Z :=
  (8 * Z.of_nat nelement * element_size)%Z.

(** The bits of a recorded event. *)
Definition event_bits (e : event) : Z := n_bits (ev_nelement e) (ev_element_size e).

Definition trace_bits (tr : list event) : Z :=
  foldr (fun e acc => (event_bits e + acc)%Z) 0%Z tr.

Section Collectives.
Context {F : Type} (add : F → F → F).

(** Element-wise sum of the workers' buffers, as [torch.stack(..).sum(dim=0)]
    and the all-reduce compute it. *)
Definition sum_dim0 (rows : list (list F)) : result (list F) :=
  match rows with
  | [] => Raise RuntimeError
  | r :: rs => Ok (fold_left (zip_with add) rs r)
  end.

(** [torch.distributed.all_reduce(buffer)] *)
Definition dist_all_reduce (net : network F) (size : Z) (buffer : list F)
  : M (list F) :=
  fun tr =>
    match sum_dim0 (gather_float net (length tr) buffer) with
    | Ok summed => Ok (summed, tr ++ [Event AllReduce (length buffer) size])
    | Raise e => Raise e
    end.

(** The module-level [all_reduce]: a no-op unless the world is larger than one. *)
Definition all_reduce (net : network F) (size : Z) (buffer : list F)
  : M (list F) :=
  if decide (1 < n_workers net)%nat then dist_all_reduce net size buffer
  else mret buffer.

End Collectives.

(** [torch.distributed.all_gather(out_list, in_tensor)] and the module-level
    [all_gather], which fills the single slot itself in a world of one and
    asserts that there is exactly one. *)
Definition dist_all_gather {A} (gather : nat → list A → list (list A))
    (size : Z) (in_tensor : list A) : M (list (list A)) :=
  fun tr => Ok (gather (length tr) in_tensor,
                tr ++ [Event AllGather (length in_tensor) size]).

Definition all_gather {A} (world : nat) (gather : nat → list A → list (list A))
    (slots : nat) (size : Z) (in_tensor : list A) : M (list (list A)) :=
  if decide (1 < world)%nat then dist_all_gather gather size in_tensor
  else if decide (slots = 1%nat) then mret [in_tensor]
  else lift (Raise AssertionError).

(** ** Loops over tensor lists *)

(** [dst[:] = src] on values, for tensors of one shape (broadcasting between
    different shapes is outside the model and raises). *)
Definition vsetitem {A} (dst src : vtensor A) : result (vtensor A) :=
  if decide (vshape dst = vshape src) then Ok (VTensor (vshape dst) (vdata src))
  else Raise RuntimeError.

(** [t.data[:] = c] and [t.zero_()] *)
Definition vfill {A} (c : A) (t : vtensor A) : vtensor A :=
  VTensor (vshape t) (map (fun _ => c) (vdata t)).

(** [for x, y in zip(xs, ys): y <- f x y]; the [ys] past the end of [xs]
    are left as they are. *)
Fixpoint zip_update {A B} (f : A → B → result B) (xs : list A) (ys : list B)
  : result (list B) :=
  match xs, ys with
  | x :: xs', y :: ys' =>
      y' ← f x y;
      rest ← zip_update f xs' ys';
      Ok (y' :: rest)
  | _, _ => Ok ys
  end.

(** ** The flat buffer packer on values *)

Module TensorBuffer.
Section TensorBuffer.
Context {A : Type}.

Record t : Type := Make {
  _start_idx : list nat;
  _end_idx : list nat;
  _shapes : list (list nat);
  buffer : list A;
}.

(** [TensorBuffer.__init__]; [_shapes] are the shapes of [_tensors], the
    only part of them that is read afterwards. *)
Definition init (tensors : list (vtensor A)) : result t :=
  match tensors with
  | [] => Raise RuntimeError
  | _ =>
      let ns := map vnelement tensors in
      Ok {| _start_idx := start_idx ns;
            _end_idx := end_idx ns;
            _shapes := map vshape tensors;
            buffer := concat (map vdata tensors) |}
  end.

(** [self.buffer = new_buffer] *)
Definition set_buffer (tb : t) (new_buffer : list A) : t :=
  {| _start_idx := _start_idx tb; _end_idx := _end_idx tb;
     _shapes := _shapes tb; buffer := new_buffer |}.

(** [TensorBuffer.__getitem__] *)
Definition getitem (tb : t) (index : nat) : result (vtensor A) :=
  s ← of_option IndexError (_start_idx tb !! index);
  e ← of_option IndexError (_end_idx tb !! index);
  shape ← of_option IndexError (_shapes tb !! index);
  let slice := take (e - s) (drop s (buffer tb)) in
  if decide (length slice = numel shape) then Ok (VTensor shape slice)
  else Raise RuntimeError.

(** [for y, entry in zip(ys, self): y <- f entry y] *)
Fixpoint zip_entries {B} (f : vtensor A → B → result B) (tb : t) (i : nat)
    (ys : list B) : result (list B) :=
  match ys with
  | [] => Ok []
  | y :: ys' =>
      match getitem tb i with
      | Raise IndexError => Ok ys
      | Raise e => Raise e
      | Ok entry =>
          y' ← f entry y;
          rest ← zip_entries f tb (S i) ys';
          Ok (y' :: rest)
      end
  end.

(** [TensorBuffer.unpack] *)
Definition unpack (tb : t) (tensors : list (vtensor A)) : result (list (vtensor A)) :=
  zip_entries (fun entry tensor => vsetitem tensor entry) tb 0 tensors.

Definition nelement (tb : t) : nat := length (buffer tb).

(** [TensorBuffer.bits], for elements of [element_size] bytes *)
Definition bits (element_size : Z) (tb : t) : Z :=
  (8 * Z.of_nat (nelement tb) * element_size)%Z.

End TensorBuffer.
Arguments t : clear implicits.
End TensorBuffer.

(** A buffer laid out for [shapes] and holding [buf]. *)
Definition laid_out {A} (tb : TensorBuffer.t A) (shapes : list (list nat))
    (buf : list A) : Prop :=
  TensorBuffer._start_idx tb = start_idx (map numel shapes)
  ∧ TensorBuffer._end_idx tb = end_idx (map numel shapes)
  ∧ TensorBuffer._shapes tb = shapes
  ∧ TensorBuffer.buffer tb = buf
  ∧ length buf = sum_list (map numel shapes).

(** ** Helpers shared by the reducers *)

Fixpoint mapM {A B} (f : A → result B) (xs : list A) : result (list B) :=
  match xs with
  | [] => Ok []
  | x :: xs' =>
      y ← f x;
      ys ← mapM f xs';
      Ok (y :: ys)
  end.

Fixpoint foldM {A S} (f : S → A → result S) (xs : list A) (s : S) : result S :=
  match xs with
  | [] => Ok s
  | x :: xs' => s' ← f s x; foldM f xs' s'
  end.

(** [x < y] on floats. *)
Definition Qltb (x y : Q) : bool := negb (Qle_bool y x).

(** Python's [int(x)] on a float: truncation towards zero. *)
Definition int_of_float (q : Q) : Z := (Qnum q ÷ Zpos (Qden q))%Z.

(** [x / n_workers] *)
Definition div_workers (n : nat) (x : Q) : Q := (x / inject_Z (Z.of_nat n))%Q.

(** [a.add_(b)] for tensors of one shape. *)
Definition vadd_ (a b : vtensor Q) : result (vtensor Q) :=
  if decide (vshape a = vshape b)
  then Ok (VTensor (vshape a) (zip_with Qplus (vdata a) (vdata b)))
  else Raise RuntimeError.

(** The element size of [torch.float32] and [torch.int32] buffers that the
    reducers allocate themselves. *)
Definition float32_size : Z := dtype_size float32.
Definition int32_size : Z := dtype_size int32.

(** The sentinel that marks a memory that must not be used. *)
Definition dont_use : Q := inject_Z (-10000000).

(** ** Exact reduction *)

Section Exact.
(** [net] is the process group and [grad_size] the element size of the
    gradients' dtype. *)
Context (net : network Q) (grad_size : Z).

(** [reduce_mean_list] *)
Definition reduce_mean_list (list_in list_out : list (vtensor Q))
  : M (list (vtensor Q) * Z) :=
  if decide (n_workers net = 1%nat) then
    outs ← lift (zip_update (fun t_in t_out => vsetitem t_out t_in) list_in list_out);
    mret (outs, 0%Z)
  else
    buffer ← lift (TensorBuffer.init list_in);
    summed ← dist_all_reduce Qplus net grad_size (TensorBuffer.buffer buffer);
    let buffer :=
      TensorBuffer.set_buffer buffer (map (div_workers (n_workers net)) summed) in
    let bits_communicated := TensorBuffer.bits grad_size buffer in
    outs ← lift (TensorBuffer.unpack buffer list_out);
    mret (outs, bits_communicated).

(** [ExactReducer.reduce]; the result is the new [grad_out], the new
    [memory_out] and the returned bit count. *)
Definition ExactReducer_reduce (grad_in grad_out memory_out : list (vtensor Q))
  : M (list (vtensor Q) * list (vtensor Q) * Z) :=
  let mems := map (vfill 0%Q) memory_out in
  '(outs, bits_communicated) ← reduce_mean_list grad_in grad_out;
  mret (outs, mems, bits_communicated).

End Exact.

(** ** Sign reducers *)

Section Sign.
Context (net : network Q).

(** The part [SignReducer] and [SignSGDwithMajorityVoteReducer] share:
    flat-pack, compress, gather, and decompress every worker's bits. *)
Definition gather_signs (grad_in : list (vtensor Q))
  : M (TensorBuffer.t Q * list (vtensor Q) * Z) :=
  flatgrad ← lift (TensorBuffer.init grad_in);
  let flat := TensorBuffer.buffer flatgrad in
  '(my_bits, sign_size) ← lift (SignCompressor.compress (VTensor [length flat] flat));
  bits ← (if decide (1 < n_workers net)%nat
          then all_gather (n_workers net) (gather_int net) (n_workers net)
                          int32_size (vdata my_bits)
          else mret [vdata my_bits]);
  let bits_communicated := n_bits (length (vdata my_bits)) int32_size in
  flatsigns ← lift (mapM (fun their_bits =>
                 SignCompressor.uncompress (VTensor (vshape my_bits) their_bits)
                                           sign_size) bits);
  mret (flatgrad, flatsigns, bits_communicated).

(** [SignReducer.reduce] *)
Definition SignReducer_reduce (grad_in grad_out memory_out : list (vtensor Q))
  : M (list (vtensor Q) * list (vtensor Q) * Z) :=
  '(flatgrad, flatsigns, bits_communicated) ← gather_signs grad_in;
  summed ← lift (sum_dim0 Qplus (map vdata flatsigns));
  let avg_flatsign := map (div_workers (n_workers net)) summed in
  let flatgrad := TensorBuffer.set_buffer flatgrad avg_flatsign in
  outs ← lift (TensorBuffer.zip_entries (fun avg out => vsetitem out avg)
                                       flatgrad 0 grad_out);
  mems ← lift (zip_update (fun tensor mem =>
                 mem ← vsetitem mem tensor;
                 vadd_ mem (SignCompressor.sign tensor)) grad_in memory_out);
  mret (outs, mems, bits_communicated).

(** [SignSGDwithMajorityVoteReducer.reduce] *)
Definition SignSGDwithMajorityVoteReducer_reduce
    (grad_in grad_out memory_out : list (vtensor Q))
  : M (list (vtensor Q) * list (vtensor Q) * Z) :=
  '(flatgrad, flatsigns, bits_communicated) ← gather_signs grad_in;
  sum_of_signs ← lift (sum_dim0 Qplus (map vdata flatsigns));
  let total_sign := map Qsign sum_of_signs in
  let flatgrad := TensorBuffer.set_buffer flatgrad total_sign in
  outs ← lift (TensorBuffer.zip_entries (fun majorityvote out => vsetitem out majorityvote)
                                       flatgrad 0 grad_out);
  let mems := map (vfill dont_use) memory_out in
  mret (outs, mems, bits_communicated).

End Sign.

(** ** Top-k reducer *)

(** An index into a flat tensor of [n] elements, negative ones counting from
    the end; anything else is an [IndexError]. *)
Definition normalize_index (n : nat) (p : Z) : result nat :=
  if decide (0 ≤ p < Z.of_nat n)%Z then Ok (Z.to_nat p)
  else if decide (- Z.of_nat n ≤ p < 0)%Z then Ok (Z.to_nat (Z.of_nat n + p))
  else Raise IndexError.

(** [flat[start:end] = values] for a slice exactly as long as [values]. *)
Definition set_slice {A} (start stop : nat) (values flat : list A) : result (list A) :=
  if decide (length (take (stop - start) (drop start flat)) = length values)
  then Ok (take start flat ++ values ++ drop (start + length values) flat)
  else Raise RuntimeError.

(** [flat[positions] = c] *)
Definition index_fill (c : Q) (positions : list Z) (flat : list Q) : result (list Q) :=
  idxs ← mapM (normalize_index (length flat)) positions;
  Ok (fold_left (fun acc i => <[i := c]> acc) idxs flat).

(** [flat[positions] += values]: the old elements are read first, the sums
    are written back in order. *)
Definition index_add (positions : list Z) (values : list Q) (flat : list Q)
  : result (list Q) :=
  idxs ← mapM (normalize_index (length flat)) positions;
  if decide (length idxs = length values) then
    let cur := map (fun i => nth i flat 0%Q) idxs in
    let new := zip_with Qplus cur values in
    Ok (fold_left (fun acc '(i, v) => <[i := v]> acc) (zip idxs new) flat)
  else Raise RuntimeError.

Section TopK.
(** [topk xs k] stands for [torch.topk(xs, k, sorted=False)[1]], the
    library's selection of [k] positions; [compression] is the reducer's
    parameter. *)
Context (topk : list Q → nat → result (list nat)).
Context (net : network Q) (compression : Q).

(** [max(1, int(0.5 * self.compression * tensor.nelement()))] *)
Definition top_size (tensor : vtensor Q) : nat :=
  Z.to_nat (Z.max 1 (int_of_float
    ((1 # 2) * compression * inject_Z (Z.of_nat (vnelement tensor))))).

(** The positions and values selected in one tensor. *)
Definition select (tensor : vtensor Q) : result (list Z * list Q) :=
  positions ← topk (map Qabs (vdata tensor)) (top_size tensor);
  values ← mapM (fun p => of_option IndexError (vdata tensor !! p)) positions;
  Ok (map Z.of_nat positions, values).

(** The body of the loop [reduce.topk], for one tensor and its slice. *)
Definition fill_body (st : list Q * list Z) (item : vtensor Q * (nat * nat))
  : result (list Q * list Z) :=
  let '(fv, fp) := st in
  let '(tensor, (start, stop)) := item in
  '(positions, values) ← select tensor;
  fv ← set_slice start stop values fv;
  fp ← set_slice start stop positions fp;
  Ok (fv, fp).

(** The body of the loop [reduce.memory]. *)
Definition memory_body (flat_positions : list Z)
    (item : vtensor Q * (nat * nat)) (mem : vtensor Q) : result (vtensor Q) :=
  let '(tensor, (start, stop)) := item in
  let positions := take (stop - start) (drop start flat_positions) in
  mem ← vsetitem mem tensor;
  data ← index_fill 0%Q positions (vdata mem);
  Ok (VTensor (vshape mem) data).

(** The body of the loop [reduce.combine]. *)
Definition combine_body (worker_positions : list (list Z))
    (worker_values : list (list Q))
    (item : vtensor Q * (nat * nat)) (out : vtensor Q) : result (vtensor Q) :=
  let '(tensor, (start, stop)) := item in
  data ← foldM
    (fun data '(pos, val) =>
       let positions := take (stop - start) (drop start pos) in
       let values := take (stop - start) (drop start val) in
       index_add positions (map (div_workers (n_workers net)) values) data)
    (zip worker_positions worker_values)
    (map (fun _ => 0%Q) (vdata out));
  Ok (VTensor (vshape out) data).

(** [TopKReducer.reduce]; [torch.empty] buffers start as zeros here, every
    slot is assigned before it is read. *)
Definition TopKReducer_reduce (grad_in grad_out memory_out : list (vtensor Q))
  : M (list (vtensor Q) * list (vtensor Q) * Z) :=
  let sizes := map top_size grad_in in
  let flatgrad_size := sum_list sizes in
  let flatgrad_start_idx := start_idx sizes in
  let flatgrad_end_idx := end_idx sizes in
  let bounds := zip flatgrad_start_idx flatgrad_end_idx in
  let flat_values := replicate flatgrad_size 0%Q in
  let flat_positions := replicate flatgrad_size 0%Z in
  '(flat_values, flat_positions) ← lift (foldM fill_body (zip grad_in bounds)
                                              (flat_values, flat_positions));
  mems ← lift (zip_update (memory_body flat_positions)
                          (zip grad_in bounds) memory_out);
  '(worker_values, worker_positions) ←
      (if decide (1 < n_workers net)%nat then
         wv ← all_gather (n_workers net) (gather_float net) (n_workers net)
                         float32_size flat_values;
         wp ← all_gather (n_workers net) (gather_int net) (n_workers net)
                         int32_size flat_positions;
         mret (wv, wp)
       else mret ([flat_values], [flat_positions]));
  let bits_communicated :=
    (n_bits (length flat_values) float32_size
     + n_bits (length flat_positions) int32_size)%Z in
  outs ← lift (zip_update (combine_body worker_positions worker_values)
                          (zip grad_in bounds) grad_out);
  mret (outs, mems, bits_communicated).

End TopK.

(** ** Matrices

    A matrix is the list of its rows; a tensor of shape [(n, m)] is viewed
    as one by cutting its elements into [n] rows of [m]. *)

Section Matrix.
Context {F : Type} (zero : F) (add mul : F → F → F).

Definition to_rows (n m : nat) (data : list F) : list (list F) :=
  map (fun r => take m (drop (r * m) data)) (seq 0 n).

Definition column (j : nat) (rows : list (list F)) : list F :=
  map (fun row => nth j row zero) rows.

(** [matrix.t()] of a matrix with [m] columns *)
Definition transpose (m : nat) (rows : list (list F)) : list (list F) :=
  map (fun j => column j rows) (seq 0 m).

Definition total (xs : list F) : F := foldr add zero xs.

Definition dot (a b : list F) : F := total (zip_with mul a b).

(** [torch.matmul(a, b)] for [b] with [m] columns *)
Definition matmul (m : nat) (a b : list (list F)) : list (list F) :=
  map (fun row => map (fun j => dot row (column j b)) (seq 0 m)) a.

End Matrix.

(** ** Orthogonalisation *)

Module Orth.
Section Orth.
Local Open Scope R_scope.

Definition Rtotal (xs : list R) : R := total 0 Rplus xs.

(** [torch.sqrt(torch.sum(col ** 2))] *)
Definition l2norm (col : list R) : R := sqrt (Rtotal (map (fun x => x ^ 2) col)).

(** One turn of the loop of [orthogonalize], at column [i]:
    [col /= sqrt(sum(col ** 2)) + eps], then for the columns to the right
    [rest -= torch.sum(col * rest, dim=0) * col]. *)
Definition normalize_column (eps : R) (i : nat) (matrix : list (list R))
  : list (list R) :=
  let col := column 0 i matrix in
  let d := l2norm col + eps in
  map (fun row => <[i := nth i row 0 / d]> row) matrix.

Definition project_rest (i : nat) (matrix : list (list R)) : list (list R) :=
  let col := column 0 i matrix in
  map (fun row =>
         imap (fun j x =>
                 if decide (i < j)%nat
                 then x - dot 0 Rplus Rmult col (column 0 j matrix) * nth i row 0
                 else x) row) matrix.

Definition orthogonalize_step (eps : R) (m i : nat) (matrix : list (list R))
  : list (list R) :=
  let matrix := normalize_column eps i matrix in
  if decide (i + 1 < m)%nat then project_rest i matrix else matrix.

(** [orthogonalize(matrix, eps)] for a matrix with [m] columns:
    [for i in range(m)], in place. *)
Definition orthogonalize (eps : R) (m : nat) (matrix : list (list R))
  : list (list R) :=
  fold_left (fun matrix i => orthogonalize_step eps m i matrix) (seq 0 m) matrix.

(** The default [eps = 1e-8]. *)
Definition default_eps : R := / 100000000.

(** [P^T P] for a matrix with [m] columns *)
Definition gram (m : nat) (matrix : list (list R)) : list (list R) :=
  matmul 0 Rplus Rmult m (transpose 0 m matrix) matrix.

(** The identity matrix of size [m]. *)
Definition identity (m : nat) : list (list R) :=
  map (fun i => map (fun j => if decide (i = j) then 1 else 0) (seq 0 m)) (seq 0 m).

Definition vdot (a b : list R) : R := dot 0 Rplus Rmult a b.

(** [sum_j a_j * c_j], a combination of columns of [n] entries. *)
Fixpoint lincomb (n : nat) (a : list R) (cols : list (list R)) : list R :=
  match a, cols with
  | x :: a', c :: cols' =>
      zip_with Rplus (map (Rmult x) c) (lincomb n a' cols')
  | _, _ => replicate n 0
  end.

(** Columns of [n] entries of which only the trivial combination vanishes. *)
Definition full_column_rank (n : nat) (cols : list (list R)) : Prop :=
  Forall (fun c => length c = n) cols
  ∧ ∀ a, length a = length cols → lincomb n a cols = replicate n 0 →
         Forall (fun x => x = 0) a.

(** A later column [r] less its projection on the normalised column [q]. *)
Definition project (q r : list R) : list R :=
  zip_with (fun x qk => x - vdot q r * qk) r q.

(** Columns that are pairwise orthogonal and of unit length: the entries of
    [P^T P] are those of the identity. *)
Definition orthonormal (cols : list (list R)) : Prop :=
  ∀ i j ci cj, cols !! i = Some ci → cols !! j = Some cj →
               vdot ci cj = if decide (i = j) then 1 else 0.

End Orth.

(** The spec's words for the orthogonalisation, on the list of columns:
    "normalize column i by its L2 norm plus an epsilon, then subtract its
    projection from all later columns, single pass left-to-right". *)
Equations mgs (eps : R) (cols : list (list R)) : list (list R)
  by wf (length cols) lt :=
  mgs eps [] := [];
  mgs eps (c :: rest) :=
    let q := map (fun x => x / (l2norm c + eps))%R c in
    q :: mgs eps (map (project q) rest).
Next Obligation. rewrite length_map. lia. Qed.

End Orth.

(** ** Low-rank reducer *)

Module RankK.
Section RankK.
Local Open Scope R_scope.

(** The two positional tables of [RankKReducer.reduce]: 45 flags each,
    [rank1] false and [high_rank] true exactly at positions 20 and 42. *)
Definition rank1 : list bool :=
  map (fun i => negb (Nat.eqb i 20 || Nat.eqb i 42)) (seq 0 45).
Definition high_rank : list bool :=
  map (fun i => Nat.eqb i 20 || Nat.eqb i 42) (seq 0 45).

(** [[x for x, flag in zip(xs, flags) if flag == True]], with the position
    each kept item had in [xs]. *)
Definition flagged {A} (flags : list bool) (xs : list A) : list (nat * A) :=
  map (fun '(i, x, _) => (i, x))
      (filter (fun '(_, _, flag) => flag = true)
              (zip (zip (seq 0 (length xs)) xs) flags)).

(** What lives across calls: the factor buffers, [None] before the first
    call, and the number of draws taken from the seeded generator. *)
Record state : Type := State {
  p_memory : option (list R);
  q_memory : option (list R);
  draws : nat;
}.

(** [randn k n]: the [n] numbers of the [k]-th seeded draw.  [rank] and
    [reuse_query] are the reducer's parameters. *)
Context (randn : nat → nat → list R).
Context (net : network R) (rank : nat) (reuse_query : bool) (grad_size : Z).

(** [tensor.view(tensor.shape[0], -1)]: the sizes [n], [m] and the rows. *)
Definition as_matrix (tensor : vtensor R) : result (nat * nat * list (list R)) :=
  match vshape tensor with
  | [] => Raise IndexError
  | n :: rest =>
      if decide (vnelement tensor = 0%nat) then Raise RuntimeError
      else Ok (n, numel rest, to_rows n (numel rest) (vdata tensor))
  end.

(** [memory[idx : idx + n * rank].view(n, rank)] *)
Definition view_slice (memory : list R) (idx n r : nat) : result (list (list R)) :=
  let flat := take (n * r) (drop idx memory) in
  if decide (length flat = (n * r)%nat) then Ok (to_rows n r flat)
  else Raise RuntimeError.

(** Writing a matrix through such a view. *)
Definition write_slice (memory : list R) (idx : nat) (rows : list (list R))
  : list R :=
  take idx memory ++ concat rows ++ drop (idx + length (concat rows)) memory.

(** [out.data[:] <- rows] for a 2-D [out] of the rows' sizes. *)
Definition set_matrix (out : vtensor R) (n m : nat) (rows : list (list R))
  : result (vtensor R) :=
  if decide (vshape out = [n; m]) then Ok (VTensor (vshape out) (concat rows))
  else Raise RuntimeError.

(** [tensor - out], then [mem.data[:] = ...] *)
Definition residual (tensor out mem : vtensor R) : result (vtensor R) :=
  if decide (vshape tensor = vshape out ∧ vshape mem = vshape tensor)
  then Ok (VTensor (vshape mem) (zip_with Rminus (vdata tensor) (vdata out)))
  else Raise RuntimeError.

(** One high-rank tensor with its sizes and the offsets of its factors. *)
Record job : Type := Job {
  j_index : nat;
  j_tensor : vtensor R;
  j_n : nat;
  j_m : nat;
  j_rank : nat;
  j_matrix : list (list R);
  j_p_idx : nat;
  j_q_idx : nat;
}.

(** The two loops that size and lay out [p_memory] and [q_memory]. *)
Fixpoint layout (p_idx q_idx : nat) (high : list (nat * vtensor R))
  : result (list job * nat * nat) :=
  match high with
  | [] => Ok ([], p_idx, q_idx)
  | (i, tensor) :: high' =>
      '(n, m, matrix) ← as_matrix tensor;
      let r := (n `min` (m `min` rank))%nat in
      '(jobs, p_total, q_total) ← layout (p_idx + n * r) (q_idx + m * r) high';
      Ok (Job i tensor n m r matrix p_idx q_idx :: jobs, p_total, q_total)
  end.

(** [reduce.prepare.q]: a fresh random [q] unless queries are reused and
    the memory was there already. *)
Definition prepare_q (memory_is_uninitialized : bool)
    (st : list R * nat) (j : job) : result (list R * nat) :=
  let '(q_mem, drawn) := st in
  if reuse_query && negb memory_is_uninitialized then Ok (q_mem, drawn)
  else
    let size := (j_m j * j_rank j)%nat in
    let fresh := randn drawn size in
    if decide (length (take size (drop (j_q_idx j) q_mem)) = size
               ∧ length fresh = size)
    then Ok (take (j_q_idx j) q_mem ++ fresh ++ drop (j_q_idx j + size) q_mem,
             S drawn)
    else Raise RuntimeError.

(** [reduce.compute.p]: [torch.matmul(matrix, q, out=p)] *)
Definition compute_p (q_mem : list R) (p_mem : list R) (j : job)
  : result (list R) :=
  q ← view_slice q_mem (j_q_idx j) (j_m j) (j_rank j);
  _ ← view_slice p_mem (j_p_idx j) (j_n j) (j_rank j);
  Ok (write_slice p_mem (j_p_idx j)
        (matmul 0 Rplus Rmult (j_rank j) (j_matrix j) q)).

(** [reduce.normalize.p]: [orthogonalize(p)] *)
Definition normalize_p (p_mem : list R) (j : job) : result (list R) :=
  p ← view_slice p_mem (j_p_idx j) (j_n j) (j_rank j);
  Ok (write_slice p_mem (j_p_idx j)
        (Orth.orthogonalize Orth.default_eps (j_rank j) p)).

(** [reduce.compute.q]: [torch.matmul(matrix.t(), p, out=q)] *)
Definition compute_q (p_mem : list R) (q_mem : list R) (j : job)
  : result (list R) :=
  p ← view_slice p_mem (j_p_idx j) (j_n j) (j_rank j);
  _ ← view_slice q_mem (j_q_idx j) (j_m j) (j_rank j);
  Ok (write_slice q_mem (j_q_idx j)
        (matmul 0 Rplus Rmult (j_rank j)
                (transpose 0 (j_m j) (j_matrix j)) p)).

(** [reduce.outerprod]: [torch.matmul(p, q.t(), out=out.data[:])] and
    [mem.data[:] = tensor - out], written back at the tensor's position. *)
Definition outerprod (p_mem q_mem : list R)
    (st : list (vtensor R) * list (vtensor R)) (j : job)
  : result (list (vtensor R) * list (vtensor R)) :=
  let '(outs, mems) := st in
  p ← view_slice p_mem (j_p_idx j) (j_n j) (j_rank j);
  q ← view_slice q_mem (j_q_idx j) (j_m j) (j_rank j);
  out ← of_option IndexError (outs !! j_index j);
  mem ← of_option IndexError (mems !! j_index j);
  out ← set_matrix out (j_n j) (j_m j)
          (matmul 0 Rplus Rmult (j_m j) p (transpose 0 (j_rank j) q));
  mem ← residual (j_tensor j) out mem;
  Ok (<[j_index j := out]> outs, <[j_index j := mem]> mems).

(** [RankKReducer.reduce]; [torch.empty] buffers start as zeros here. *)
Definition reduce (st : state) (grad_in grad_out memory_out : list (vtensor R))
  : M (list (vtensor R) * list (vtensor R) * Z * state) :=
  let len := (length grad_in `min` (length grad_out `min` length memory_out))%nat in
  let grad_tensors := take len grad_in in
  let rank1_tensors := flagged rank1 grad_tensors in
  let high_rank_tensors := flagged high_rank grad_tensors in
  let memory_is_uninitialized := bool_decide (p_memory st = None) in
  '(jobs, p_total_size, q_total_size) ← lift (layout 0 0 high_rank_tensors);
  let p_mem := default (replicate p_total_size 0) (p_memory st) in
  let q_mem := match p_memory st with
               | None => Some (replicate q_total_size 0)
               | Some _ => q_memory st
               end in
  q_mem ← lift (of_option RuntimeError q_mem);
  '(q_mem, drawn) ← lift (foldM (prepare_q memory_is_uninitialized) jobs
                                (q_mem, draws st));
  p_mem ← lift (foldM (compute_p q_mem) jobs p_mem);
  p_mem ← all_reduce Rplus net float32_size p_mem;
  let bits_p := n_bits (length p_mem) float32_size in
  rank1_tensor_list ← lift (TensorBuffer.init (map snd rank1_tensors));
  rank1_summed ← dist_all_reduce Rplus net grad_size
                    (TensorBuffer.buffer rank1_tensor_list);
  let bits_rank1 := TensorBuffer.bits grad_size rank1_tensor_list in
  p_mem ← lift (foldM normalize_p jobs p_mem);
  q_mem ← lift (foldM (compute_q p_mem) jobs q_mem);
  q_mem ← all_reduce Rplus net float32_size q_mem;
  let bits_q := n_bits (length q_mem) float32_size in
  let q_mem := map (fun x => x / INR (n_workers net)) q_mem in
  '(outs, mems) ← lift (foldM (outerprod p_mem q_mem) jobs (grad_out, memory_out));
  let rank1_tensor_list :=
    TensorBuffer.set_buffer rank1_tensor_list
      (map (fun x => x / INR (n_workers net)) rank1_summed) in
  rank1_outs ← lift (TensorBuffer.unpack rank1_tensor_list
                       (omap (fun '(i, _) => outs !! i) rank1_tensors));
  let outs := fold_left (fun acc '((i, _), out) => <[i := out]> acc)
                        (zip rank1_tensors rank1_outs) outs in
  mret (outs, mems, (bits_p + bits_rank1 + bits_q)%Z,
        State (Some p_mem) (Some q_mem) drawn).

End RankK.
End RankK.

(** ** Atomo reducer *)

Module Atomo.

(** [xs[mask]]: the elements of [xs] at the positions where [mask] holds. *)
Definition masked {A} (xs : list A) (mask : list bool) : list A :=
  map fst (filter (fun '(_, b) => b = true) (zip xs mask)).

(** [probabilities > noise] for the [k]-th vector drawn from [torch.rand];
    [rand k i] is its element [i]. *)
Definition draw_mask (rand : nat → nat → Q) (probabilities : list Q) (k : nat)
  : list bool :=
  let noise := map (rand k) (seq 0 (length probabilities)) in
  zip_with (fun p z => Qltb z p) probabilities noise.

(** The indices kept by the [k]-th draw. *)
Definition kept (rand : nat → nat → Q) (probabilities : list Q) (k : nat)
  : list nat :=
  masked (seq 0 (length probabilities)) (draw_mask rand probabilities k).

(** The loop of [sample_singular_values].  [sample_probs] is unbound until
    the body has run once.  The result also carries the number of the next
    draw.  The loop ends because [n_attempts] only grows and stops it past
    1000. *)
Equations? sample_loop (rand : nat → nat → Q) (rank : nat) (probabilities : list Q)
    (drawn n_attempts : nat) (pick : list nat) (sample_probs : option (list Q))
  : result (list nat * list Q * nat) by wf (1001 - n_attempts)%nat lt :=
  sample_loop rand rank probabilities drawn n_attempts pick sample_probs
    with decide (length pick = rank) => {
    | left _ := match sample_probs with
                | Some sp => Ok (pick, sp, drawn)
                | None => Raise UnboundLocalError
                end;
    | right _ with decide (1000 < n_attempts)%nat => {
      | left _ := Raise RanOutOfAttempts;
      | right _ :=
          let mask := draw_mask rand probabilities drawn in
          let indices := seq 0 (length probabilities) in
          sample_loop rand rank probabilities (S drawn) (S n_attempts)
            (masked indices mask) (Some (masked probabilities mask))
      }
    }.
Proof. lia. Qed.

Section Atomo.
(** [svd] stands for [torch.svd], [rand] for [torch.rand]; [rank] is the
    reducer's parameter and [grad_size] the element size of the gradients. *)
Context (svd : vtensor Q → result (vtensor Q * vtensor Q * vtensor Q)).
Context (rand : nat → nat → Q).
Context (net : network Q) (rank : nat) (grad_size : Z).

(** [tensor.view(k, -1)] *)
Definition view_2d (k : nat) (tensor : vtensor Q) : result (vtensor Q) :=
  if decide (k = 0%nat ∨ vnelement tensor = 0%nat
             ∨ (vnelement tensor mod k ≠ 0)%nat)
  then Raise RuntimeError
  else Ok (VTensor [k; (vnelement tensor / k)%nat] (vdata tensor)).

(** [AtomoReducer.reshape_to_2d] *)
Definition reshape_to_2d (tensor : vtensor Q) : result (vtensor Q) :=
  match vshape tensor with
  | [n] => view_2d (n / 2) tensor
  | shape =>
      if bool_decide (Forall (fun s => s = 1%nat) (drop 2 shape))
      then Ok (VTensor (filter (fun s => s ≠ 1%nat) shape) (vdata tensor))
      else match shape with
           | a :: b :: _ => view_2d (a * b / 2) tensor
           | _ => Raise IndexError
           end
  end.

(** [AtomoReducer.probabilities], with [s] defaulting to [self.rank] *)
Definition probabilities (eigenvalues : list Q) (s : option nat) : list Q :=
  let s := default rank s in
  let abs_values := map Qabs eigenvalues in
  let sum := total 0%Q Qplus abs_values in
  map (fun a =>
         let p := (inject_Z (Z.of_nat s) * a / sum)%Q in
         if Qltb 1 p then 1%Q else p) abs_values.

(** [AtomoReducer.sample_singular_values] *)
Definition sample_singular_values (drawn : nat) (probabilities : list Q)
  : result (list nat * list Q * nat) :=
  sample_loop rand rank probabilities drawn 0 [] None.

(** [u[:, sample]] for a 2-D [u] *)
Definition select_columns (u : vtensor Q) (sample : list nat) : result (vtensor Q) :=
  match vshape u with
  | [a; b] =>
      if bool_decide (Forall (fun i => i < b)%nat sample)
      then Ok (VTensor [a; length sample]
                 (concat (map (fun row => map (fun i => nth i row 0%Q) sample)
                              (to_rows a b (vdata u)))))
      else Raise IndexError
  | _ => Raise IndexError
  end.

(** [s[sample] / sample_probs] for a 1-D [s] *)
Definition rescale (s : vtensor Q) (sample : list nat) (sample_probs : list Q)
  : result (vtensor Q) :=
  picked ← mapM (fun i => of_option IndexError (vdata s !! i)) sample;
  if decide (length picked = length sample_probs)
  then Ok (VTensor [length picked] (zip_with Qdiv picked sample_probs))
  else Raise RuntimeError.

(** The body of the encoding loop, for one tensor. *)
Definition encode (st : list (vtensor Q) * list (vtensor Q) * list (vtensor Q) * nat)
    (tensor : vtensor Q)
  : result (list (vtensor Q) * list (vtensor Q) * list (vtensor Q) * nat) :=
  let '(us, ss, vs, drawn) := st in
  matrix ← reshape_to_2d tensor;
  '(u, s, v) ← svd matrix;
  let probs := probabilities (vdata s) None in
  '(sample, sample_probs, drawn) ← sample_singular_values drawn probs;
  u ← select_columns u sample;
  v ← select_columns v sample;
  s ← rescale s sample sample_probs;
  Ok (us ++ [u], ss ++ [s], vs ++ [v], drawn).

(** [torch.einsum('md, d, nd -> mn', u, s, v)] *)
Definition einsum_usv (u s v : vtensor Q) : result (vtensor Q) :=
  match vshape u, vshape s, vshape v with
  | [m; d], [d'], [n; d''] =>
      if decide (d = d' ∧ d = d'') then
        let urows := to_rows m d (vdata u) in
        let vrows := to_rows n d (vdata v) in
        Ok (VTensor [m; n]
              (concat (map (fun urow =>
                              map (fun vrow =>
                                     total 0%Q Qplus
                                       (zip_with Qmult (zip_with Qmult urow (vdata s)) vrow))
                                  vrows) urows)))
      else Raise RuntimeError
  | _, _, _ => Raise RuntimeError
  end.

(** [out.add_(1 / n_workers, tensor.view( *out.shape))] *)
Definition add_scaled (tensor out : vtensor Q) : result (vtensor Q) :=
  if decide (vnelement tensor = vnelement out)
  then Ok (VTensor (vshape out)
             (zip_with (fun o x => (o + (1 / inject_Z (Z.of_nat (n_workers net))) * x)%Q)
                       (vdata out) (vdata tensor)))
  else Raise RuntimeError.

(** The decoding of one worker's buffer: unpack into [us + ss + vs], then
    one product per tensor. *)
Definition decode (bfr : TensorBuffer.t Q) (count : nat)
    (usv : list (vtensor Q)) (encoded_buffer : list Q)
  : result (list (vtensor Q) * list (vtensor Q)) :=
  usv ← TensorBuffer.unpack (TensorBuffer.set_buffer bfr encoded_buffer) usv;
  let us := take count usv in
  let ss := take count (drop count usv) in
  let vs := drop (2 * count) usv in
  decoded ← mapM (fun '(u, (s, v)) => einsum_usv u s v) (zip us (zip ss vs));
  Ok (usv, decoded).

(** [AtomoReducer.reduce]; the state is the number of draws taken so far. *)
Definition reduce (drawn : nat) (grad_in grad_out memory_out : list (vtensor Q))
  : M (list (vtensor Q) * list (vtensor Q) * Z * nat) :=
  '(us, ss, vs, drawn) ← lift (foldM encode grad_in ([], [], [], drawn));
  bfr ← lift (TensorBuffer.init (us ++ ss ++ vs));
  all_workers_encoded ← all_gather (n_workers net) (gather_float net)
                          (n_workers net) grad_size (TensorBuffer.buffer bfr);
  let bits_communicated := TensorBuffer.bits grad_size bfr in
  '(_, all_workers_decoded_tensors) ← lift (foldM
      (fun '(usv, acc) encoded_buffer =>
         '(usv, decoded) ← decode bfr (length us) usv encoded_buffer;
         Ok (usv, acc ++ [decoded]))
      all_workers_encoded (us ++ ss ++ vs, []));
  let outs := map (vfill 0%Q) grad_out in
  outs ← lift (foldM (fun outs worker_tensors =>
                        zip_update add_scaled worker_tensors outs)
                     all_workers_decoded_tensors outs);
  let mems := map (vfill dont_use) memory_out in
  mret (outs, mems, bits_communicated, drawn).

End Atomo.
End Atomo.


(** ** Sign and norm reducer *)

Section SignAndNorm.
Context (net : network Q).

(** [tensor.norm(p=1)] *)
Definition norm1 (tensor : vtensor Q) : Q :=
  total 0%Q Qplus (map Qabs (vdata tensor)).

(** [out.data.add_(alpha, other)], that is [out += alpha * other], for
    tensors of one shape. *)
Definition add_alpha (alpha : Q) (out other : vtensor Q) : result (vtensor Q) :=
  if decide (vshape out = vshape other)
  then Ok (VTensor (vshape out)
             (zip_with (fun o x => (o + alpha * x)%Q) (vdata out) (vdata other)))
  else Raise RuntimeError.

(** [for sign, out, norm in zip(flatgrad, grad_out, their_norms):
       out.data.add_(norm / sign.nelement() / self.n_workers, sign)];
    [zip] asks the buffer for its next entry first. *)
Fixpoint add_signs (flatgrad : TensorBuffer.t Q) (i : nat)
    (outs : list (vtensor Q)) (their_norms : list Q) {struct outs}
  : result (list (vtensor Q)) :=
  match TensorBuffer.getitem flatgrad i with
  | Raise IndexError => Ok outs
  | Raise e => Raise e
  | Ok sign =>
      match outs, their_norms with
      | out :: outs', norm :: norms' =>
          out ← add_alpha (norm / inject_Z (Z.of_nat (vnelement sign))
                           / inject_Z (Z.of_nat (n_workers net)))
                          out sign;
          rest ← add_signs flatgrad (S i) outs' norms';
          Ok (out :: rest)
      | _, _ => Ok outs
      end
  end.

(** [SignAndNormReducer.reduce] *)
Definition SignAndNormReducer_reduce
    (grad_in grad_out memory_out : list (vtensor Q))
  : M (list (vtensor Q) * list (vtensor Q) * Z) :=
  flatgrad ← lift (TensorBuffer.init grad_in);
  let my_norms := map norm1 grad_in in
  let flat := TensorBuffer.buffer flatgrad in
  '(my_bits, sign_size) ← lift (SignCompressor.compress (VTensor [length flat] flat));
  '(bits, norms) ←
      (if decide (1 < n_workers net)%nat then
         bits ← all_gather (n_workers net) (gather_int net) (n_workers net)
                           int32_size (vdata my_bits);
         norms ← all_gather (n_workers net) (gather_float net) (n_workers net)
                            float32_size my_norms;
         mret (bits, norms)
       else mret ([vdata my_bits], [my_norms]));
  let bits_communicated :=
    (n_bits (length (vdata my_bits)) int32_size
     + n_bits (length my_norms) float32_size)%Z in
  flatsigns ← lift (mapM (fun their_bits =>
                 SignCompressor.uncompress (VTensor (vshape my_bits) their_bits)
                                           sign_size) bits);
  let outs := map (vfill 0%Q) grad_out in
  outs ← lift (foldM (fun outs '(their_flatsigns, their_norms) =>
                        add_signs
                          (TensorBuffer.set_buffer flatgrad (vdata their_flatsigns))
                          0 outs their_norms)
                     (zip flatsigns norms) outs);
  mems ← lift (zip_update (fun '(tensor, norm) mem =>
                 mem ← vsetitem mem tensor;
                 add_alpha (- norm / inject_Z (Z.of_nat (vnelement tensor)))
                           mem (SignCompressor.sign tensor))
               (zip grad_in my_norms) memory_out);
  mret (outs, mems, bits_communicated).

End SignAndNorm.

(** ** Random block reducer *)

(** [flat[start:stop] = c] for a number [c]: the slice is cut to the
    elements that are there. *)
Definition fill_slice {A} (start stop : nat) (c : A) (flat : list A) : list A :=
  take start flat
  ++ map (fun _ => c) (take (stop - start) (drop start flat))
  ++ drop (start + (stop - start)) flat.

Module RandomSparseBlock.
Section RandomSparseBlock.
(** [choice k n] stands for the [k]-th call [self.rng.choice(n)] on the
    reducer's seeded generator, which returns a number below [n]; [rank] is
    the reducer's parameter. *)
Context (choice : nat → nat → nat).
Context (net : network Q) (rank : Z).

(** [RandomSparseBlockReducer.block_size]: [tensor.view(tensor.shape[0], -1)]
    needs a first dimension, and one that is not zero. *)
Definition block_size (tensor : vtensor Q) : result Z :=
  match vshape tensor with
  | [] => Raise IndexError
  | n :: rest =>
      if decide (n = 0%nat) then Raise RuntimeError
      else
        let size := (rank * (Z.of_nat n + Z.of_nat (numel rest)))%Z in
        Ok (Z.min size (Z.of_nat (vnelement tensor)))
  end.

(** [end_idx = min(start_idx + block_size, tensor.nelement())] and
    [rest = block_size - (end_idx - start_idx)], the part of the block that
    goes round to the front; [start_idx] is never past [nelement]. *)
Definition end_idx (start_idx block_size nelement : nat) : nat :=
  (start_idx + block_size) `min` nelement.
Definition rest (start_idx block_size nelement : nat) : nat :=
  (block_size - (end_idx start_idx block_size nelement - start_idx))%nat.

(** The body of the loop [reduce.block]; the state carries the three lists
    and the number of draws taken from the generator.  [torch.empty] refuses
    a negative size; its buffer starts as zeros here, every slot is assigned
    before it is read. *)
Definition block_body
    (st : list (vtensor Q) * list nat * list nat * nat) (tensor : vtensor Q)
  : result (list (vtensor Q) * list nat * list nat * nat) :=
  let '(values_list, start_idx_list, block_sizes, drawn) := st in
  size ← block_size tensor;
  let nelement := vnelement tensor in
  let '(start_idx, drawn) :=
    if decide (size = Z.of_nat nelement) then (0%nat, drawn)
    else (choice drawn nelement, S drawn) in
  if decide (size < 0)%Z then Raise RuntimeError
  else
    let block_size := Z.to_nat size in
    let end_idx := end_idx start_idx block_size nelement in
    let bfr := replicate block_size 0%Q in
    bfr ← set_slice 0 (end_idx - start_idx)
             (take (end_idx - start_idx) (drop start_idx (vdata tensor))) bfr;
    let rest := rest start_idx block_size nelement in
    bfr ← (if decide (0 < rest)%nat
           then set_slice (end_idx - start_idx) block_size
                          (take rest (vdata tensor)) bfr
           else Ok bfr);
    Ok (values_list ++ [VTensor [block_size] bfr],
        start_idx_list ++ [start_idx], block_sizes ++ [block_size], drawn).

(** The body of the loop [reduce.memory]: [mem.data = tensor.clone()] gives
    the memory the gradient's shape and elements, whatever it held. *)
Definition memory_body (item : vtensor Q * (nat * nat)) (mem : vtensor Q)
  : vtensor Q :=
  let '(tensor, (start_idx, block_size)) := item in
  let nelement := vnelement tensor in
  let end_idx := end_idx start_idx block_size nelement in
  let rest := rest start_idx block_size nelement in
  let data := fill_slice start_idx end_idx 0%Q (vdata tensor) in
  let data := if decide (0 < rest)%nat then fill_slice 0 rest 0%Q data
              else data in
  VTensor (vshape tensor) data.

(** The loop [reduce.combine]; [zip] asks the buffer for its next entry
    last, once every list before it has one. *)
Fixpoint combine (flat_values : TensorBuffer.t Q) (i : nat)
    (items : list (vtensor Q * (nat * nat))) (outs : list (vtensor Q))
    {struct outs} : result (list (vtensor Q)) :=
  match items, outs with
  | (tensor, (start_idx, block_size)) :: items', out :: outs' =>
      match TensorBuffer.getitem flat_values i with
      | Raise IndexError => Ok outs
      | Raise e => Raise e
      | Ok values =>
          let nelement := vnelement tensor in
          let end_idx := end_idx start_idx block_size nelement in
          let rest := rest start_idx block_size nelement in
          let data := map (fun _ => 0%Q) (vdata out) in
          data ← set_slice start_idx end_idx
                   (take (end_idx - start_idx) (vdata values)) data;
          data ← (if decide (0 < rest)%nat
                  then set_slice 0 rest
                                 (drop (end_idx - start_idx) (vdata values)) data
                  else Ok data);
          outs' ← combine flat_values (S i) items' outs';
          Ok (VTensor (vshape out) data :: outs')
      end
  | _, _ => Ok outs
  end.

(** [RandomSparseBlockReducer.reduce]; the state is the number of draws
    taken so far. *)
Definition reduce (drawn : nat) (grad_in grad_out memory_out : list (vtensor Q))
  : M (list (vtensor Q) * list (vtensor Q) * Z * nat) :=
  '(values_list, start_idx_list, block_sizes, drawn) ←
      lift (foldM block_body grad_in ([], [], [], drawn));
  flat_values ← lift (TensorBuffer.init values_list);
  let items := zip grad_in (zip start_idx_list block_sizes) in
  mems ← lift (zip_update (fun item mem => Ok (memory_body item mem))
                          items memory_out);
  summed ← dist_all_reduce Qplus net float32_size (TensorBuffer.buffer flat_values);
  let flat_values :=
    TensorBuffer.set_buffer flat_values
      (map (div_workers (n_workers net)) summed) in
  let bits_communicated := TensorBuffer.bits float32_size flat_values in
  outs ← lift (combine flat_values 0 items grad_out);
  mret (outs, mems, bits_communicated, drawn).

End RandomSparseBlock.
End RandomSparseBlock.

(** ** Low-rank reducer that splits by dimension *)

Module MultiRankK.
Section MultiRankK.
Local Open Scope R_scope.

(** [randn k n] is the [k]-th seeded draw of [n] numbers, as for
    [RankKReducer]; the constructor stores [self.rank], but [reduce] never
    reads it. *)
Context (randn : nat → nat → list R).
Context (net : network R) (reuse_query : bool) (grad_size : Z).

Definition high_rank : nat := 32%nat.
Definition low_rank : nat := 32%nat.

(** The table [custom_rank] of [reduce]: 45 entries, [low_rank] at
    positions 20, 42 and 43 and [high_rank] everywhere else. *)
Definition custom_rank : list nat :=
  map (fun i => if Nat.eqb i 20 || Nat.eqb i 42 || Nat.eqb i 43
                then low_rank else high_rank)
      (seq 0 45).

(** [tensor.ndimension()] *)
Definition ndimension (tensor : vtensor R) : nat := length (vshape tensor).

(** [[x for x in xs if keep(x)]], with the position each kept item had in
    [xs]. *)
Definition kept_if {A} (keep : A → bool) (xs : list A) : list (nat * A) :=
  RankK.flagged (map keep xs) xs.

(** [tensor.view(tensor.shape[0], -1)]: the sizes [n], [m] and the rows;
    only a first dimension of zero leaves the [-1] undetermined. *)
Definition as_matrix (tensor : vtensor R) : result (nat * nat * list (list R)) :=
  match vshape tensor with
  | [] => Raise IndexError
  | n :: rest =>
      if decide (n = 0%nat) then Raise RuntimeError
      else Ok (n, numel rest, to_rows n (numel rest) (vdata tensor))
  end.

(** The two loops that size and lay out [p_memory] and [q_memory]; every
    tensor comes with its own [tensor_rank]. *)
Fixpoint layout (p_idx q_idx : nat) (high : list (nat * (vtensor R * nat)))
  : result (list RankK.job * nat * nat) :=
  match high with
  | [] => Ok ([], p_idx, q_idx)
  | (i, (tensor, tensor_rank)) :: high' =>
      '(n, m, matrix) ← as_matrix tensor;
      let r := (n `min` (m `min` tensor_rank))%nat in
      '(jobs, p_total, q_total) ← layout (p_idx + n * r) (q_idx + m * r) high';
      Ok (RankK.Job i tensor n m r matrix p_idx q_idx :: jobs, p_total, q_total)
  end.

(** [Multi_RankKReducer.reduce]; the steps after the split are those of
    [RankKReducer.reduce]. *)
Definition reduce (st : RankK.state) (grad_in grad_out memory_out : list (vtensor R))
  : M (list (vtensor R) * list (vtensor R) * Z * RankK.state) :=
  let len := (length grad_in `min` (length grad_out `min` length memory_out))%nat in
  let grad_tensors := take len grad_in in
  let rank1_tensors :=
    kept_if (fun tensor => bool_decide (ndimension tensor ≤ 1)%nat) grad_tensors in
  let high_rank_tensors :=
    kept_if (fun '(tensor, _) => bool_decide (1 < ndimension tensor)%nat)
            (zip grad_tensors custom_rank) in
  let memory_is_uninitialized := bool_decide (RankK.p_memory st = None) in
  '(jobs, p_total_size, q_total_size) ← lift (layout 0 0 high_rank_tensors);
  let p_mem := default (replicate p_total_size 0) (RankK.p_memory st) in
  let q_mem := match RankK.p_memory st with
               | None => Some (replicate q_total_size 0)
               | Some _ => RankK.q_memory st
               end in
  q_mem ← lift (of_option RuntimeError q_mem);
  '(q_mem, drawn) ←
      lift (foldM (RankK.prepare_q randn reuse_query memory_is_uninitialized)
                  jobs (q_mem, RankK.draws st));
  p_mem ← lift (foldM (RankK.compute_p q_mem) jobs p_mem);
  p_mem ← all_reduce Rplus net float32_size p_mem;
  let bits_p := n_bits (length p_mem) float32_size in
  rank1_tensor_list ← lift (TensorBuffer.init (map snd rank1_tensors));
  rank1_summed ← dist_all_reduce Rplus net grad_size
                    (TensorBuffer.buffer rank1_tensor_list);
  let bits_rank1 := TensorBuffer.bits grad_size rank1_tensor_list in
  p_mem ← lift (foldM RankK.normalize_p jobs p_mem);
  q_mem ← lift (foldM (RankK.compute_q p_mem) jobs q_mem);
  q_mem ← all_reduce Rplus net float32_size q_mem;
  let bits_q := n_bits (length q_mem) float32_size in
  let q_mem := map (fun x => x / INR (n_workers net)) q_mem in
  '(outs, mems) ← lift (foldM (RankK.outerprod p_mem q_mem) jobs
                              (grad_out, memory_out));
  let rank1_tensor_list :=
    TensorBuffer.set_buffer rank1_tensor_list
      (map (fun x => x / INR (n_workers net)) rank1_summed) in
  rank1_outs ← lift (TensorBuffer.unpack rank1_tensor_list
                       (omap (fun '(i, _) => outs !! i) rank1_tensors));
  let outs := fold_left (fun acc '((i, _), out) => <[i := out]> acc)
                        (zip rank1_tensors rank1_outs) outs in
  mret (outs, mems, (bits_p + bits_rank1 + bits_q)%Z,
        RankK.State (Some p_mem) (Some q_mem) drawn).

End MultiRankK.
End MultiRankK.

(** ** Normalising a tensor *)

(** [l2norm(x)], over all the elements of [x] *)
Definition l2norm (x : vtensor R) : R := Orth.l2norm (vdata x).

(** [normalize_(tensor)]: [tensor /= l2norm(tensor)], in place *)
Definition normalize_ (tensor : vtensor R) : vtensor R :=
  VTensor (vshape tensor)
          (map (fun v => (v / l2norm tensor)%R) (vdata tensor)).

(** ** Global top-k reducer *)

(** The element size of the [torch.int64] positions [torch.topk] returns. *)
Definition int64_size : Z := dtype_size int64.

Module GlobalTopK.
Section GlobalTopK.
(** [topk], [net] and [compression] as for [TopKReducer]. *)
Context (topk : list Q → nat → result (list nat)).
Context (net : network Q) (compression : Q).

(** [positions[(positions >= start) & (positions < end)] - start] *)
Definition local_positions (start stop : nat) (positions : list Z) : list Z :=
  map (fun p => (p - Z.of_nat start)%Z)
      (filter (fun p => (Z.of_nat start ≤ p < Z.of_nat stop)%Z) positions).

(** [val[(pos >= start) & (pos < end)]]; the mask must be as long as [val]. *)
Definition local_vals (start stop : nat) (pos : list Z) (val : list Q)
  : result (list Q) :=
  if decide (length pos = length val)
  then Ok (map snd (filter (fun pv : Z * Q =>
                              (Z.of_nat start ≤ pv.1 < Z.of_nat stop)%Z)
                           (zip pos val)))
  else Raise IndexError.

(** The body of the packing loop: [flatgrad[start:end] = tensor.view(-1)] *)
Definition pack_body (flatgrad : list Q) (item : vtensor Q * (nat * nat))
  : result (list Q) :=
  let '(tensor, (start, stop)) := item in
  set_slice start stop (vdata tensor) flatgrad.

(** The body of the loop [reduce.set_memory]. *)
Definition memory_body (positions : list Z)
    (item : vtensor Q * (nat * nat)) (mem : vtensor Q) : result (vtensor Q) :=
  let '(tensor, (start, stop)) := item in
  let local_positions := local_positions start stop positions in
  mem ← vsetitem mem tensor;
  data ← index_fill 0%Q local_positions (vdata mem);
  Ok (VTensor (vshape mem) data).

(** The body of the loop [reduce.combine]. *)
Definition combine_body (worker_positions : list (list Z))
    (worker_values : list (list Q))
    (item : vtensor Q * (nat * nat)) (out : vtensor Q) : result (vtensor Q) :=
  let '(tensor, (start, stop)) := item in
  data ← foldM
    (fun data '(pos, val) =>
       let local_positions := local_positions start stop pos in
       local_vals ← local_vals start stop pos val;
       index_add local_positions
                 (map (div_workers (n_workers net)) local_vals) data)
    (zip worker_positions worker_values)
    (map (fun _ => 0%Q) (vdata out));
  Ok (VTensor (vshape out) data).

(** [GlobalTopKReducer.reduce]; the [torch.empty] buffer starts as zeros
    here, every slot is assigned before it is read. *)
Definition reduce (grad_in grad_out memory_out : list (vtensor Q))
  : M (list (vtensor Q) * list (vtensor Q) * Z) :=
  let sizes := map vnelement grad_in in
  let flatgrad_size := sum_list sizes in
  let flatgrad_start_idx := start_idx sizes in
  let flatgrad_end_idx := end_idx sizes in
  let bounds := zip flatgrad_start_idx flatgrad_end_idx in
  flatgrad ← lift (foldM pack_body (zip grad_in bounds)
                         (replicate flatgrad_size 0%Q));
  let top_size := top_size compression (VTensor [length flatgrad] flatgrad) in
  positions ← lift (topk (map Qabs flatgrad) top_size);
  values ← lift (mapM (fun p => of_option IndexError (flatgrad !! p)) positions);
  let positions := map Z.of_nat positions in
  mems ← lift (zip_update (memory_body positions) (zip grad_in bounds) memory_out);
  '(worker_values, worker_positions) ←
      (if decide (1 < n_workers net)%nat then
         wv ← all_gather (n_workers net) (gather_float net) (n_workers net)
                         float32_size values;
         wp ← all_gather (n_workers net) (gather_int net) (n_workers net)
                         int64_size positions;
         mret (wv, wp)
       else mret ([values], [positions]));
  let bits_communicated :=
    (n_bits (length values) float32_size
     + n_bits (length positions) int64_size)%Z in
  outs ← lift (zip_update (combine_body worker_positions worker_values)
                          (zip grad_in bounds) grad_out);
  mret (outs, mems, bits_communicated).

End GlobalTopK.
End GlobalTopK.

(** ** Vocabulary of the top-k statements *)

(** The [(start, end)] pairs of consecutive segments of the given sizes,
    from offset [s]. *)
Fixpoint bounds_from (s : nat) (sizes : list nat) : list (nat * nat) :=
  match sizes with
  | [] => []
  | n :: sizes' => (s, (s + n)%nat) :: bounds_from (s + n) sizes'
  end.

(** What [torch.topk(xs, k, sorted=False)] promises of the positions [ps] it
    returns: [k] distinct positions of [xs], none of them smaller than a
    position left out. *)
Definition topk_selects (topk : list Q → nat → result (list nat))
    (xs : list Q) (k : nat) (ps : list nat) : Prop :=
  topk xs k = Ok ps
  ∧ length ps = k
  ∧ NoDup ps
  ∧ Forall (fun p => p < length xs)%nat ps
  ∧ ∀ p q x y, p ∈ ps → q ∉ ps → xs !! p = Some x → xs !! q = Some y →
               (y <= x)%Q.

(** The values of [t] at the positions [ps]. *)
Definition picked (t : vtensor Q) (ps : list nat) : list Q :=
  map (fun p => nth p (vdata t) 0%Q) ps.

(** [flat] after [flat[ps] += values], for in-range positions. *)
Definition added_at (ps : list nat) (values flat : list Q) : list Q :=
  fold_left (fun acc '(i, v) => <[i := v]> acc)
            (zip ps (zip_with Qplus (map (fun i => nth i flat 0%Q) ps) values))
            flat.

(** [data] with the positions [ps] set to zero. *)
Definition zero_at (ps : list nat) (data : list Q) : list Q :=
  fold_left (fun acc i => <[i := 0%Q]> acc) ps data.

(** The number of 32-bit words that hold [n] signs. *)
Definition words (n : nat) : nat := ((n + SignCompressor.add_elm n) / 32)%nat.


(** The factor buffers [p] and [q] hold, at the offsets of the job, matrices
    [P] and [Q] whose product [P Q^T] is the output at the job's position,
    while the memory there is the tensor less that product. *)
Definition low_rank_at (p q : list R) (outs mems : list (vtensor R))
    (j : RankK.job) : Prop :=
  ∃ P Q,
    RankK.view_slice p (RankK.j_p_idx j) (RankK.j_n j) (RankK.j_rank j) = Ok P
    ∧ RankK.view_slice q (RankK.j_q_idx j) (RankK.j_m j) (RankK.j_rank j) = Ok Q
    ∧ let product :=
        concat (matmul 0%R Rplus Rmult (RankK.j_m j) P
                       (transpose 0%R (RankK.j_rank j) Q)) in
      outs !! RankK.j_index j
      = Some (VTensor [RankK.j_n j; RankK.j_m j] product)
      ∧ mems !! RankK.j_index j
        = Some (VTensor [RankK.j_n j; RankK.j_m j]
                  (zip_with Rminus (vdata (RankK.j_tensor j)) product)).

(** The factor buffers kept from an earlier call have the sizes this call
    lays out. *)
Definition memory_fits (st : RankK.state) (p_total q_total : nat) : Prop :=
  match RankK.p_memory st with
  | None => True
  | Some p =>
      length p = p_total
      ∧ ∃ q, RankK.q_memory st = Some q ∧ length q = q_total
  end.


(** A job whose factors lie inside buffers of [p_total] and [q_total]
    numbers and whose matrix has the rows it says. *)
Definition job_fits (p_total q_total : nat) (j : RankK.job) : Prop :=
  (RankK.j_p_idx j + RankK.j_n j * RankK.j_rank j ≤ p_total)%nat
  ∧ (RankK.j_q_idx j + RankK.j_m j * RankK.j_rank j ≤ q_total)%nat
  ∧ length (RankK.j_matrix j) = RankK.j_n j.

(** The block of [size] elements that starts at [start] in [data] and goes
    round to the front at the end. *)
Definition block_of {A} (start size : nat) (data : list A) : list A :=
  take size (drop start (data ++ data)).

(** Position [j] of a tensor of [n] elements lies in the block of [size]
    elements that starts at [start]. *)
Definition in_block (start size n j : nat) : Prop :=
  (start ≤ j < start + size)%nat ∨ (j + n < start + size)%nat.

(** The size of the block taken from a tensor, as a natural number. *)
Definition block_len (rank : Z) (tensor : vtensor Q) : nat :=
  match RandomSparseBlock.block_size rank tensor with
  | Ok size => Z.to_nat size
  | Raise _ => 0%nat
  end.

(** The positions of [ps] that fall into the segment from [start] to
    [stop], counted from [start]. *)
Definition local_of (start stop : nat) (ps : list nat) : list nat :=
  map (fun p => (p - start)%nat)
      (filter (fun p => (start ≤ p < stop)%nat) ps).

(** What [torch.distributed.all_gather] hands back: one buffer for every
    worker, each as long as the buffer that was sent. *)
Definition gathers_every_worker (net : network Q) : Prop :=
  ∀ k mine,
    length (gather_int net k mine) = n_workers net
    ∧ Forall (fun theirs => length theirs = length mine) (gather_int net k mine).

(** A vote: the sign of a sum of signs. *)
Definition is_vote (v : Q) : Prop := v = 1%Q ∨ v = 0%Q ∨ v = (-1)%Q.

(** A decoded sign: plus or minus one, as a float. *)
Definition pm_one (q : Q) : Prop := ∃ z, q = inject_Z z ∧ (z = 1 ∨ z = -1)%Z.

(** A sum of [k] signs is an integer as odd as [k]. *)
Definition tally (k : nat) (q : Q) : Prop :=
  ∃ z, q = inject_Z z ∧ Z.odd z = Nat.odd k.

(** ** Sample inputs *)

(** A store with a vector and a 1x2 matrix. *)
Definition c7_store : gmap positive (list Z) :=
  <[1%positive := [10; 20; 30]%Z]> (<[2%positive := [40; 50]%Z]> ∅).
Definition c7_tensors : list Heap.tensor :=
  [Heap.Tensor 1 0 [3%nat]; Heap.Tensor 2 0 [1%nat; 2%nat]].

(** A 3x11 tensor (33 elements, not a multiple of 32) of both signs, and
    the one-element tensor [[0.]]. *)
Definition c2_odd : vtensor Q :=
  VTensor [3%nat; 11%nat] (map (fun i => inject_Z (Z.of_nat i - 5)) (seq 0 33)).
Definition c2_zero : vtensor Q := VTensor [1%nat] [0%Q].

(** A world of one worker: every collective hands back the worker's own buffer. *)
Definition single : network Q := Network Q 1 (fun _ mine => [mine]) (fun _ mine => [mine]).

(** A two-tensor gradient set with outputs and memories of the same shapes. *)
Definition sample_grad : list (vtensor Q) :=
  [VTensor [2%nat] [2%Q; (-3)%Q]; VTensor [1%nat; 2%nat] [0%Q; 5%Q]].
Definition sample_out : list (vtensor Q) :=
  [VTensor [2%nat] [7%Q; 7%Q]; VTensor [1%nat; 2%nat] [7%Q; 7%Q]].

(** The singular value decomposition of the 2x2 diagonal matrices with
    entries [a >= d >= 0], enough to run the Atomo reducer on one. *)
Definition svd_diag2 (matrix : vtensor Q)
  : result (vtensor Q * vtensor Q * vtensor Q) :=
  match vshape matrix, vdata matrix with
  | [2%nat; 2%nat], [a; _; _; d] =>
      Ok (VTensor [2%nat; 2%nat] [1%Q; 0%Q; 0%Q; 1%Q],
          VTensor [2%nat] [a; d],
          VTensor [2%nat; 2%nat] [1%Q; 0%Q; 0%Q; 1%Q])
  | _, _ => Raise RuntimeError
  end.
Definition diag_grad : list (vtensor Q) := [VTensor [2%nat; 2%nat] [3%Q; 0%Q; 0%Q; 1%Q]].
Definition diag_out : list (vtensor Q) := [VTensor [2%nat; 2%nat] [7%Q; 7%Q; 7%Q; 7%Q]].
(** Noise [1/2] everywhere: with rank 1 it keeps the first singular value. *)
Definition half_noise (k i : nat) : Q := (1 # 2)%Q.

(** A selection by repeated maximum, to run the top-k reducer on samples:
    the position of the first largest candidate, [k] times over. *)
Definition argmax (cands : list (nat * Q)) : option (nat * Q) :=
  fold_left (fun best c =>
               match best with
               | None => Some c
               | Some b => if Qltb (snd b) (snd c) then Some c else Some b
               end) cands None.

Fixpoint topk_ref_aux (k : nat) (cands : list (nat * Q)) : list nat :=
  match k with
  | O => []
  | S k' =>
      match argmax cands with
      | None => []
      | Some (i, _) =>
          i :: topk_ref_aux k' (filter (fun c => fst c ≠ i) cands)
      end
  end.

Definition topk_ref (xs : list Q) (k : nat) : result (list nat) :=
  if decide (k ≤ length xs)%nat
  then Ok (topk_ref_aux k (zip (seq 0 (length xs)) xs))
  else Raise RuntimeError.


(** A 2 x 2 matrix of full column rank whose columns are not orthogonal. *)
Definition skew_matrix : list (list R) := [[1; 1]; [0; 1]]%R.

(** A 1 x 1 matrix whose only entry is as small as the default [eps]. *)
Definition tiny_matrix : list (list R) := [[Orth.default_eps]].


(** Twenty vectors followed by a 2 x 2 matrix, which so sits at position 20
    of the list; buffers of zeros of the same shapes. *)
Definition vectors_then_matrix : list (vtensor R) :=
  replicate 20 (VTensor [1%nat] [1%R])
  ++ [VTensor [2%nat; 2%nat] [1; 2; 3; 4]%R].

Definition vectors_then_matrix_zeros : list (vtensor R) :=
  map (vfill 0%R) vectors_then_matrix.

(** A lone 1 x 2 matrix, at position 0 of the list. *)
Definition matrix_first : list (vtensor R) :=
  [VTensor [1%nat; 2%nat] [1; 2]%R].

Definition matrix_first_zeros : list (vtensor R) :=
  map (vfill 0%R) matrix_first.

(** A world of one worker, and a world of two in which the other worker
    holds this worker's numbers plus two. *)
Definition lone_worker : network R :=
  Network R 1 (fun _ mine => [mine]) (fun _ mine => [mine]).

Definition two_workers : network R :=
  Network R 2 (fun _ mine => [mine; map (fun x => (x + 2)%R) mine])
          (fun _ mine => [mine; mine]).

(** A generator that only draws ones, and the reducer's state before its
    first call. *)
Definition ones (k n : nat) : list R := replicate n 1%R.

Definition fresh_state : RankK.state := RankK.State None None 0.

(** A 2 x 3 gradient for the random block reducer, and a generator that
    always answers with the last position. *)
Definition block_grad : list (vtensor Q) :=
  [VTensor [2%nat; 3%nat] [1%Q; 2%Q; 3%Q; 4%Q; 5%Q; 6%Q]].
Definition block_out : list (vtensor Q) :=
  [VTensor [2%nat; 3%nat] [7%Q; 7%Q; 7%Q; 7%Q; 7%Q; 7%Q]].
Definition last_choice (k n : nat) : nat := (n - 1)%nat.

(** Three workers, two of which hold the opposite of every sign of this one. *)
Definition three_voters : network Q :=
  Network Q 3 (fun _ mine => [mine; mine; mine])
            (fun _ mine => [mine; map Z.lnot mine; map Z.lnot mine]).

(** * Theorems *)

(** ** Offsets of the flat buffer *)

Lemma indices_foldl acc ns :
  acc ≠ [] →
  foldl (fun idx n => idx ++ [(List.last idx 0 + n)%nat]) acc ns
  = acc ++ running (List.last acc 0%nat) ns.
Proof.
  revert acc. induction ns as [|n ns IH]; intros acc Hacc; simpl.
  - by rewrite app_nil_r.
  - rewrite IH; [|by destruct acc].
    rewrite last_last, <- app_assoc. done.
Qed.

Lemma indices_running ns : indices ns = 0%nat :: running 0 ns.
Proof. unfold indices. by rewrite indices_foldl. Qed.

Lemma running_length s ns : length (running s ns) = length ns.
Proof. revert s. induction ns; intros; simpl; auto. Qed.

Lemma running_lookup s ns i :
  (i < length ns)%nat →
  running s ns !! i = Some (s + sum_list (take (S i) ns))%nat.
Proof.
  revert s i. induction ns as [|n ns IH]; intros s i Hi; simpl in *; [lia|].
  destruct i as [|i]; simpl.
  - f_equal. destruct ns; simpl; lia.
  - rewrite IH by lia. f_equal. simpl. lia.
Qed.

Lemma end_idx_lookup ns i :
  (i < length ns)%nat → end_idx ns !! i = Some (sum_list (take (S i) ns)).
Proof.
  intros Hi. unfold end_idx. rewrite indices_running. simpl.
  by rewrite running_lookup.
Qed.

Lemma removelast_lookup {A} (l : list A) i :
  (S i < length l)%nat → removelast l !! i = l !! i.
Proof.
  revert i. induction l as [|a l IH]; intros i Hi; simpl in *; [lia|].
  destruct l as [|b l]; simpl in *; [lia|].
  destruct i as [|i]; [done|]. simpl. apply IH. simpl. lia.
Qed.

Lemma start_idx_lookup ns i :
  (i < length ns)%nat → start_idx ns !! i = Some (sum_list (take i ns)).
Proof.
  intros Hi. unfold start_idx. rewrite indices_running.
  rewrite removelast_lookup by (simpl; rewrite running_length; lia).
  destruct i as [|i]; [done|]. simpl.
  rewrite running_lookup by lia. done.
Qed.

Lemma start_idx_length ns : length (start_idx ns) = length ns.
Proof.
  unfold start_idx. rewrite indices_running.
  rewrite removelast_firstn_len, length_take. simpl length.
  rewrite running_length. simpl. lia.
Qed.

Lemma end_idx_length ns : length (end_idx ns) = length ns.
Proof. unfold end_idx. rewrite indices_running. simpl. apply running_length. Qed.

(** ** Reading and writing tensors in the store *)

Section HeapFacts.
Import Heap.
Context {A : Type}.
Implicit Types (σ : gmap positive (list A)) (t d : tensor) (vs v : list A).

Lemma read_inv σ t v :
  read σ t = Ok v →
  ∃ sto, σ !! storage t = Some sto
         ∧ (offset t + nelement t ≤ length sto)%nat
         ∧ v = take (nelement t) (drop (offset t) sto).
Proof.
  unfold read. destruct (σ !! storage t) as [sto|]; [|done].
  case_decide; [|done]. intros [= <-]. eauto.
Qed.

Lemma read_intro σ t sto :
  σ !! storage t = Some sto →
  (offset t + nelement t ≤ length sto)%nat →
  read σ t = Ok (take (nelement t) (drop (offset t) sto)).
Proof. intros H1 H2. unfold read. rewrite H1. by rewrite decide_True. Qed.

Lemma read_length σ t v : read σ t = Ok v → length v = nelement t.
Proof.
  intros (sto & _ & Hle & ->)%read_inv.
  rewrite length_take, length_drop. lia.
Qed.

Lemma assign_ok σ t vs :
  is_ok (read σ t) → length vs = nelement t → is_ok (assign σ t vs).
Proof.
  intros [v (sto & Hs & Hle & _)%read_inv] Hlen.
  unfold assign. rewrite Hs. rewrite decide_True by done. by eexists.
Qed.

Lemma assign_inv σ t vs σ' :
  assign σ t vs = Ok σ' →
  ∃ sto, σ !! storage t = Some sto
         ∧ (offset t + nelement t ≤ length sto)%nat
         ∧ length vs = nelement t
         ∧ σ' = <[storage t := take (offset t) sto ++ vs
                                 ++ drop (offset t + nelement t) sto]> σ.
Proof.
  unfold assign. destruct (σ !! storage t) as [sto|]; [|done].
  case_decide as H; [|done]. destruct H. intros [= <-]. eauto 10.
Qed.

Lemma read_assign_eq σ t vs σ' : assign σ t vs = Ok σ' → read σ' t = Ok vs.
Proof.
  intros (sto & Hs & Hle & Hlen & ->)%assign_inv.
  unfold read. rewrite lookup_insert_eq.
  rewrite decide_True.
  2:{ rewrite !length_app, length_take, length_drop. lia. }
  f_equal. rewrite drop_app_length'.
  2:{ rewrite length_take. lia. }
  rewrite <- Hlen. apply take_app_length.
Qed.

Lemma read_assign_ne σ t vs σ' t' :
  assign σ t vs = Ok σ' → storage t' ≠ storage t → read σ' t' = read σ t'.
Proof.
  intros (sto & Hs & Hle & Hlen & ->)%assign_inv Hne.
  unfold read. by rewrite lookup_insert_ne.
Qed.

Lemma read_assign_valid σ t vs σ' t' :
  assign σ t vs = Ok σ' → is_ok (read σ t') → is_ok (read σ' t').
Proof.
  intros Ha [v Hv]. destruct (decide (storage t' = storage t)) as [He|Hne].
  - apply assign_inv in Ha as (sto & Hs & Hle & Hlen & ->).
    apply read_inv in Hv as (sto' & Hs' & Hle' & _).
    rewrite He, Hs in Hs'. injection Hs' as <-.
    eexists. apply read_intro; [rewrite He; apply lookup_insert_eq|].
    rewrite !length_app, length_take, length_drop. lia.
  - exists v. by rewrite (read_assign_ne _ _ _ _ _ Ha Hne).
Qed.

Lemma read_all_ok σ ts :
  Forall (fun t => is_ok (read σ t)) ts →
  ∃ vss, read_all σ ts = Ok vss ∧ Forall2 (fun t v => read σ t = Ok v) ts vss.
Proof.
  induction 1 as [|t ts [v Hv] _ (vss & Hvss & IH)]; simpl.
  - exists []. auto.
  - exists (v :: vss). rewrite Hv. simpl. rewrite Hvss. simpl. auto.
Qed.

Lemma read_all_lengths σ ts vss :
  Forall2 (fun t v => read σ t = Ok v) ts vss →
  map length vss = map nelement ts.
Proof.
  induction 1 as [|t v ts vss Hv _ IH]; simpl; [done|].
  by rewrite IH, (read_length _ _ _ Hv).
Qed.

(** The [i]-th segment of a concatenation. *)
Lemma concat_segment (vss : list (list A)) i v :
  vss !! i = Some v →
  take (length v) (drop (sum_list (map length (take i vss))) (concat vss)) = v.
Proof.
  revert i. induction vss as [|w vss IH]; intros i Hi; [done|].
  destruct i as [|i]; simpl in *.
  - injection Hi as ->. apply take_app_length.
  - rewrite drop_app_add'; [|done]. by apply IH.
Qed.

Lemma concat_segment_le (vss : list (list A)) i v :
  vss !! i = Some v →
  (sum_list (map length (take i vss)) + length v ≤ length (concat vss))%nat.
Proof.
  revert i. induction vss as [|w vss IH]; intros i Hi; [done|].
  destruct i as [|i]; simpl in *.
  - injection Hi as ->. rewrite length_app. lia.
  - rewrite length_app. specialize (IH _ Hi). lia.
Qed.

Lemma alloc_fresh σ vs σ' b :
  alloc σ vs = (σ', b) →
  σ !! storage b = None ∧ σ' = <[storage b := vs]> σ
  ∧ offset b = 0%nat ∧ nelement b = length vs.
Proof.
  unfold alloc. intros [= <- <-]. simpl. split_and!; try done.
  - apply not_elem_of_dom, is_fresh.
  - unfold nelement. simpl. lia.
Qed.

Lemma read_alloc_old σ vs σ' b t :
  alloc σ vs = (σ', b) → is_ok (read σ t) → read σ' t = read σ t.
Proof.
  intros (Hf & -> & _)%alloc_fresh [v (sto & Hs & _)%read_inv].
  unfold read. rewrite lookup_insert_ne; [done|congruence].
Qed.

Lemma read_alloc_new σ vs σ' b :
  alloc σ vs = (σ', b) → read σ' b = Ok vs.
Proof.
  intros (Hf & -> & Ho & Hn)%alloc_fresh.
  unfold read. rewrite lookup_insert_eq, Ho, Hn. rewrite decide_True by (simpl; lia).
  simpl. by rewrite firstn_all.
Qed.

End HeapFacts.

(** ** The flat buffer packer *)

Section TensorBufferFacts.
Import Heap.
Context {A : Type}.
Implicit Types (σ : gmap positive (list A)) (t d : tensor) (vs v : list A).

Lemma init_spec σ ts :
  ts ≠ [] →
  Forall (fun t => is_ok (read σ t)) ts →
  ∃ σ' tb vss,
    init σ ts = Ok (σ', tb)
    ∧ Forall2 (fun t v => read σ t = Ok v) ts vss
    ∧ σ !! storage (buffer tb) = None
    ∧ σ' = <[storage (buffer tb) := concat vss]> σ
    ∧ offset (buffer tb) = 0%nat
    ∧ nelement (buffer tb) = length (concat vss)
    ∧ _tensors tb = ts
    ∧ _start_idx tb = start_idx (map nelement ts)
    ∧ _end_idx tb = end_idx (map nelement ts).
Proof.
  intros Hne Hval.
  destruct (read_all_ok σ ts Hval) as (vss & Hra & Hf2).
  destruct (alloc σ (concat vss)) as [σ' b] eqn:Hal.
  pose proof (alloc_fresh _ _ _ _ Hal) as (Hf & -> & Ho & Hn).
  exists (<[storage b := concat vss]> σ),
    {| _start_idx := start_idx (map nelement ts);
       _end_idx := end_idx (map nelement ts);
       _tensors := ts; buffer := b |}, vss.
  split.
  { unfold init, cat. rewrite Hra. cbn -[alloc start_idx end_idx].
    rewrite Hal. by destruct ts. }
  simpl. auto 10.
Qed.

Lemma sum_take_lengths σ ts vss i :
  Forall2 (fun t v => read σ t = Ok v) ts vss →
  sum_list (take i (map nelement ts)) = sum_list (map length (take i vss)).
Proof.
  intros H. rewrite <- (read_all_lengths _ _ _ H).
  by rewrite <- firstn_map.
Qed.

Lemma sum_list_take_le (ns : list nat) i :
  (sum_list (take i ns) ≤ sum_list ns)%nat.
Proof.
  revert i. induction ns as [|n ns IH]; intros [|i]; simpl; try lia.
  specialize (IH i). lia.
Qed.

Lemma sum_list_take_S (ns : list nat) i n :
  ns !! i = Some n →
  sum_list (take (S i) ns) = (sum_list (take i ns) + n)%nat.
Proof.
  revert i. induction ns as [|m ns IH]; intros [|i] Hi; simpl in *; try done.
  - injection Hi as ->. destruct ns; simpl; lia.
  - rewrite (IH _ Hi). lia.
Qed.

Lemma getitem_packed (tb : TensorBuffer) ts i t :
  _tensors tb = ts →
  _start_idx tb = start_idx (map nelement ts) →
  _end_idx tb = end_idx (map nelement ts) →
  nelement (buffer tb) = sum_list (map nelement ts) →
  ts !! i = Some t →
  getitem tb i
  = Ok (Tensor (storage (buffer tb))
               (offset (buffer tb) + sum_list (take i (map nelement ts)))
               (shape t)).
Proof.
  intros Ht Hs He Hn Hi. unfold getitem.
  assert (i < length (map nelement ts))%nat as Hlt.
  { rewrite length_map. by eapply lookup_lt_Some. }
  rewrite Hs, He, Ht, start_idx_lookup, end_idx_lookup, Hi by done. simpl.
  assert (map nelement ts !! i = Some (nelement t)) as Hni.
  { by rewrite list_lookup_fmap, Hi. }
  rewrite (sum_list_take_S _ _ _ Hni), Hn.
  pose proof (sum_list_take_le (map nelement ts) (S i)) as Hle.
  rewrite (sum_list_take_S _ _ _ Hni) in Hle.
  rewrite decide_True by lia. done.
Qed.

Lemma getitem_past_end (tb : TensorBuffer) i :
  (length (_start_idx tb) ≤ i)%nat → getitem tb i = Raise IndexError.
Proof.
  intros Hi. unfold getitem. rewrite (lookup_ge_None_2 (_start_idx tb)) by done.
  reflexivity.
Qed.

(** Unpacking into pairwise separate destinations of the sources' shapes
    writes segment [i + k] of the buffer into destination [k]. *)
Lemma unpack_from_spec (tb : TensorBuffer) ts vss b :
  _tensors tb = ts →
  _start_idx tb = start_idx (map nelement ts) →
  _end_idx tb = end_idx (map nelement ts) →
  buffer tb = b → offset b = 0%nat →
  nelement b = length (concat vss) →
  map length vss = map nelement ts →
  ∀ ds i σ1,
    σ1 !! storage b = Some (concat vss) →
    (∀ k d, ds !! k = Some d →
            ∃ t, ts !! (i + k)%nat = Some t ∧ shape d = shape t) →
    NoDup (map storage ds) →
    Forall (fun d => storage d ≠ storage b ∧ is_ok (read σ1 d)) ds →
    ∃ σ2, unpack_from tb i ds σ1 = Ok σ2
          ∧ (∀ k d v, ds !! k = Some d → vss !! (i + k)%nat = Some v →
                      read σ2 d = Ok v)
          ∧ (∀ t', storage t' ∉ map storage ds → read σ2 t' = read σ1 t').
Proof.
  intros Ht Hs He Hb Ho Hn Hlens.
  assert (nelement (buffer tb) = sum_list (map nelement ts)) as Hsum.
  { rewrite Hb, Hn, <- Hlens. clear. induction vss; simpl; [done|].
    rewrite length_app. lia. }
  induction ds as [|d ds IH]; intros i σ1 Hbuf Hshape Hnd Hval.
  { exists σ1. split_and!; [done| |done]. intros k d v Hk. done. }
  destruct (Hshape 0%nat d eq_refl) as (t & Hti & Hsh).
  rewrite Nat.add_0_r in Hti.
  change (NoDup (storage d :: map storage ds)) in Hnd.
  apply NoDup_cons in Hnd as [Hnotin Hnd].
  apply Forall_cons in Hval as [[Hdb [vd Hvd]] Hval].
  assert (∃ v, vss !! i = Some v ∧ length v = nelement t) as (v & Hvi & Hlv).
  { assert (map length vss !! i = Some (nelement t)) as H.
    { rewrite Hlens, list_lookup_fmap, Hti. done. }
    rewrite list_lookup_fmap in H.
    destruct (vss !! i) as [v|]; simpl in H; [|done].
    injection H as H. eauto. }
  simpl. rewrite (getitem_packed tb ts i t) by done.
  rewrite Hb, Ho. simpl.
  assert (read σ1 (Tensor (storage b) (sum_list (take i (map nelement ts))) (shape t))
          = Ok v) as Hentry.
  { unfold read. simpl. rewrite Hbuf.
    replace (nelement _) with (length v) by (rewrite Hlv; done).
    rewrite <- Hlens, firstn_map.
    rewrite decide_True by (by apply concat_segment_le).
    f_equal. by apply concat_segment. }
  unfold setitem. cbn [shape]. rewrite decide_True by done.
  rewrite Hentry. simpl.
  destruct (assign_ok σ1 d v) as [σ' Hσ'].
  { by exists vd. }
  { rewrite Hlv. unfold nelement. by rewrite Hsh. }
  rewrite Hσ'. simpl.
  destruct (IH (S i) σ') as (σ2 & Hun & Hget & Hframe).
  - destruct (assign_inv _ _ _ _ Hσ') as (sto & _ & _ & _ & ->).
    by rewrite lookup_insert_ne.
  - intros k d' Hk. destruct (Hshape (S k) d' Hk) as (t' & Ht' & Hsh').
    exists t'. split; [|done]. by rewrite Nat.add_succ_comm.
  - done.
  - eapply Forall_impl; [exact Hval|]. intros d' [? ?]. split; [done|].
    by eapply read_assign_valid.
  - exists σ2. split; [done|]. split.
    + intros [|k] d' v' Hk Hv'; simpl in Hk.
      * injection Hk as <-. rewrite Nat.add_0_r in Hv'.
        rewrite Hvi in Hv'. injection Hv' as <-.
        rewrite Hframe by done. by eapply read_assign_eq.
      * eapply Hget; [exact Hk|]. by rewrite Nat.add_succ_comm.
    + intros t' Hnin. simpl in Hnin. apply not_elem_of_cons in Hnin as [Hx Hy].
      rewrite Hframe by done. by eapply read_assign_ne.
Qed.

End TensorBufferFacts.



(** ** The sign codec *)

Section BitFacts.
Import bit2byte.
Local Open Scope Z_scope.

Lemma sign_bit_b2z s : sign_bit s = Z.b2z (s <? 0).
Proof. unfold sign_bit. by destruct (s <? 0). Qed.

Lemma pack_step_testbit acc s k :
  0 ≤ k →
  Z.testbit (Z.lor (Z.shiftl acc 1) (sign_bit s)) k
  = if decide (k = 0) then (s <? 0) else Z.testbit acc (k - 1).
Proof.
  intros Hk. rewrite Z.lor_spec, Z.shiftl_spec by done.
  rewrite sign_bit_b2z. case_decide as H.
  - subst k. rewrite Z.testbit_neg_r by lia. simpl.
    by destruct (s <? 0).
  - assert (Z.testbit (Z.b2z (s <? 0)) k = false) as ->.
    { destruct (s <? 0); simpl; [|apply Z.bits_0].
      destruct k; try done. }
    by rewrite orb_false_r.
Qed.

Lemma pack_fold_testbit col acc (k : nat) :
  Z.testbit (fold_left (fun a s => Z.lor (Z.shiftl a 1) (sign_bit s)) col acc)
            (Z.of_nat k)
  = if decide (k < length col)%nat
    then (nth (length col - 1 - k) col 0 <? 0)
    else Z.testbit acc (Z.of_nat (k - length col)).
Proof.
  revert acc k. induction col as [|s col IH]; intros acc k;
    cbn [fold_left length].
  - rewrite decide_False by lia. by rewrite Nat.sub_0_r.
  - rewrite IH. destruct (decide (k < length col)%nat) as [H|H].
    + rewrite decide_True by lia.
      replace (S (length col) - 1 - k)%nat with (S (length col - 1 - k)) by lia.
      done.
    + rewrite pack_step_testbit by lia.
      destruct (decide (k = length col)) as [->|Hne].
      * rewrite Nat.sub_diag. rewrite decide_True by done.
        rewrite decide_True by lia.
        by replace (S (length col) - 1 - length col)%nat with 0%nat by lia.
      * rewrite decide_False by lia. rewrite decide_False by lia.
        f_equal. lia.
Qed.

Lemma wrap32_testbit u k :
  0 ≤ k < 32 → Z.testbit (wrap32 u) k = Z.testbit u k.
Proof.
  intros Hk.
  rewrite <- (Z.mod_pow2_bits_low (wrap32 u) 32 k) by lia.
  rewrite <- (Z.mod_pow2_bits_low u 32 k) by lia.
  f_equal. unfold wrap32.
  rewrite Zminus_mod_idemp_l. f_equal. lia.
Qed.

Lemma pack_word_testbit col (r : nat) :
  length col = 32%nat → (r < 32)%nat →
  Z.testbit (pack_word col) (31 - Z.of_nat r) = (nth r col 0 <? 0).
Proof.
  intros Hlen Hr. unfold pack_word.
  rewrite wrap32_testbit by lia.
  replace (31 - Z.of_nat r) with (Z.of_nat (31 - r)) by lia.
  rewrite pack_fold_testbit, Hlen. rewrite decide_True by lia.
  by replace (32 - 1 - (31 - r))%nat with r by lia.
Qed.

Lemma unpack_bit w k :
  0 ≤ k → Z.shiftl (Z.land 1 (Z.shiftr w k)) 1 = 2 * Z.b2z (Z.testbit w k).
Proof.
  intros Hk. rewrite Z.shiftl_mul_pow2 by lia.
  rewrite Z.land_comm. change 1 with (Z.ones 1) at 1.
  rewrite Z.land_ones by lia.
  change (2 ^ 1) with 2. rewrite <- Z.bit0_mod.
  rewrite Z.shiftr_spec by lia. rewrite Z.add_0_l. lia.
Qed.

End BitFacts.

Section SignCodecFacts.
Import SignCompressor.

Lemma concat_chunks {A} (m c : nat) (P : list A) :
  length P = (m * c)%nat →
  concat (map (fun r => take c (drop (r * c) P)) (seq 0 m)) = P.
Proof.
  revert P. induction m as [|m IH]; intros P HP.
  - simpl in *. by destruct P.
  - cbn [seq map concat]. rewrite <- seq_shift, map_map.
    transitivity (take c P ++ drop c P); [|apply take_drop]. f_equal.
    rewrite <- (IH (drop c P)) by (rewrite length_drop, HP; simpl; lia).
    f_equal. apply map_ext. intros r.
    by rewrite drop_drop.
Qed.

Lemma chunk_length {A} (m c r : nat) (P : list A) :
  length P = (m * c)%nat → (r < m)%nat →
  length (take c (drop (r * c) P)) = c.
Proof. intros HP Hr. rewrite length_take, length_drop, HP. nia. Qed.

Lemma map_nth_seq {A B} (f : A → B) (l : list A) (d : A) :
  map (fun j => f (nth j l d)) (seq 0 (length l)) = map f l.
Proof.
  induction l as [|a l IH]; [done|].
  cbn [length seq map]. f_equal.
  rewrite <- seq_shift, map_map. exact IH.
Qed.

Lemma element_num_numel size : element_num size = numel size.
Proof.
  unfold element_num, numel.
  assert (∀ acc, fold_left (fun num s => (num * s)%nat) size acc
                 = (acc * foldr Nat.mul 1%nat size)%nat) as H.
  { induction size as [|s size IH]; intros acc; simpl; [lia|].
    rewrite IH. lia. }
  rewrite H. lia.
Qed.

Lemma add_elm_padded n :
  (n ≠ 0)%nat →
  ((n + add_elm n) mod 32 = 0)%nat ∧ (n + add_elm n ≠ 0)%nat.
Proof.
  intros Hn. unfold add_elm. case_decide as H.
  - rewrite Nat.add_0_r. done.
  - split; [|lia].
    pose proof (Nat.div_mod_eq n 32) as Hd.
    pose proof (Nat.mod_upper_bound n 32 ltac:(done)) as Hu.
    replace (n + (32 - n mod 32))%nat with ((n / 32 + 1) * 32)%nat by lia.
    apply Nat.Div0.mod_mul.
Qed.

Lemma view_32_ok {A} (P : list A) :
  length P ≠ 0%nat → (length P mod 32 = 0)%nat →
  ∃ c, length P = (32 * c)%nat ∧ c ≠ 0%nat
       ∧ view_32 P
         = Ok (c, map (fun r => take c (drop (r * c) P)) (seq 0 32)).
Proof.
  intros H0 Hm. exists (length P / 32)%nat.
  pose proof (Nat.div_mod_eq (length P) 32) as Hd.
  split; [lia|]. split; [lia|].
  unfold view_32. rewrite decide_False by done. by rewrite decide_True.
Qed.

Lemma row_decode (c i : nat) (P : list Q) :
  length P = (32 * c)%nat → (i < 32)%nat →
  bit2byte.unpack_row i
    (bit2byte.packing c
       (map (map to_int32)
            (map (fun r => take c (drop (r * c) P)) (seq 0 32))))
    (replicate c 1%Z)
  = map decoded (take c (drop (i * c) P)).
Proof.
  intros HP Hi.
  set (chunk := fun r => take c (drop (r * c) P)).
  set (irows := map (map to_int32) (map chunk (seq 0 32))).
  unfold bit2byte.unpack_row, bit2byte.packing.
  rewrite zip_with_replicate_l by (by rewrite length_map, length_seq).
  change (fmap ?f ?l) with (map f l). rewrite map_map.
  assert (length (chunk i) = c) as Hc by (by apply (chunk_length 32)).
  change (take c (drop (i * c) P)) with (chunk i).
  rewrite <- (map_nth_seq decoded (chunk i) 0%Q), Hc.
  apply map_ext_in. intros j Hj%in_seq.
  rewrite unpack_bit by lia.
  rewrite pack_word_testbit; [|by unfold bit2byte.column, irows;
                                 rewrite !length_map, length_seq|done].
  unfold decoded. rewrite <- sign_bit_b2z. do 2 f_equal.
  unfold bit2byte.column.
  rewrite nth_lookup. unfold irows.
  change (map ?f ?l) with (fmap f l). rewrite !list_lookup_fmap.
  rewrite lookup_seq_lt by done. simpl.
  change (to_int32 <$> chunk i) with (map to_int32 (chunk i)).
  change 0%Z with (to_int32 0%Q) at 1. by rewrite map_nth.
Qed.

End SignCodecFacts.

Section SignRoundTrip.
Import SignCompressor.

Lemma decode_sign q : to_float (- (decoded (Qsign q) + -1))%Z = sign_bucket q.
Proof.
  unfold decoded, Qsign, sign_bucket, bit2byte.sign_bit.
  destruct (0 <? Qnum q)%Z eqn:Hp.
  - assert ((Qnum q <? 0)%Z = false) as Hn by lia.
    rewrite Hn. reflexivity.
  - by destruct (Qnum q <? 0)%Z.
Qed.

Lemma unpacking_rows (c : nat) (P : list Q) :
  length P = (32 * c)%nat →
  concat
    (bit2byte.unpacking
       (bit2byte.packing c
          (map (map to_int32)
               (map (fun r => take c (drop (r * c) P)) (seq 0 32))))
       (map (fun r => take c (drop (r * c) (replicate (length P) 1%Z)))
            (seq 0 32)))
  = map decoded P.
Proof.
  intros HP. unfold bit2byte.unpacking.
  change (map ?f (seq 0 32)) with (fmap f (seq 0 32)) at 1.
  rewrite imap_fmap.
  rewrite (imap_ext _ (fun i _ => map decoded (take c (drop (i * c) P)))).
  2:{ intros i r [-> Hi]%lookup_seq. simpl.
      rewrite drop_replicate, take_replicate, HP.
      replace (c `min` (32 * c - i * c))%nat with c by nia.
      by apply row_decode. }
  rewrite imap_seq_0, length_seq.
  change (fmap ?f ?l) with (map f l).
  rewrite <- (map_map (fun r => take c (drop (r * c) P)) (map decoded)).
  rewrite <- concat_map. f_equal. apply concat_chunks. lia.
Qed.

Lemma roundtrip_buckets (x : vtensor Q) :
  wf_tensor x → vnelement x ≠ 0%nat →
  roundtrip x = Ok (VTensor (vshape x) (map sign_bucket (vdata x))).
Proof.
  intros Hwf Hne. unfold wf_tensor, vnelement in *.
  set (n := length (vdata x)) in *.
  set (P := map Qsign (vdata x) ++ replicate (add_elm n) 0%Q).
  assert (length P = (n + add_elm n)%nat) as HP.
  { unfold P. by rewrite length_app, length_map, length_replicate. }
  destruct (add_elm_padded n) as [Hmod Hpos]; [lia|].
  destruct (view_32_ok P) as (c & Hc & Hc0 & Hview); [lia|by rewrite HP|].
  unfold roundtrip, compress, packing. rewrite length_map.
  fold n. fold P. rewrite Hview. cbn [mbind result_bind].
  unfold uncompress, unpacking. rewrite element_num_numel, <- Hwf.
  destruct (view_32_ok (replicate (n + add_elm n) 1%Z))
    as (c' & Hc' & _ & Hview'); rewrite ?length_replicate; [done..|].
  rewrite length_replicate in Hc'.
  assert (c' = c) as -> by lia.
  rewrite Hview'. cbn [mbind result_bind vdata vshape].
  rewrite decide_True by (unfold bit2byte.packing; by rewrite length_map, length_seq).
  do 2 f_equal. rewrite <- HP, unpacking_rows by done.
  rewrite !firstn_map. unfold P.
  replace n with (length (map Qsign (vdata x))) at 1 by (by rewrite length_map).
  rewrite take_app_length. rewrite !map_map.
  apply map_ext. intros q. apply decode_sign.
Qed.

Lemma sign_bucket_nonzero q : ¬ (q == 0)%Q → sign_bucket q = Qsign q.
Proof.
  unfold Qeq, sign_bucket, Qsign. simpl. rewrite Z.mul_1_r. intros Hq.
  destruct (0 <? Qnum q)%Z eqn:Hp, (Qnum q <? 0)%Z eqn:Hn; try done; lia.
Qed.

End SignRoundTrip.

(** C2 (as the code has it).  For every dense tensor with at least one
    element, whatever its shape and whether or not its element count is a
    multiple of 32, [uncompress(compress(x))] succeeds, has the shape of [x],
    and holds -1 where [x] is negative and +1 elsewhere: it is [sign(x)] at
    every non-zero element and +1 at every zero. *)
Theorem sign_roundtrip_buckets (x : vtensor Q) :
  wf_tensor x → vnelement x ≠ 0%nat →
  ∃ y, SignCompressor.roundtrip x = Ok y
       ∧ vshape y = vshape x
       ∧ length (vdata y) = length (vdata x)
       ∧ ∀ i q, vdata x !! i = Some q →
           vdata y !! i = Some (SignCompressor.sign_bucket q)
           ∧ (¬ (q == 0)%Q → vdata y !! i = vdata (SignCompressor.sign x) !! i)
           ∧ ((q == 0)%Q → vdata y !! i = Some 1%Q).
Proof.
  intros Hwf Hne. eexists. split; [by apply roundtrip_buckets|].
  simpl. split; [done|]. split; [by rewrite length_map|].
  intros i q Hq.
  assert (map SignCompressor.sign_bucket (vdata x) !! i
          = Some (SignCompressor.sign_bucket q)) as Hy.
  { change (map ?f ?l) with (fmap f l). by rewrite list_lookup_fmap, Hq. }
  split; [exact Hy|]. split.
  - intros Hnz. rewrite Hy.
    change (map ?f ?l) with (fmap f l). rewrite list_lookup_fmap, Hq. simpl.
    by rewrite sign_bucket_nonzero.
  - intros Hz. rewrite Hy. f_equal.
    unfold Qeq in Hz. simpl in Hz. unfold SignCompressor.sign_bucket.
    assert ((Qnum q <? 0)%Z = false) as Hn by lia.
    by rewrite Hn.
Qed.

Lemma sign_roundtrip_buckets_witness :
  ∃ y, SignCompressor.roundtrip c2_odd = Ok y ∧ vshape y = vshape c2_odd.
Proof.
  destruct (sign_roundtrip_buckets c2_odd) as (y & Hy & Hs & _).
  - reflexivity.
  - vm_compute. discriminate.
  - exists y. split; [exact Hy|exact Hs].
Defined.

(** C2 as stated fails on a zero: the codec has no bit pattern for it, so
    the one-element tensor [[0.]] comes back as [[1.]] while its sign is [[0.]]. *)
Lemma sign_roundtrip_zero_counterexample :
  SignCompressor.roundtrip c2_zero = Ok (VTensor [1%nat] [1%Q])
  ∧ SignCompressor.sign c2_zero = VTensor [1%nat] [0%Q]
  ∧ SignCompressor.roundtrip c2_zero ≠ Ok (SignCompressor.sign c2_zero).
Proof. split; [reflexivity|]. split; [reflexivity|]. discriminate. Qed.

(** ** Running reducers *)

Lemma M_bind_inv {A B} (m : M A) (k : A → M B) tr r :
  (m ≫= k) tr = Ok r → ∃ a tr', m tr = Ok (a, tr') ∧ k a tr' = Ok r.
Proof.
  unfold mbind, M_bind. destruct (m tr) as [[a tr']|e]; [|done]. eauto.
Qed.

Lemma lift_inv {A} (x : result A) tr r :
  lift x tr = Ok r → ∃ a, x = Ok a ∧ r = (a, tr).
Proof. unfold lift. destruct x; [|done]. intros [= <-]. eauto. Qed.

Lemma mret_inv {A} (a : A) tr r : (mret a : M A) tr = Ok r → r = (a, tr).
Proof. unfold mret, M_ret. by intros [= <-]. Qed.

Lemma result_bind_inv {A B} (m : result A) (k : A → result B) r :
  m ≫= k = Ok r → ∃ a, m = Ok a ∧ k a = Ok r.
Proof. destruct m; [|done]. eauto. Qed.

(** Peel one bind off a hypothesis [H : (m ≫= k) tr = Ok r]. *)
Ltac step_M H :=
  let a := fresh "a" in
  let tr := fresh "tr" in
  let Ha := fresh "Hstep" in
  apply M_bind_inv in H as (a & tr & Ha & H).

Tactic Notation "step_M_in" hyp(H) "as" ident(Ha) :=
  let a := fresh "a" in
  let tr := fresh "tr" in
  apply M_bind_inv in H as (a & tr & Ha & H).

Ltac step_lift H :=
  let a := fresh "a" in
  let tr := fresh "tr" in
  let Ha := fresh "Hstep" in
  apply M_bind_inv in H as (a & tr & Ha & H);
  apply lift_inv in Ha as (? & Ha & [= -> ->]).

Lemma vfill_all {A} (c : A) (t : vtensor A) :
  vshape (vfill c t) = vshape t ∧ Forall (fun x => x = c) (vdata (vfill c t)).
Proof.
  split; [done|]. simpl. induction (vdata t); constructor; auto.
Qed.

Section MemorySentinel.

Lemma majority_vote_memory (net : network Q) grad_in grad_out memory_out
    outs mems bits tr :
  run (SignSGDwithMajorityVoteReducer_reduce net grad_in grad_out memory_out)
  = Ok (outs, mems, bits, tr) →
  mems = map (vfill dont_use) memory_out.
Proof.
  unfold run, SignSGDwithMajorityVoteReducer_reduce. intros H.
  step_M H. destruct a as [[flatgrad flatsigns] b].
  step_lift H. step_lift H.
  apply mret_inv in H. by injection H as _ <- _ _.
Qed.

Lemma atomo_memory svd rand (net : network Q) rank size drawn
    grad_in grad_out memory_out outs mems bits drawn' tr :
  run (Atomo.reduce svd rand net rank size drawn grad_in grad_out memory_out)
  = Ok (outs, mems, bits, drawn', tr) →
  mems = map (vfill dont_use) memory_out.
Proof.
  unfold run, Atomo.reduce. intros H.
  step_lift H. destruct x as [[[us ss] vs] d].
  step_lift H. step_M H. step_lift H. destruct x0 as [usv decoded].
  step_lift H.
  apply mret_inv in H. by injection H as _ <- _ _ _.
Qed.

End MemorySentinel.

(** C10.  Whenever [SignSGDwithMajorityVoteReducer.reduce] or
    [AtomoReducer.reduce] returns, every memory tensor keeps its shape and
    holds the constant -10000000 in every element, whatever [grad_in] was. *)
Theorem memory_out_is_sentinel :
  (∀ (net : network Q) grad_in grad_out memory_out outs mems bits tr,
     run (SignSGDwithMajorityVoteReducer_reduce net grad_in grad_out memory_out)
     = Ok (outs, mems, bits, tr) →
     Forall2 (fun mem old =>
                vshape mem = vshape old
                ∧ length (vdata mem) = length (vdata old)
                ∧ Forall (fun x => x = inject_Z (-10000000)) (vdata mem))
             mems memory_out)
  ∧ (∀ svd rand (net : network Q) rank size drawn
       grad_in grad_out memory_out outs mems bits drawn' tr,
     run (Atomo.reduce svd rand net rank size drawn grad_in grad_out memory_out)
     = Ok (outs, mems, bits, drawn', tr) →
     Forall2 (fun mem old =>
                vshape mem = vshape old
                ∧ length (vdata mem) = length (vdata old)
                ∧ Forall (fun x => x = inject_Z (-10000000)) (vdata mem))
             mems memory_out).
Proof.
  assert (∀ memory_out : list (vtensor Q),
            Forall2 (fun mem old =>
                       vshape mem = vshape old
                       ∧ length (vdata mem) = length (vdata old)
                       ∧ Forall (fun x => x = inject_Z (-10000000)) (vdata mem))
                    (map (vfill dont_use) memory_out) memory_out) as Hfill.
  { induction memory_out as [|old rest IH]; constructor; [|exact IH].
    split; [done|]. split; [simpl; by rewrite length_map|].
    apply (vfill_all dont_use old). }
  split.
  - intros * H. apply majority_vote_memory in H as ->. apply Hfill.
  - intros * H. apply atomo_memory in H as ->. apply Hfill.
Qed.

Lemma memory_out_is_sentinel_witness :
  (∃ outs bits tr,
     run (SignSGDwithMajorityVoteReducer_reduce single sample_grad sample_out sample_out)
     = Ok (outs, map (vfill dont_use) sample_out, bits, tr))
  ∧ (∃ outs bits drawn' tr,
     run (Atomo.reduce svd_diag2 half_noise single 1 4 0 diag_grad diag_out diag_out)
     = Ok (outs, map (vfill dont_use) diag_out, bits, drawn', tr))
  ∧ Forall2 (fun mem old =>
               vshape mem = vshape old
               ∧ length (vdata mem) = length (vdata old)
               ∧ Forall (fun x => x = inject_Z (-10000000)) (vdata mem))
            (map (vfill dont_use) sample_out) sample_out
  ∧ Forall2 (fun mem old =>
               vshape mem = vshape old
               ∧ length (vdata mem) = length (vdata old)
               ∧ Forall (fun x => x = inject_Z (-10000000)) (vdata mem))
            (map (vfill dont_use) diag_out) diag_out.
Proof.
  assert (∃ outs bits tr,
            run (SignSGDwithMajorityVoteReducer_reduce single sample_grad
                   sample_out sample_out)
            = Ok (outs, map (vfill dont_use) sample_out, bits, tr))
    as (outs1 & bits1 & tr1 & H1) by (do 3 eexists; vm_compute; reflexivity).
  assert (∃ outs bits drawn' tr,
            run (Atomo.reduce svd_diag2 half_noise single 1 4 0
                   diag_grad diag_out diag_out)
            = Ok (outs, map (vfill dont_use) diag_out, bits, drawn', tr))
    as (outs2 & bits2 & d2 & tr2 & H2) by (do 4 eexists; vm_compute; reflexivity).
  split; [eauto|]. split; [eauto|]. split.
  - eapply (proj1 memory_out_is_sentinel). exact H1.
  - eapply (proj2 memory_out_is_sentinel). exact H2.
Defined.

(** ** Sampling of singular values *)

Section Sampling.
Import Atomo.
Context (rand : nat → nat → Q) (rank : nat) (probs : list Q).

Lemma sample_loop_unfold drawn n pick sp :
  sample_loop rand rank probs drawn n pick sp
  = if decide (length pick = rank) then
      match sp with
      | Some s => Ok (pick, s, drawn)
      | None => Raise UnboundLocalError
      end
    else if decide (1000 < n)%nat then Raise RanOutOfAttempts
    else sample_loop rand rank probs (S drawn) (S n)
           (masked (seq 0 (length probs)) (draw_mask rand probs drawn))
           (Some (masked probs (draw_mask rand probs drawn))).
Proof.
  rewrite sample_loop_equation_1.
  destruct (decide (length pick = rank)); simpl; [done|].
  destruct (decide (1000 < n)%nat); done.
Qed.

Local Abbreviation kept := (Atomo.kept rand probs).

Lemma sample_loop_spec (m : nat) :
  ∀ n drawn pick sp,
    m = (1001 - n)%nat → (n ≤ 1001)%nat →
    (sp = None → length pick ≠ rank) →
    match sample_loop rand rank probs drawn n pick sp with
    | Ok (pick', sp', drawn') =>
        length pick' = rank
        ∧ (drawn ≤ drawn')%nat ∧ (drawn' - drawn ≤ 1001 - n)%nat
        ∧ ((drawn' = drawn ∧ pick' = pick ∧ sp = Some sp')
           ∨ ((drawn < drawn')%nat
              ∧ length pick ≠ rank
              ∧ pick' = kept (drawn' - 1)
              ∧ sp' = masked probs (draw_mask rand probs (drawn' - 1))))
        ∧ (∀ k, (drawn ≤ k < drawn' - 1)%nat → length (kept k) ≠ rank)
    | Raise e =>
        e = RanOutOfAttempts
        ∧ length pick ≠ rank
        ∧ ∀ k, (drawn ≤ k < drawn + (1001 - n))%nat → length (kept k) ≠ rank
    end.
Proof.
  induction m as [|m IH]; intros n drawn pick sp Hm Hn Hsp;
    rewrite sample_loop_unfold.
  - destruct (decide (length pick = rank)) as [Hl|Hl].
    + destruct sp as [s|]; [|by destruct Hsp].
      split_and!; try done; try lia. by left.
    + rewrite decide_True by lia. split_and!; try done. intros k Hk. lia.
  - destruct (decide (length pick = rank)) as [Hl|Hl].
    + destruct sp as [s|]; [|by destruct Hsp].
      split_and!; try done; try lia. by left.
    + rewrite decide_False by lia.
      specialize (IH (S n) (S drawn) (kept drawn)
                     (Some (masked probs (draw_mask rand probs drawn)))
                     ltac:(lia) ltac:(lia) ltac:(done)).
      fold (kept drawn).
      destruct (sample_loop rand rank probs (S drawn) (S n) (kept drawn) _)
        as [[[pick' sp'] drawn']|e].
      * destruct IH as (H1 & H2 & H3 & H4 & H5).
        split_and!; try done; try lia.
        -- right. destruct H4 as [(-> & -> & [= <-])|(? & ? & ? & ?)].
           ++ replace (S drawn - 1)%nat with drawn by lia.
              split_and!; [lia|done..].
           ++ split_and!; [lia|done..].
        -- intros k Hk. destruct (decide (k = drawn)) as [->|Hne].
           ++ destruct H4 as [(-> & -> & _)|(? & ? & ? & ?)]; [lia|done].
           ++ apply H5. lia.
      * destruct IH as (-> & H2 & H3). split_and!; try done.
        intros k Hk. destruct (decide (k = drawn)) as [->|Hne]; [done|].
        apply H3. lia.
Qed.

End Sampling.

Section SamplingResult.
Import Atomo.

Lemma masked_nil {A} (xs : list A) : masked xs [] = [].
Proof. unfold masked. by destruct xs. Qed.

Lemma masked_cons {A} (x : A) xs (b : bool) mask :
  masked (x :: xs) (b :: mask)
  = if b then x :: masked xs mask else masked xs mask.
Proof.
  unfold masked. simpl. rewrite filter_cons. simpl.
  by destruct b.
Qed.

Lemma masked_lookup_from {A} (pre xs : list A) mask :
  Forall2 (fun i x => (pre ++ xs) !! i = Some x)
          (masked (seq (length pre) (length xs)) mask) (masked xs mask).
Proof.
  revert pre mask. induction xs as [|x xs IH]; intros pre mask.
  { unfold masked. simpl. constructor. }
  destruct mask as [|b mask]; [rewrite !masked_nil; constructor|].
  cbn [length seq]. rewrite !masked_cons.
  specialize (IH (pre ++ [x]) mask).
  rewrite length_app, Nat.add_1_r, <- app_assoc in IH. simpl in IH.
  destruct b; [constructor|]; try exact IH.
  by rewrite list_lookup_middle.
Qed.

Lemma masked_lookup {A} (xs : list A) mask :
  Forall2 (fun i x => xs !! i = Some x)
          (masked (seq 0 (length xs)) mask) (masked xs mask).
Proof. exact (masked_lookup_from [] xs mask). Qed.

Lemma clamp_min (p : Q) : ((if Qltb 1 p then 1 else p) == Qmin 1 p)%Q.
Proof.
  unfold Qltb. destruct (Qle_bool p 1) eqn:H; simpl.
  - apply Qle_bool_iff in H. symmetry. by apply Q.min_r.
  - symmetry. apply Q.min_l. apply Qnot_lt_le. intros Hlt.
    apply Qlt_le_weak, Qle_bool_iff in Hlt. congruence.
Qed.

Lemma probabilities_lookup rank eigenvalues i p :
  probabilities rank eigenvalues None !! i = Some p →
  ∃ ev, eigenvalues !! i = Some ev
        ∧ (p == Qmin 1 (inject_Z (Z.of_nat rank) * Qabs ev
                        / total 0 Qplus (map Qabs eigenvalues)))%Q.
Proof.
  unfold probabilities. simpl.
  change (map ?f ?l) with (fmap f l). rewrite !list_lookup_fmap.
  destruct (eigenvalues !! i) as [ev|]; simpl; [|done].
  intros [= <-]. exists ev. split; [done|]. apply clamp_min.
Qed.

End SamplingResult.

(** C9.  For a rank of at least one, [sample_singular_values] either returns
    exactly [rank] indices, those kept by its last draw, each with its
    clamped probability [min(1, rank |λ_i| / Σ|λ_j|)], after at least one and
    at most 1001 draws, or raises "Ran out of attempts" after exactly 1001
    draws, none of which kept [rank] indices. *)
Theorem sample_singular_values_budget
    (rand : nat → nat → Q) (rank drawn : nat) (eigenvalues : list Q) :
  rank ≠ 0%nat →
  let probs := Atomo.probabilities rank eigenvalues None in
  match Atomo.sample_singular_values rand rank drawn probs with
  | Ok (pick, sample_probs, drawn') =>
      length pick = rank ∧ length sample_probs = rank
      ∧ (1 ≤ drawn' - drawn ≤ 1001)%nat
      ∧ pick = Atomo.kept rand probs (drawn' - 1)
      ∧ (∀ k, (drawn ≤ k < drawn' - 1)%nat →
              length (Atomo.kept rand probs k) ≠ rank)
      ∧ Forall2 (fun i p =>
                   ∃ ev, eigenvalues !! i = Some ev
                         ∧ (p == Qmin 1 (inject_Z (Z.of_nat rank) * Qabs ev
                                         / total 0 Qplus (map Qabs eigenvalues)))%Q)
                pick sample_probs
  | Raise e =>
      e = RanOutOfAttempts
      ∧ ∀ k, (drawn ≤ k < drawn + 1001)%nat →
             length (Atomo.kept rand probs k) ≠ rank
  end.
Proof.
  intros Hrank probs. unfold Atomo.sample_singular_values.
  pose proof (sample_loop_spec rand rank probs 1001 0 drawn [] None
                eq_refl ltac:(lia) ltac:(done)) as H.
  destruct (Atomo.sample_loop rand rank probs drawn 0 [] None)
    as [[[pick sp] drawn']|e].
  - destruct H as (H1 & H2 & H3 & [(_ & _ & ?)|(H4 & _ & -> & ->)] & H5);
      [done|].
    assert (Forall2 (fun i p => probs !! i = Some p)
              (Atomo.kept rand probs (drawn' - 1))
              (Atomo.masked probs (Atomo.draw_mask rand probs (drawn' - 1))))
      as HF by apply masked_lookup.
    split_and!; try done; try lia.
    + by rewrite <- (Forall2_length _ _ _ HF).
    + eapply Forall2_impl; [exact HF|]. intros i p Hp.
      by apply probabilities_lookup.
  - destruct H as (-> & _ & H). split; [done|]. exact H.
Qed.

Lemma sample_singular_values_budget_witness :
  1%nat ≠ 0%nat
  ∧ ∃ sample_probs drawn',
      Atomo.sample_singular_values half_noise 1 0
        (Atomo.probabilities 1 [3%Q; 1%Q] None)
      = Ok ([0%nat], sample_probs, drawn')
      ∧ length sample_probs = 1%nat.
Proof.
  split; [discriminate|].
  pose proof (sample_singular_values_budget half_noise 1 0 [3%Q; 1%Q]
                ltac:(discriminate)) as H.
  cbv zeta in H.
  destruct (Atomo.sample_singular_values half_noise 1 0
              (Atomo.probabilities 1 [3%Q; 1%Q] None))
    as [[[pick sp] d]|e] eqn:E.
  - destruct H as (_ & Hlen & _). vm_compute in E.
    injection E as <- <- <-. eexists _, _. split; [reflexivity|exact Hlen].
  - vm_compute in E. discriminate.
Defined.

(** Noise that never falls below a probability exhausts the budget. *)
Example sample_singular_values_exhausted :
  Atomo.sample_singular_values (fun _ _ => 2%Q) 1 0
    (Atomo.probabilities 1 [3%Q; 1%Q] None)
  = Raise RanOutOfAttempts.
Proof. vm_compute. reflexivity. Qed.

(** With a rank of zero the loop body never runs and the [return] reads
    [sample_probs] before it was ever assigned. *)
Example sample_singular_values_rank_zero :
  Atomo.sample_singular_values half_noise 0 0 [1%Q] = Raise UnboundLocalError.
Proof. reflexivity. Qed.

(** C6, at the failing input [grad_in = [tensor([1.])]] with one worker: the
    memory comes back as [[2.]], the gradient plus its sign, where the
    residual original minus encoded is [1 - sign(1) = 0]. *)
Theorem SignReducer_memory_adds_sign :
  run (SignReducer_reduce single [VTensor [1%nat] [1%Q]] [VTensor [1%nat] [0%Q]]
         [VTensor [1%nat] [0%Q]])
  = Ok ([VTensor [1%nat] [1%Q]], [VTensor [1%nat] [2%Q]], 32%Z, [])
  ∧ (1 - Qsign 1 == 0)%Q
  ∧ ¬ (2 == 1 - Qsign 1)%Q.
Proof. split; [reflexivity|]. split; [reflexivity|]. discriminate. Qed.

(** ** The flat buffer packer on values *)

Section ValueBuffer.
Context {A : Type}.
Implicit Types (tb : TensorBuffer.t A) (buf : list A) (shapes : list (list nat)).

Lemma vinit_laid_out (ts : list (vtensor A)) :
  ts ≠ [] → Forall wf_tensor ts →
  ∃ tb, TensorBuffer.init ts = Ok tb
        ∧ laid_out tb (map vshape ts) (concat (map vdata ts)).
Proof.
  intros Hne Hwf. destruct ts as [|t ts]; [done|].
  eexists. split; [reflexivity|].
  unfold laid_out. cbn [TensorBuffer._start_idx TensorBuffer._end_idx
                        TensorBuffer._shapes TensorBuffer.buffer].
  rewrite map_map. split_and!; try done.
  clear Hne. induction Hwf as [|u us Hu _ IH]; [done|].
  cbn [map concat sum_list sum_list_with]. rewrite length_app, IH, Hu. done.
Qed.

Lemma set_buffer_laid_out tb shapes buf buf' :
  laid_out tb shapes buf → length buf' = length buf →
  laid_out (TensorBuffer.set_buffer tb buf') shapes buf'.
Proof.
  intros (Hs & He & Hsh & Hb & Hl) Hlen. unfold laid_out. simpl.
  split_and!; try done. congruence.
Qed.

Lemma vgetitem_laid_out tb shapes buf i sh :
  laid_out tb shapes buf → shapes !! i = Some sh →
  TensorBuffer.getitem tb i
  = Ok (VTensor sh (take (numel sh)
                         (drop (sum_list (take i (map numel shapes))) buf))).
Proof.
  intros (Hs & He & Hsh & Hb & Hl) Hi. unfold TensorBuffer.getitem.
  assert (i < length (map numel shapes))%nat as Hlt.
  { rewrite length_map. by eapply lookup_lt_Some. }
  assert (map numel shapes !! i = Some (numel sh)) as Hni.
  { change (map ?f ?l) with (fmap f l). by rewrite list_lookup_fmap, Hi. }
  rewrite Hs, He, Hsh, Hb, start_idx_lookup, end_idx_lookup, Hi by done.
  cbn [of_option mbind result_bind].
  rewrite (sum_list_take_S _ _ _ Hni).
  pose proof (sum_list_take_le (map numel shapes) (S i)) as Hle.
  rewrite (sum_list_take_S _ _ _ Hni) in Hle.
  replace (sum_list (take i (map numel shapes)) + numel sh
           - sum_list (take i (map numel shapes)))%nat with (numel sh) by lia.
  rewrite decide_True; [done|].
  rewrite length_take, length_drop. lia.
Qed.

Lemma vgetitem_past_end tb shapes buf i :
  laid_out tb shapes buf → (length shapes ≤ i)%nat →
  TensorBuffer.getitem tb i = Raise IndexError.
Proof.
  intros (Hs & _) Hi. unfold TensorBuffer.getitem.
  rewrite Hs, (lookup_ge_None_2 (start_idx _)); [done|].
  by rewrite start_idx_length, length_map.
Qed.

Lemma vsetitem_same (dst src : vtensor A) :
  vshape dst = vshape src →
  vsetitem dst src = Ok (VTensor (vshape dst) (vdata src)).
Proof. intros H. unfold vsetitem. by rewrite decide_True. Qed.

(** Copying the entries out, into tensors of the packed shapes. *)
Lemma zip_entries_setitem tb shapes buf (ys : list (vtensor A)) :
  laid_out tb shapes buf →
  ∀ i, map vshape ys = drop i shapes →
    TensorBuffer.zip_entries (fun entry y => vsetitem y entry) tb i ys
    = Ok (imap (fun k y =>
                  VTensor (vshape y)
                    (take (vnelement y)
                       (drop (sum_list (take (i + k) (map numel shapes))) buf)))
               ys).
Proof.
  intros Hlo. induction ys as [|y ys IH]; intros i Hsh; [done|].
  assert (shapes !! i = Some (vshape y)) as Hi.
  { rewrite <- (Nat.add_0_r i), <- lookup_drop, <- Hsh. done. }
  cbn [TensorBuffer.zip_entries].
  rewrite (vgetitem_laid_out _ _ _ _ _ Hlo Hi).
  rewrite vsetitem_same by done.
  cbn [mbind result_bind vdata]. rewrite (IH (S i)).
  2:{ rewrite (drop_S _ _ _ Hi) in Hsh. by injection Hsh. }
  cbn [mbind result_bind imap]. rewrite Nat.add_0_r. f_equal. f_equal.
  apply imap_ext. intros k z _. simpl.
  by replace (i + S k)%nat with (S (i + k)) by lia.
Qed.

End ValueBuffer.

Lemma segments_of_concat {A} (ys : list (vtensor A)) (ds : list (list A)) :
  Forall2 (fun y d => length d = vnelement y) ys ds →
  imap (fun k y =>
          VTensor (vshape y)
            (take (vnelement y)
               (drop (sum_list (take (0 + k) (map numel (map vshape ys))))
                     (concat ds))))
       ys
  = zip_with (fun y d => VTensor (vshape y) d) ys ds.
Proof.
  intros HF. apply list_eq. intros k.
  rewrite list_lookup_imap, lookup_zip_with.
  destruct (ys !! k) as [y|] eqn:Hy; simpl; [|done].
  destruct (Forall2_lookup_l _ _ _ _ _ HF Hy) as (d & Hd & Hlen).
  rewrite Hd. simpl. do 2 f_equal.
  assert (map numel (map vshape ys) = map length ds) as ->.
  { clear -HF. induction HF as [|y' d' ys' ds' H _ IH]; [done|].
    simpl. by rewrite IH, H. }
  rewrite <- Hlen, firstn_map. by apply concat_segment.
Qed.

Lemma zip_update_setitem {A} (xs ys : list (vtensor A)) :
  map vshape ys = map vshape xs →
  zip_update (fun x y => vsetitem y x) xs ys = Ok xs.
Proof.
  revert ys. induction xs as [|x xs IH]; intros [|y ys] Hsh; try done.
  injection Hsh as Hy Hsh. simpl.
  rewrite vsetitem_same by done. cbn [mbind result_bind].
  rewrite IH by done. cbn [mbind result_bind]. rewrite Hy. by destruct x.
Qed.

(** ** The exact reducer with one worker *)

Lemma ExactReducer_single (net : network Q) size grad_in grad_out memory_out :
  n_workers net = 1%nat →
  map vshape grad_out = map vshape grad_in →
  run (ExactReducer_reduce net size grad_in grad_out memory_out)
  = Ok (grad_in, map (vfill 0%Q) memory_out, 0%Z, []).
Proof.
  intros Hn Hsh. unfold run, ExactReducer_reduce, reduce_mean_list.
  rewrite decide_True by done.
  unfold mbind, M_bind, lift. by rewrite zip_update_setitem.
Qed.

(** ** The sign reducers with one worker *)

Section SignSingle.
Import SignCompressor.

Lemma compress_ok (x : vtensor Q) :
  wf_tensor x → vnelement x ≠ 0%nat →
  ∃ packed, compress x = Ok (packed, vshape x)
            ∧ vshape packed = [words (length (vdata x))]
            ∧ length (vdata packed) = words (length (vdata x))
            ∧ uncompress (VTensor (vshape packed) (vdata packed)) (vshape x)
              = Ok (VTensor (vshape x) (map sign_bucket (vdata x))).
Proof.
  intros Hwf Hne. pose proof (roundtrip_buckets x Hwf Hne) as Hrt.
  unfold wf_tensor, vnelement in *.
  set (n := length (vdata x)) in *.
  set (P := map Qsign (vdata x) ++ replicate (add_elm n) 0%Q).
  assert (length P = (n + add_elm n)%nat) as HP.
  { unfold P. by rewrite length_app, length_map, length_replicate. }
  destruct (add_elm_padded n) as [Hmod Hpos]; [lia|].
  destruct (view_32_ok P) as (c & Hc & Hc0 & Hview); [lia|by rewrite HP|].
  assert (c = words n) as Hcw.
  { unfold words. rewrite <- HP, Hc.
    by rewrite Nat.mul_comm, Nat.div_mul. }
  unfold roundtrip in Hrt. revert Hrt.
  unfold compress, packing. rewrite length_map. fold n. fold P.
  rewrite Hview. cbn [mbind result_bind]. intros Hrt.
  eexists. split; [reflexivity|]. cbn [vshape vdata].
  split; [by rewrite Hcw|]. split; [|exact Hrt].
  unfold bit2byte.packing. by rewrite length_map, length_seq.
Qed.

Lemma gather_signs_single (net : network Q) grad_in :
  n_workers net = 1%nat →
  grad_in ≠ [] → Forall wf_tensor grad_in →
  length (concat (map vdata grad_in)) ≠ 0%nat →
  let flat := concat (map vdata grad_in) in
  ∃ tb, gather_signs net grad_in []
        = Ok (tb, [VTensor [length flat] (map sign_bucket flat)],
              n_bits (words (length flat)) int32_size, [])
        ∧ laid_out tb (map vshape grad_in) flat.
Proof.
  intros Hn Hne Hwf Hlen flat.
  destruct (vinit_laid_out grad_in Hne Hwf) as (tb & Hinit & Hlo).
  exists tb. split; [|exact Hlo].
  unfold gather_signs. rewrite Hinit.
  assert (TensorBuffer.buffer tb = flat) as Hbuf by apply Hlo.
  unfold mbind at 1, M_bind at 1, lift at 1. rewrite Hbuf.
  destruct (compress_ok (VTensor [length flat] flat))
    as (packed & Hc & Hsh & Hpl & Hun).
  { unfold wf_tensor, vnelement. simpl. lia. }
  { unfold vnelement. simpl. fold flat in Hlen. lia. }
  unfold mbind at 1, M_bind at 1, lift at 1. rewrite Hc.
  rewrite decide_False by lia.
  unfold mbind at 1, M_bind at 1, mret at 1, M_ret at 1.
  unfold mbind at 1, M_bind at 1, lift at 1. cbn [mapM].
  cbn [vshape vdata] in Hun, Hpl. cbn [vshape vdata].
  rewrite Hun. cbn [mbind result_bind].
  unfold mret, M_ret. by rewrite Hpl.
Qed.

End SignSingle.

Lemma entries_of_map {A} (tb : TensorBuffer.t A) buf0 (ts ys : list (vtensor A))
    (f : A → A) :
  laid_out tb (map vshape ts) buf0 →
  Forall wf_tensor ts →
  map vshape ys = map vshape ts →
  TensorBuffer.zip_entries (fun entry y => vsetitem y entry)
    (TensorBuffer.set_buffer tb (map f (concat (map vdata ts)))) 0 ys
  = Ok (map (fun t => VTensor (vshape t) (map f (vdata t))) ts).
Proof.
  intros Hlo Hwf Hsh.
  assert (length buf0 = length (concat (map vdata ts))) as Hlen.
  { destruct Hlo as (_ & _ & _ & _ & ->). rewrite map_map. clear -Hwf.
    induction Hwf as [|t ts Ht _ IH]; [done|].
    cbn [map concat sum_list sum_list_with]. rewrite length_app, IH, Ht. done. }
  assert (map f (concat (map vdata ts))
          = concat (map (fun t => map f (vdata t)) ts)) as Hcat
    by (by rewrite concat_map, map_map).
  erewrite zip_entries_setitem.
  2:{ eapply set_buffer_laid_out; [exact Hlo|]. by rewrite length_map. }
  2:{ by rewrite drop_0. }
  f_equal. rewrite <- Hsh, Hcat.
  rewrite (segments_of_concat ys (map (fun t => map f (vdata t)) ts)).
  2:{ clear -Hwf Hsh. revert ys Hsh.
      induction Hwf as [|t ts Ht _ IH]; intros [|y ys] Hsh; try done.
      injection Hsh as Hy Hsh. constructor; [|by apply IH].
      rewrite length_map, Ht. unfold vnelement. by rewrite Hy. }
  clear -Hsh. revert ys Hsh.
  induction ts as [|t ts IH]; intros [|y ys] Hsh; try done.
  injection Hsh as Hy Hsh. simpl. rewrite Hy. f_equal. by apply IH.
Qed.

Lemma vadd_same (a b : vtensor Q) :
  vshape a = vshape b →
  vadd_ a b = Ok (VTensor (vshape a) (zip_with Qplus (vdata a) (vdata b))).
Proof. intros H. unfold vadd_. by rewrite decide_True. Qed.

Lemma SignReducer_memory (grad_in memory_out : list (vtensor Q)) :
  map vshape memory_out = map vshape grad_in →
  zip_update (fun tensor mem =>
                mem ← vsetitem mem tensor;
                vadd_ mem (SignCompressor.sign tensor)) grad_in memory_out
  = Ok (map (fun t => VTensor (vshape t)
                        (zip_with Qplus (vdata t) (map Qsign (vdata t))))
            grad_in).
Proof.
  revert memory_out. induction grad_in as [|t ts IH]; intros [|m ms] Hsh;
    try done.
  injection Hsh as Hm Hsh. cbn [zip_update].
  rewrite vsetitem_same by done. cbn [mbind result_bind].
  rewrite vadd_same by done. cbn [mbind result_bind].
  rewrite IH by done. cbn [mbind result_bind map]. by rewrite Hm.
Qed.

Section SignRuns.
Context (net : network Q) (grad_in grad_out memory_out : list (vtensor Q)).
Hypothesis Hsingle : n_workers net = 1%nat.
Hypothesis Hne : grad_in ≠ [].
Hypothesis Hwf : Forall wf_tensor grad_in.
Hypothesis Hlen : length (concat (map vdata grad_in)) ≠ 0%nat.
Hypothesis Hout : map vshape grad_out = map vshape grad_in.

Lemma SignReducer_single :
  map vshape memory_out = map vshape grad_in →
  run (SignReducer_reduce net grad_in grad_out memory_out)
  = Ok (map (fun t => VTensor (vshape t)
                        (map (fun q => div_workers 1 (SignCompressor.sign_bucket q))
                             (vdata t))) grad_in,
        map (fun t => VTensor (vshape t)
                        (zip_with Qplus (vdata t) (map Qsign (vdata t)))) grad_in,
        n_bits (words (length (concat (map vdata grad_in)))) int32_size, []).
Proof.
  intros Hmem. unfold run, SignReducer_reduce.
  destruct (gather_signs_single net grad_in Hsingle Hne Hwf Hlen)
    as (tb & Hg & Hlo).
  unfold mbind at 1, M_bind at 1. rewrite Hg.
  unfold mbind at 1, M_bind at 1, lift at 1. cbn [map vdata sum_dim0 fold_left].
  rewrite Hsingle, map_map.
  unfold mbind at 1, M_bind at 1, lift at 1.
  rewrite (entries_of_map tb _ grad_in grad_out _ Hlo Hwf Hout).
  unfold mbind at 1, M_bind at 1, lift at 1.
  rewrite SignReducer_memory by done. reflexivity.
Qed.

Lemma MajorityVote_single :
  run (SignSGDwithMajorityVoteReducer_reduce net grad_in grad_out memory_out)
  = Ok (map (fun t => VTensor (vshape t)
                        (map SignCompressor.sign_bucket (vdata t))) grad_in,
        map (vfill dont_use) memory_out,
        n_bits (words (length (concat (map vdata grad_in)))) int32_size, []).
Proof.
  unfold run, SignSGDwithMajorityVoteReducer_reduce.
  destruct (gather_signs_single net grad_in Hsingle Hne Hwf Hlen)
    as (tb & Hg & Hlo).
  unfold mbind at 1, M_bind at 1. rewrite Hg.
  unfold mbind at 1, M_bind at 1, lift at 1. cbn [map vdata sum_dim0 fold_left].
  rewrite map_map.
  unfold mbind at 1, M_bind at 1, lift at 1.
  rewrite (entries_of_map tb _ grad_in grad_out _ Hlo Hwf Hout).
  unfold mret, M_ret. do 4 f_equal.
  apply map_ext. intros t. f_equal. apply map_ext. intros q.
  unfold SignCompressor.sign_bucket. by destruct (Qnum q <? 0)%Z.
Qed.

End SignRuns.

(** ** The top-k reducer *)

Lemma bounds_zip (s : nat) (ns : list nat) :
  zip (removelast (s :: running s ns)) (running s ns) = bounds_from s ns.
Proof.
  revert s. induction ns as [|n ns IH]; intros s; [done|].
  cbn [running bounds_from]. rewrite <- IH.
  change (removelast (s :: (s + n)%nat :: running (s + n) ns))
    with (s :: removelast ((s + n)%nat :: running (s + n) ns)).
  done.
Qed.

Lemma bounds_start_end (ns : list nat) :
  zip (start_idx ns) (end_idx ns) = bounds_from 0 ns.
Proof.
  unfold start_idx, end_idx. rewrite indices_running. apply bounds_zip.
Qed.

Lemma set_slice_segment {A} (pre tail values : list A) :
  (length values ≤ length tail)%nat →
  set_slice (length pre) (length pre + length values) values (pre ++ tail)
  = Ok ((pre ++ values) ++ drop (length values) tail).
Proof.
  intros Hle. unfold set_slice.
  rewrite drop_app_length, take_app_length' by lia.
  replace (length pre + length values - length pre)%nat
    with (length values) by lia.
  rewrite decide_True by (rewrite length_take; lia).
  rewrite drop_app_add', <- app_assoc by done. done.
Qed.

Lemma set_slice_length {A} (start stop : nat) (values flat flat' : list A) :
  set_slice start stop values flat = Ok flat' → length flat' = length flat.
Proof.
  unfold set_slice. case_decide as H; [|done]. intros [= <-].
  rewrite length_take, length_drop in H.
  rewrite !length_app, length_take, length_drop. lia.
Qed.

Lemma mapM_lookup {A} (xs : list A) (d : A) (ps : list nat) :
  Forall (fun p => p < length xs)%nat ps →
  mapM (fun p => of_option IndexError (xs !! p)) ps
  = Ok (map (fun p => nth p xs d) ps).
Proof.
  induction 1 as [|p ps Hp _ IH]; [done|].
  cbn [mapM map]. destruct (lookup_lt_is_Some_2 xs p Hp) as [x Hx].
  rewrite Hx. cbn [of_option mbind result_bind]. rewrite IH.
  cbn [mbind result_bind]. by rewrite (nth_lookup_Some _ _ _ _ Hx).
Qed.

Section TopKFacts.
Context (topk : list Q → nat → result (list nat)).
Context (net : network Q) (compression : Q).

Local Abbreviation size := (top_size compression).
Local Abbreviation selects :=
  (fun t ps => topk_selects topk (map Qabs (vdata t)) (size t) ps).

Lemma select_ok t ps :
  selects t ps →
  select topk compression t = Ok (map Z.of_nat ps, picked t ps).
Proof.
  intros (Htk & Hlen & Hnd & Hlt & _). unfold select. rewrite Htk.
  cbn [mbind result_bind]. rewrite length_map in Hlt.
  by rewrite (mapM_lookup _ 0%Q).
Qed.

Lemma fill_body_ok t ps (pv : list Q) (pp : list Z) tail_v tail_p :
  selects t ps →
  length pp = length pv →
  (size t ≤ length tail_v)%nat → (size t ≤ length tail_p)%nat →
  fill_body topk compression (pv ++ tail_v, pp ++ tail_p)
            (t, (length pv, (length pv + size t)%nat))
  = Ok ((pv ++ picked t ps) ++ drop (size t) tail_v,
        (pp ++ map Z.of_nat ps) ++ drop (size t) tail_p).
Proof.
  intros Hsel Hpp Hv Hp. unfold fill_body.
  rewrite (select_ok _ _ Hsel). cbn [mbind result_bind].
  destruct Hsel as (_ & Hlen & _).
  assert (length (picked t ps) = size t) as Hlv
    by (unfold picked; by rewrite length_map).
  assert (length (map Z.of_nat ps) = size t) as Hlp by (by rewrite length_map).
  pose proof (set_slice_segment pv tail_v (picked t ps) ltac:(lia)) as Hs1.
  pose proof (set_slice_segment pp tail_p (map Z.of_nat ps) ltac:(lia)) as Hs2.
  rewrite Hlv in Hs1. rewrite Hpp, Hlp in Hs2.
  rewrite Hs1. cbn [mbind result_bind]. rewrite Hs2. done.
Qed.

Lemma fill_loop ts sels :
  Forall2 selects ts sels →
  ∀ (pv : list Q) (pp : list Z) tail_v tail_p,
    length pp = length pv →
    length tail_v = sum_list (map size ts) →
    length tail_p = sum_list (map size ts) →
    foldM (fill_body topk compression)
          (zip ts (bounds_from (length pv) (map size ts)))
          (pv ++ tail_v, pp ++ tail_p)
    = Ok (pv ++ concat (zip_with picked ts sels),
          pp ++ concat (map (map Z.of_nat) sels)).
Proof.
  induction 1 as [|t ps ts sels Hsel _ IH]; intros pv pp tail_v tail_p Hpp Hv Hp.
  { destruct tail_v, tail_p; try done. }
  change (sum_list (map size (t :: ts)))
    with (size t + sum_list (map size ts))%nat in Hv, Hp.
  cbn [map bounds_from zip zip_with foldM concat].
  rewrite (fill_body_ok t ps) by (done || lia). cbn [mbind result_bind].
  destruct Hsel as (_ & Hlen & _).
  replace (length pv + size t)%nat with (length (pv ++ picked t ps))
    by (unfold picked; rewrite length_app, length_map; lia).
  rewrite IH; [by rewrite <- !app_assoc|..].
  all: unfold picked; rewrite ?length_app, ?length_drop, ?length_map; lia.
Qed.

End TopKFacts.

Lemma zero_at_lookup (ps : list nat) (data : list Q) (j : nat) (x : Q) :
  data !! j = Some x →
  zero_at ps data !! j = Some (if decide (j ∈ ps) then 0%Q else x).
Proof.
  revert data x. induction ps as [|p ps IH]; intros data x Hx.
  { unfold zero_at. cbn [fold_left]. rewrite decide_False; [done|].
    apply not_elem_of_nil. }
  unfold zero_at. cbn [fold_left]. fold (zero_at ps (<[p := 0%Q]> data)).
  destruct (decide (j = p)) as [->|Hne].
  - rewrite (IH _ 0%Q).
    + rewrite (decide_True (P := p ∈ p :: ps)) by apply list_elem_of_here.
      by destruct (decide (p ∈ ps)).
    + apply list_lookup_insert_eq. by eapply lookup_lt_Some.
  - rewrite (IH _ x) by (by rewrite list_lookup_insert_ne).
    destruct (decide (j ∈ ps)) as [Hin|Hnin].
    + rewrite decide_True; [done|]. by apply list_elem_of_further.
    + rewrite decide_False; [done|]. by apply not_elem_of_cons.
Qed.

Lemma zero_at_length ps data : length (zero_at ps data) = length data.
Proof.
  revert data. induction ps as [|p ps IH]; intros data; [done|].
  unfold zero_at. cbn [fold_left]. fold (zero_at ps (<[p := 0%Q]> data)).
  by rewrite IH, length_insert.
Qed.

Lemma scatter_length {A} (ivs : list (nat * A)) (l : list A) :
  length (fold_left (fun acc '(i, v) => <[i := v]> acc) ivs l) = length l.
Proof.
  revert l. induction ivs as [|[i v] ivs IH]; intros l; [done|].
  simpl. by rewrite IH, length_insert.
Qed.

Lemma scatter_lookup_notin {A} (ivs : list (nat * A)) (l : list A) j :
  j ∉ map fst ivs →
  fold_left (fun acc '(i, v) => <[i := v]> acc) ivs l !! j = l !! j.
Proof.
  revert l. induction ivs as [|[i v] ivs IH]; intros l Hj; [done|].
  simpl in *. apply not_elem_of_cons in Hj as [Hne Hj].
  rewrite IH by done. by rewrite list_lookup_insert_ne.
Qed.

Lemma scatter_lookup_in {A} (ivs : list (nat * A)) (l : list A) k i v :
  NoDup (map fst ivs) → ivs !! k = Some (i, v) → (i < length l)%nat →
  fold_left (fun acc '(i, v) => <[i := v]> acc) ivs l !! i = Some v.
Proof.
  revert l k. induction ivs as [|[i' v'] ivs IH]; intros l k Hnd Hk Hi; [done|].
  simpl in Hnd. apply NoDup_cons in Hnd as [Hnin Hnd].
  destruct k as [|k]; simpl in *.
  - injection Hk as -> ->. rewrite scatter_lookup_notin by done.
    by apply list_lookup_insert_eq.
  - apply (IH _ k); [done..|]. by rewrite length_insert.
Qed.

Lemma normalize_index_nat (n p : nat) :
  (p < n)%nat → normalize_index n (Z.of_nat p) = Ok p.
Proof.
  intros H. unfold normalize_index. rewrite decide_True by lia.
  by rewrite Nat2Z.id.
Qed.

Lemma mapM_normalize (n : nat) (ps : list nat) :
  Forall (fun p => p < n)%nat ps →
  mapM (normalize_index n) (map Z.of_nat ps) = Ok ps.
Proof.
  induction 1 as [|p ps Hp _ IH]; [done|].
  cbn [map mapM]. rewrite normalize_index_nat by done.
  cbn [mbind result_bind]. rewrite IH. done.
Qed.

Lemma index_fill_ok (ps : list nat) (data : list Q) :
  Forall (fun p => p < length data)%nat ps →
  index_fill 0 (map Z.of_nat ps) data = Ok (zero_at ps data).
Proof.
  intros H. unfold index_fill. by rewrite mapM_normalize.
Qed.

Lemma index_add_ok (ps : list nat) (values flat : list Q) :
  Forall (fun p => p < length flat)%nat ps → length ps = length values →
  index_add (map Z.of_nat ps) values flat = Ok (added_at ps values flat).
Proof.
  intros H Hlen. unfold index_add. rewrite mapM_normalize by done.
  cbn [mbind result_bind]. by rewrite decide_True.
Qed.

Lemma slice_segment {A} (pre x rest : list A) :
  take (length pre + length x - length pre) (drop (length pre) (pre ++ x ++ rest))
  = x.
Proof.
  rewrite drop_app_length.
  replace (length pre + length x - length pre)%nat with (length x) by lia.
  apply take_app_length.
Qed.

Section TopKRun.
Context (topk : list Q → nat → result (list nat)).
Context (net : network Q) (compression : Q).

Local Abbreviation size := (top_size compression).
Local Abbreviation selects :=
  (fun t ps => topk_selects topk (map Qabs (vdata t)) (size t) ps).

Lemma selects_in_range t ps :
  selects t ps → Forall (fun p => p < length (vdata t))%nat ps.
Proof. intros (_ & _ & _ & H & _). by rewrite length_map in H. Qed.

Lemma memory_body_ok t ps (pp rest : list Z) mem :
  selects t ps → vshape mem = vshape t →
  memory_body (pp ++ map Z.of_nat ps ++ rest)
              (t, (length pp, (length pp + size t)%nat)) mem
  = Ok (VTensor (vshape t) (zero_at ps (vdata t))).
Proof.
  intros Hsel Hsh. unfold memory_body.
  assert (length (map Z.of_nat ps) = size t) as Hlp.
  { rewrite length_map. apply Hsel. }
  rewrite <- Hlp, slice_segment.
  rewrite vsetitem_same by done. cbn [mbind result_bind vdata vshape].
  rewrite index_fill_ok by (by eapply selects_in_range).
  cbn [mbind result_bind]. by rewrite Hsh.
Qed.

Lemma memory_loop ts sels :
  Forall2 selects ts sels →
  ∀ mems (pp flat_positions : list Z),
    map vshape mems = map vshape ts →
    flat_positions = pp ++ concat (map (map Z.of_nat) sels) →
    zip_update (memory_body flat_positions)
               (zip ts (bounds_from (length pp) (map size ts))) mems
    = Ok (zip_with (fun t ps => VTensor (vshape t) (zero_at ps (vdata t))) ts sels).
Proof.
  induction 1 as [|t ps ts sels Hsel _ IH]; intros [|m ms] pp fp Hsh Hfp;
    try done.
  injection Hsh as Hm Hsh.
  cbn [map bounds_from zip zip_with zip_update concat].
  rewrite Hfp. cbn [map concat]. rewrite (memory_body_ok t ps) by done.
  cbn [mbind result_bind].
  replace (length pp + size t)%nat with (length (pp ++ map Z.of_nat ps)).
  2:{ rewrite length_app, length_map. f_equal. apply Hsel. }
  rewrite (IH ms (pp ++ map Z.of_nat ps)); [done|done|].
  by rewrite <- app_assoc.
Qed.

Lemma combine_body_single t ps (pv restv : list Q) (pp restp : list Z) out :
  selects t ps →
  length (vdata out) = length (vdata t) →
  length pp = length pv →
  combine_body net [pp ++ map Z.of_nat ps ++ restp] [pv ++ picked t ps ++ restv]
               (t, (length pv, (length pv + size t)%nat)) out
  = Ok (VTensor (vshape out)
          (added_at ps (map (div_workers (n_workers net)) (picked t ps))
                    (map (fun _ => 0%Q) (vdata out)))).
Proof.
  intros Hsel Hlen Hpp. unfold combine_body. cbn [zip zip_with foldM].
  assert (length ps = size t) as Hps by apply Hsel.
  assert (length (map Z.of_nat ps) = size t) as Hlp by (by rewrite length_map).
  assert (length (picked t ps) = size t) as Hlv
    by (unfold picked; by rewrite length_map).
  rewrite <- Hlv at 2. rewrite slice_segment.
  rewrite <- Hpp, <- Hlp. rewrite slice_segment.
  rewrite index_add_ok.
  - done.
  - rewrite length_map, Hlen. by eapply selects_in_range.
  - unfold picked. by rewrite !length_map.
Qed.

Lemma combine_loop_single ts sels :
  Forall2 selects ts sels →
  ∀ outs (pv fv : list Q) (pp fp : list Z),
    Forall2 (fun out t => length (vdata out) = length (vdata t)) outs ts →
    length pp = length pv →
    fv = pv ++ concat (zip_with picked ts sels) →
    fp = pp ++ concat (map (map Z.of_nat) sels) →
    zip_update (combine_body net [fp] [fv])
               (zip ts (bounds_from (length pv) (map size ts))) outs
    = Ok (zip_with (fun '(t, ps) out =>
                      VTensor (vshape out)
                        (added_at ps
                           (map (div_workers (n_workers net)) (picked t ps))
                           (map (fun _ => 0%Q) (vdata out))))
                   (zip ts sels) outs).
Proof.
  induction 1 as [|t ps ts sels Hsel _ IH]; intros outs pv fv pp fp Hout Hpp Hfv Hfp.
  { by inversion Hout. }
  inversion Hout as [|out t' outs' ts' Hlen Houts]; subst.
  cbn [map bounds_from zip zip_with zip_update concat].
  rewrite (combine_body_single t ps) by done.
  cbn [mbind result_bind].
  replace (length pv + size t)%nat with (length (pv ++ picked t ps)).
  2:{ unfold picked. rewrite length_app, length_map. f_equal. apply Hsel. }
  rewrite (IH outs' (pv ++ picked t ps) _ (pp ++ map Z.of_nat ps)); [done|done|..].
  - unfold picked. rewrite !length_app, !length_map. lia.
  - by rewrite <- app_assoc.
  - by rewrite <- app_assoc.
Qed.

End TopKRun.

Section TopKReduce.
Context (topk : list Q → nat → result (list nat)).
Context (net : network Q) (compression : Q).
Context (grad_in grad_out memory_out : list (vtensor Q)) (sels : list (list nat)).

Local Abbreviation size := (top_size compression).
Local Abbreviation selects :=
  (fun t ps => topk_selects topk (map Qabs (vdata t)) (size t) ps).

Hypothesis Hsel : Forall2 selects grad_in sels.

Lemma picked_total :
  length (concat (zip_with picked grad_in sels)) = sum_list (map size grad_in).
Proof.
  clear -Hsel. revert Hsel. generalize sels. generalize grad_in.
  induction 1 as [|t ps ts ss Hs _ IH]; [done|].
  cbn [zip_with concat map]. rewrite length_app, IH.
  change (sum_list (size t :: map size ts))
    with (size t + sum_list (map size ts))%nat.
  unfold picked. rewrite length_map. f_equal. apply Hs.
Qed.

Lemma positions_total :
  length (concat (map (map Z.of_nat) sels)) = sum_list (map size grad_in).
Proof.
  clear -Hsel. revert Hsel. generalize sels. generalize grad_in.
  induction 1 as [|t ps ts ss Hs _ IH]; [done|].
  cbn [concat map]. rewrite length_app, IH.
  change (sum_list (size t :: map size ts))
    with (size t + sum_list (map size ts))%nat.
  rewrite length_map. f_equal. apply Hs.
Qed.

Lemma TopK_fill :
  foldM (fill_body topk compression)
        (zip grad_in (zip (start_idx (map size grad_in)) (end_idx (map size grad_in))))
        (replicate (sum_list (map size grad_in)) 0%Q,
         replicate (sum_list (map size grad_in)) 0%Z)
  = Ok (concat (zip_with picked grad_in sels), concat (map (map Z.of_nat) sels)).
Proof.
  rewrite bounds_start_end.
  apply (fill_loop topk compression grad_in sels Hsel [] []);
    [done|by rewrite length_replicate..].
Qed.

Lemma TopK_memory :
  map vshape memory_out = map vshape grad_in →
  zip_update (memory_body (concat (map (map Z.of_nat) sels)))
             (zip grad_in (zip (start_idx (map size grad_in))
                               (end_idx (map size grad_in)))) memory_out
  = Ok (zip_with (fun t ps => VTensor (vshape t) (zero_at ps (vdata t)))
                 grad_in sels).
Proof.
  intros Hm. rewrite bounds_start_end.
  by apply (memory_loop topk compression grad_in sels Hsel memory_out []).
Qed.

(** With any number of workers: what a returning run has put in the
    memories, counted as bits and sent over the wire. *)
Lemma TopK_returns outs mems bits tr :
  map vshape memory_out = map vshape grad_in →
  run (TopKReducer_reduce topk net compression grad_in grad_out memory_out)
  = Ok (outs, mems, bits, tr) →
  mems = zip_with (fun t ps => VTensor (vshape t) (zero_at ps (vdata t)))
                  grad_in sels
  ∧ bits = (n_bits (sum_list (map size grad_in)) float32_size
            + n_bits (sum_list (map size grad_in)) int32_size)%Z
  ∧ tr = if decide (1 < n_workers net)%nat
         then [Event AllGather (sum_list (map size grad_in)) float32_size;
               Event AllGather (sum_list (map size grad_in)) int32_size]
         else [].
Proof.
  intros Hm. unfold run, TopKReducer_reduce. intros H.
  step_lift H. rewrite TopK_fill in Hstep. injection Hstep as <-.
  step_lift H. rewrite TopK_memory in Hstep by done. injection Hstep as <-.
  step_M H. destruct a as [wv wp]. step_lift H.
  rewrite picked_total, positions_total in H.
  apply mret_inv in H. injection H as _ <- <- <-.
  split; [done|]. split; [done|].
  destruct (decide (1 < n_workers net)%nat) as [Hn|Hn].
  - unfold all_gather in Hstep. rewrite !decide_True in Hstep by done.
    step_M_in Hstep as Hg1. step_M_in Hstep as Hg2. apply mret_inv in Hstep.
    injection Hstep as _ _ <-.
    unfold dist_all_gather in Hg1, Hg2.
    injection Hg1 as _ <-. injection Hg2 as _ <-.
    simpl. by rewrite picked_total, positions_total.
  - apply mret_inv in Hstep. by injection Hstep as _ _ <-.
Qed.

(** With one worker the run returns, and this is what it returns. *)
Lemma TopK_single :
  n_workers net = 1%nat →
  map vshape memory_out = map vshape grad_in →
  Forall2 (fun out t => length (vdata out) = length (vdata t)) grad_out grad_in →
  run (TopKReducer_reduce topk net compression grad_in grad_out memory_out)
  = Ok (zip_with (fun '(t, ps) out =>
                    VTensor (vshape out)
                      (added_at ps (map (div_workers 1) (picked t ps))
                                (map (fun _ => 0%Q) (vdata out))))
                 (zip grad_in sels) grad_out,
        zip_with (fun t ps => VTensor (vshape t) (zero_at ps (vdata t)))
                 grad_in sels,
        (n_bits (sum_list (map size grad_in)) float32_size
         + n_bits (sum_list (map size grad_in)) int32_size)%Z,
        []).
Proof.
  intros Hn Hm Hout. unfold run, TopKReducer_reduce.
  unfold mbind at 1, M_bind at 1, lift at 1. rewrite TopK_fill.
  unfold mbind at 1, M_bind at 1, lift at 1. rewrite TopK_memory by done.
  rewrite decide_False by lia.
  unfold mbind at 1, M_bind at 1, mret at 1, M_ret at 1.
  unfold mbind at 1, M_bind at 1, lift at 1.
  rewrite bounds_start_end.
  pose proof (combine_loop_single topk net compression grad_in sels Hsel
                grad_out [] _ [] _ Hout eq_refl eq_refl eq_refl) as Hc.
  cbn [app length] in Hc. rewrite Hc.
  unfold mret, M_ret. rewrite picked_total, positions_total, Hn. done.
Qed.

End TopKReduce.

Lemma top_size_floor (compression : Q) (t : vtensor Q) :
  top_size compression t
  = Z.to_nat (Z.max 1 (Qfloor ((1 # 2) * compression
                               * inject_Z (Z.of_nat (vnelement t))))).
Proof.
  unfold top_size, int_of_float, Qfloor. f_equal.
  destruct ((1 # 2) * compression * inject_Z (Z.of_nat (vnelement t)))%Q
    as [num den]. cbn [Qnum Qden].
  destruct (Z_lt_le_dec num 0) as [Hneg|Hpos].
  - assert (num ÷ Z.pos den ≤ 0)%Z by (apply Z.quot_le_upper_bound; lia).
    assert (num / Z.pos den < 0)%Z by (apply Z.div_lt_upper_bound; lia).
    lia.
  - by rewrite Z.quot_div_nonneg by lia.
Qed.

Lemma added_at_lookup (ps : list nat) (vals data : list Q) :
  NoDup ps → Forall (fun p => p < length data)%nat ps →
  length vals = length ps →
  (∀ k p v, ps !! k = Some p → vals !! k = Some v →
            added_at ps vals (map (fun _ => 0%Q) data) !! p = Some (0 + v)%Q)
  ∧ (∀ j, j ∉ ps → (j < length data)%nat →
          added_at ps vals (map (fun _ => 0%Q) data) !! j = Some 0%Q).
Proof.
  intros Hnd Hlt Hlen. unfold added_at.
  set (zeros := map (fun _ => 0%Q) data).
  set (ivs := zip ps (zip_with Qplus (map (fun i => nth i zeros 0%Q) ps) vals)).
  assert (length (zip_with Qplus (map (fun i => nth i zeros 0%Q) ps) vals)
          = length ps) as Hl.
  { rewrite length_zip_with, length_map. lia. }
  assert (map fst ivs = ps) as Hfst.
  { unfold ivs. apply fst_zip. lia. }
  assert (∀ i, nth i zeros 0%Q = 0%Q) as Hz.
  { intros i. unfold zeros. rewrite nth_lookup.
    change (map ?f ?l) with (fmap f l). rewrite list_lookup_fmap.
    by destruct (data !! i). }
  split.
  - intros k p v Hp Hv.
    apply (scatter_lookup_in ivs zeros k).
    + by rewrite Hfst.
    + unfold ivs. rewrite lookup_zip_with, Hp. cbn [mbind option_bind].
      rewrite lookup_zip_with.
      change (map ?f ?l) with (fmap f l). rewrite list_lookup_fmap, Hp.
      cbn [fmap option_fmap option_map mbind option_bind]. rewrite Hv.
      cbn [mbind option_bind]. by rewrite Hz.
    + unfold zeros. rewrite length_map.
      rewrite Forall_forall in Hlt. apply Hlt. by eapply list_elem_of_lookup_2.
  - intros j Hj Hjl. rewrite scatter_lookup_notin by (by rewrite Hfst).
    unfold zeros. change (map ?f ?l) with (fmap f l).
    rewrite list_lookup_fmap.
    destruct (lookup_lt_is_Some_2 data j Hjl) as [x ->]. done.
Qed.

Lemma TopK_outputs
    (topk : list Q → nat → result (list nat)) (net : network Q) (compression : Q)
    (grad_in grad_out memory_out : list (vtensor Q)) (sels : list (list nat)) :
  Forall2 (fun t ps => topk_selects topk (map Qabs (vdata t))
                                    (top_size compression t) ps) grad_in sels →
  map vshape memory_out = map vshape grad_in →
  Forall2 (fun out t => vshape out = vshape t
                        ∧ length (vdata out) = length (vdata t)) grad_out grad_in →
  (∀ outs mems bits tr,
       run (TopKReducer_reduce topk net compression grad_in grad_out memory_out)
       = Ok (outs, mems, bits, tr) →
       ∀ i t ps, grad_in !! i = Some t → sels !! i = Some ps →
         ∃ mem, mems !! i = Some mem ∧ vshape mem = vshape t
                ∧ ∀ j x, vdata t !! j = Some x →
                    vdata mem !! j = Some (if decide (j ∈ ps) then 0%Q else x))
  ∧ (n_workers net = 1%nat →
     ∃ outs mems bits,
       run (TopKReducer_reduce topk net compression grad_in grad_out memory_out)
       = Ok (outs, mems, bits, [])
       ∧ ∀ i t ps, grad_in !! i = Some t → sels !! i = Some ps →
           ∃ out, outs !! i = Some out ∧ vshape out = vshape t
                  ∧ ∀ j x, vdata t !! j = Some x →
                      ∃ y, vdata out !! j = Some y
                           ∧ (j ∈ ps → (y == x)%Q)
                           ∧ (j ∉ ps → y = 0%Q)).
Proof.
  intros Hsel Hmem Hout. split.
  - intros outs mems bits tr Hrun i t ps Ht Hps.
    destruct (TopK_returns topk net compression grad_in grad_out memory_out
                sels Hsel outs mems bits tr Hmem Hrun) as (-> & _).
    eexists. split; [by rewrite lookup_zip_with, Ht; simpl; rewrite Hps|].
    split; [done|]. intros j x Hx. by apply zero_at_lookup.
  - intros Hn. do 3 eexists. split.
    { apply (TopK_single topk net compression grad_in grad_out memory_out sels
               Hsel Hn Hmem).
      eapply Forall2_impl; [exact Hout|]. by intros ? ? [_ ?]. }
    intros i t ps Ht Hps.
    destruct (Forall2_lookup_r _ _ _ _ _ Hout Ht) as (out & Ho & Hshape & Hlen).
    eexists. split.
    { rewrite lookup_zip_with, lookup_zip_with, Ht. simpl. rewrite Hps. simpl.
      rewrite Ho. reflexivity. }
    split; [done|]. intros j x Hx. cbn [vdata].
    destruct (Forall2_lookup_l _ _ _ _ _ Hsel Ht) as (ps' & Hps' & Hs).
    rewrite Hps in Hps'. injection Hps' as <-.
    destruct Hs as (_ & Hk & Hnd & Hlt & _). rewrite length_map in Hlt.
    destruct (added_at_lookup ps (map (div_workers 1) (picked t ps)) (vdata out))
      as [Hin Hnotin]; [done|by rewrite Hlen|
                        by unfold picked; rewrite !length_map|].
    assert (j < length (vdata out))%nat as Hj
      by (rewrite Hlen; by eapply lookup_lt_Some).
    destruct (decide (j ∈ ps)) as [Hjin|Hjout].
    + apply list_elem_of_lookup in Hjin as [k Hk'].
      eexists. split.
      { apply (Hin k); [done|]. unfold picked.
        change (map ?f ?l) with (fmap f l).
        rewrite !list_lookup_fmap, Hk'. simpl.
        by rewrite (nth_lookup_Some _ _ _ _ Hx). }
      split; [|intros Hc; destruct Hc; by eapply list_elem_of_lookup_2].
      intros _. unfold div_workers. simpl. field.
    + exists 0%Q. split; [by apply Hnotin|]. split; [done|done].
Qed.


Lemma sample_selection :
  Forall2 (fun t ps => topk_selects topk_ref (map Qabs (vdata t))
                                    (top_size (1 # 244) t) ps)
          sample_grad [[1%nat]; [1%nat]].
Proof.
  assert (∀ (a b : Q), (a <= b)%Q →
            ∀ p q x y, p ∈ [1%nat] → q ∉ [1%nat] →
              [a; b] !! p = Some x → [a; b] !! q = Some y → (y <= x)%Q) as Hmax.
  { intros a b Hab p q x y ->%list_elem_of_singleton Hq [= <-] Hy.
    destruct q as [|[|q]]; simpl in Hy; try done.
    - by injection Hy as <-.
    - destruct Hq. by apply list_elem_of_singleton. }
  constructor; [|constructor; [|constructor]].
  - split_and!; [reflexivity|reflexivity|apply NoDup_singleton| |].
    + repeat constructor.
    + apply (Hmax 2 3)%Q. discriminate.
  - split_and!; [reflexivity|reflexivity|apply NoDup_singleton| |].
    + repeat constructor.
    + apply (Hmax 0 5)%Q. discriminate.
Qed.





(** ** Bits *)

Lemma n_bits_nonneg (n : nat) (size : Z) : (0 ≤ size)%Z → (0 ≤ n_bits n size)%Z.
Proof. unfold n_bits. nia. Qed.

Lemma compress_length (x packed : vtensor Q) (packed' : vtensor Z) size :
  SignCompressor.compress x = Ok (packed', size) →
  length (vdata packed') = words (length (vdata x)).
Proof.
  unfold SignCompressor.compress, SignCompressor.packing. intros H.
  apply result_bind_inv in H as ([c rows] & Hv & H). injection H as <- _.
  cbn [vdata]. unfold bit2byte.packing. rewrite length_map, length_seq.
  unfold SignCompressor.view_32 in Hv.
  case_decide; [done|]. case_decide; [|done]. injection Hv as <- _.
  unfold words. by rewrite length_app, length_map, length_replicate.
Qed.

Lemma vinit_buffer {A} (ts : list (vtensor A)) tb :
  TensorBuffer.init ts = Ok tb → TensorBuffer.buffer tb = concat (map vdata ts).
Proof. destruct ts; [done|]. by intros [= <-]. Qed.

Lemma gather_signs_returns (net : network Q) grad_in tb flatsigns bits tr :
  gather_signs net grad_in [] = Ok (tb, flatsigns, bits, tr) →
  let w := words (length (concat (map vdata grad_in))) in
  bits = n_bits w int32_size
  ∧ tr = if decide (1 < n_workers net)%nat
         then [Event AllGather w int32_size] else [].
Proof.
  unfold gather_signs. intros H.
  step_lift H. pose proof (vinit_buffer _ _ Hstep) as Hbuf.
  step_lift H. destruct x0 as [my_bits sign_size].
  pose proof (compress_length _ (VTensor [] []) _ _ Hstep0) as Hw.
  cbn [vdata] in Hw. rewrite Hbuf in Hw.
  step_M_in H as Hg. step_lift H.
  apply mret_inv in H. injection H as _ _ Hb Htr. subst bits tr.
  rewrite Hw. split; [done|].
  destruct (decide (1 < n_workers net)%nat) as [Hn|Hn].
  - unfold all_gather in Hg. rewrite decide_True in Hg by done.
    unfold dist_all_gather in Hg. injection Hg as _ Htr. subst tr0.
    simpl. by rewrite Hw.
  - apply mret_inv in Hg. injection Hg as _ Htr. by subst tr0.
Qed.

Lemma sum_dim0_length (rows : list (list Q)) (n : nat) summed :
  Forall (fun r => length r = n) rows →
  sum_dim0 Qplus rows = Ok summed → length summed = n.
Proof.
  destruct rows as [|r rs]; [done|].
  intros [Hr Hrs]%Forall_cons [= <-].
  revert r Hr. induction Hrs as [|r' rs Hr' _ IH]; intros r Hr; [done|].
  simpl. apply IH. rewrite length_zip_with. lia.
Qed.

Section BitsReturned.
Context (net : network Q) (grad_in grad_out memory_out : list (vtensor Q)).

Lemma Exact_returns size outs mems bits tr :
  (0 ≤ size)%Z →
  (∀ k mine, Forall (fun r => length r = length mine) (gather_float net k mine)) →
  run (ExactReducer_reduce net size grad_in grad_out memory_out)
  = Ok (outs, mems, bits, tr) →
  (0 ≤ bits)%Z ∧ bits = trace_bits tr
  ∧ tr = if decide (n_workers net = 1%nat) then []
         else [Event AllReduce (length (concat (map vdata grad_in))) size].
Proof.
  intros Hsize Hnet. unfold run, ExactReducer_reduce, reduce_mean_list. intros H.
  step_M H. destruct a as [os b].
  apply mret_inv in H. injection H as _ _ <- <-.
  destruct (decide (n_workers net = 1%nat)) as [Hn|Hn].
  - step_lift Hstep. apply mret_inv in Hstep.
    injection Hstep as _ Hb Htr. subst bits tr. done.
  - step_lift Hstep. pose proof (vinit_buffer _ _ Hstep0) as Hbuf.
    step_M_in Hstep as Hred. step_lift Hstep.
    apply mret_inv in Hstep. injection Hstep as _ Hb Htr. subst bits tr.
    unfold dist_all_reduce in Hred. simpl in Hred.
    destruct (sum_dim0 Qplus (gather_float net 0 (TensorBuffer.buffer x)))
      as [summed|] eqn:Hsum; [|done].
    injection Hred as Ha Htr. subst a tr0.
    apply (sum_dim0_length _ (length (TensorBuffer.buffer x))) in Hsum;
      [|apply Hnet].
    unfold TensorBuffer.bits, TensorBuffer.nelement. cbn [TensorBuffer.buffer
      TensorBuffer.set_buffer].
    rewrite length_map, Hsum, Hbuf. unfold trace_bits, event_bits, n_bits.
    simpl. split_and!; [nia|lia|done].
Qed.

Lemma Sign_returns outs mems bits tr :
  run (SignReducer_reduce net grad_in grad_out memory_out)
  = Ok (outs, mems, bits, tr) →
  let w := words (length (concat (map vdata grad_in))) in
  (0 ≤ bits)%Z ∧ bits = trace_bits [Event AllGather w int32_size]
  ∧ tr = if decide (1 < n_workers net)%nat
         then [Event AllGather w int32_size] else [].
Proof.
  unfold run, SignReducer_reduce. intros H.
  step_M_in H as Hg. destruct a as [[tb fs] b].
  step_lift H. step_lift H. step_lift H.
  apply mret_inv in H. injection H as _ _ <- <-.
  apply gather_signs_returns in Hg as [-> ->].
  split_and!; [by apply n_bits_nonneg|
               unfold trace_bits, event_bits; simpl; lia|done].
Qed.

Lemma MajorityVote_returns outs mems bits tr :
  run (SignSGDwithMajorityVoteReducer_reduce net grad_in grad_out memory_out)
  = Ok (outs, mems, bits, tr) →
  let w := words (length (concat (map vdata grad_in))) in
  (0 ≤ bits)%Z ∧ bits = trace_bits [Event AllGather w int32_size]
  ∧ tr = if decide (1 < n_workers net)%nat
         then [Event AllGather w int32_size] else [].
Proof.
  unfold run, SignSGDwithMajorityVoteReducer_reduce. intros H.
  step_M_in H as Hg. destruct a as [[tb fs] b].
  step_lift H. step_lift H.
  apply mret_inv in H. injection H as _ _ <- <-.
  apply gather_signs_returns in Hg as [-> ->].
  split_and!; [by apply n_bits_nonneg|
               unfold trace_bits, event_bits; simpl; lia|done].
Qed.

End BitsReturned.


Lemma sample_topk_run :
  ∃ outs mems bits,
    run (TopKReducer_reduce topk_ref single (1 # 244)
           sample_grad sample_out sample_out)
    = Ok (outs, mems, bits, []).
Proof. do 3 eexists. vm_compute. reflexivity. Defined.



(** ** Orthogonalisation: the loop is the single left-to-right pass *)

Section OrthRefinement.
Import Orth.
Local Open Scope R_scope.
Context (eps : R) (m : nat).

Local Abbreviation cols_of := (transpose 0 m).
Local Abbreviation rect := (Forall (fun row : list R => length row = m)).

Lemma column_map (g : list R → list R) (M : list (list R)) j :
  column 0 j (map g M) = map (fun row => nth j (g row) 0) M.
Proof. unfold column. by rewrite map_map. Qed.

Lemma column_normalize M i j :
  rect M → (i < m)%nat →
  column 0 j (normalize_column eps i M)
  = if decide (j = i)
    then map (fun x => x / (l2norm (column 0 i M) + eps)) (column 0 i M)
    else column 0 j M.
Proof.
  intros HM Hi. unfold normalize_column. rewrite column_map.
  case_decide as Hj.
  - subst j. unfold column. rewrite map_map.
    apply map_ext_Forall. eapply Forall_impl; [exact HM|].
    intros row Hrow. simpl in Hrow. simpl. rewrite nth_lookup.
    rewrite list_lookup_insert_eq by lia. done.
  - unfold column. apply map_ext. intros row.
    rewrite !nth_lookup. by rewrite list_lookup_insert_ne.
Qed.

Lemma column_project M i j :
  rect M → (j < m)%nat →
  column 0 j (project_rest i M)
  = if decide (i < j)%nat then project (column 0 i M) (column 0 j M)
    else column 0 j M.
Proof.
  intros HM Hj. unfold project_rest. rewrite column_map.
  case_decide as Hij.
  - unfold project. set (s := vdot (column 0 i M) (column 0 j M)).
    assert (∀ j0, (i < j0)%nat → j0 = j →
              dot 0 Rplus Rmult (column 0 i M) (column 0 j0 M) = s) as Hs
      by (by intros ? _ ->).
    unfold column in *. change (map ?f ?l) with (fmap f l).
    rewrite zip_with_fmap_l, zip_with_fmap_r, zip_with_diag.
    apply map_ext_Forall. eapply Forall_impl; [exact HM|].
    intros row Hrow. simpl in Hrow. simpl. rewrite (nth_lookup (imap _ _)).
    rewrite list_lookup_imap.
    destruct (lookup_lt_is_Some_2 row j ltac:(lia)) as [x Hx].
    rewrite Hx. simpl. rewrite decide_True by done.
    rewrite (nth_lookup_Some _ _ _ _ Hx). by rewrite (Hs j Hij eq_refl).
  - unfold column. apply map_ext_Forall. eapply Forall_impl; [exact HM|].
    intros row Hrow. simpl in Hrow. simpl. rewrite (nth_lookup (imap _ _)).
    rewrite list_lookup_imap.
    destruct (lookup_lt_is_Some_2 row j ltac:(lia)) as [x Hx].
    rewrite Hx. simpl. rewrite decide_False by done.
    by rewrite (nth_lookup_Some _ _ _ _ Hx).
Qed.

Lemma normalize_rect M i : rect M → rect (normalize_column eps i M).
Proof.
  intros HM. unfold normalize_column. apply Forall_map.
  eapply Forall_impl; [exact HM|]. intros row Hrow. simpl in Hrow. simpl.
  by rewrite length_insert.
Qed.

Lemma project_rect M i : rect M → rect (project_rest i M).
Proof.
  intros HM. unfold project_rest. apply Forall_map.
  eapply Forall_impl; [exact HM|]. intros row Hrow. simpl in Hrow. simpl.
  by rewrite length_imap.
Qed.

Lemma step_rect M i : rect M → rect (orthogonalize_step eps m i M).
Proof.
  intros HM. unfold orthogonalize_step.
  case_decide; [apply project_rect|]; by apply normalize_rect.
Qed.

Lemma cols_of_lookup M j :
  (j < m)%nat → cols_of M !! j = Some (column 0 j M).
Proof.
  intros Hj. unfold transpose. change (map ?f ?l) with (fmap f l).
  by rewrite list_lookup_fmap, lookup_seq_lt.
Qed.

Lemma cols_of_length M : length (cols_of M) = m.
Proof. unfold transpose. by rewrite length_map, length_seq. Qed.

Lemma column_step M i j :
  rect M → (i < m)%nat → (j < m)%nat →
  column 0 j (orthogonalize_step eps m i M)
  = let q := map (fun x => x / (l2norm (column 0 i M) + eps)) (column 0 i M) in
    if decide (j < i)%nat then column 0 j M
    else if decide (j = i) then q
    else project q (column 0 j M).
Proof.
  intros HM Hi Hj. unfold orthogonalize_step. cbv zeta.
  pose proof (normalize_rect M i HM) as HM1.
  assert (column 0 i (normalize_column eps i M)
          = map (fun x => x / (l2norm (column 0 i M) + eps)) (column 0 i M))
    as Hq by (rewrite column_normalize by done; by rewrite decide_True).
  destruct (decide (i + 1 < m)%nat) as [Hlast|Hlast].
  - rewrite column_project by done. rewrite Hq.
    destruct (decide (i < j)%nat) as [Hij|Hij].
    + rewrite decide_False by lia. rewrite decide_False by lia.
      rewrite column_normalize by done. by rewrite decide_False by lia.
    + rewrite column_normalize by done.
      destruct (decide (j = i)) as [->|Hne].
      * by rewrite decide_False by lia.
      * by rewrite decide_True by lia.
  - rewrite column_normalize by done.
    destruct (decide (j = i)) as [->|Hne].
    + by rewrite decide_False by lia.
    + by rewrite decide_True by lia.
Qed.

Lemma step_cols M i done c rest :
  rect M → cols_of M = done ++ c :: rest → length done = i →
  cols_of (orthogonalize_step eps m i M)
  = done ++ map (fun x => x / (l2norm c + eps)) c
         :: map (project (map (fun x => x / (l2norm c + eps)) c)) rest.
Proof.
  intros HM Hcols Hlen.
  assert (m = (i + S (length rest))%nat) as Hm.
  { rewrite <- (cols_of_length M), Hcols, length_app. simpl. lia. }
  assert (column 0 i M = c) as Hc.
  { assert (cols_of M !! i = Some c) as H.
    { rewrite Hcols, lookup_app_r by lia.
      by replace (i - length done)%nat with 0%nat by lia. }
    rewrite cols_of_lookup in H by lia. by injection H. }
  apply list_eq. intros j.
  destruct (decide (j < m)%nat) as [Hj|Hj].
  2:{ rewrite !lookup_ge_None_2; [done|..].
      - rewrite length_app. simpl. rewrite length_map. lia.
      - rewrite cols_of_length. lia. }
  rewrite cols_of_lookup by done. rewrite column_step by (done || lia).
  cbv zeta.
  rewrite Hc.
  assert (cols_of M !! j = Some (column 0 j M)) as Hjc
    by (by apply cols_of_lookup).
  rewrite Hcols in Hjc.
  destruct (decide (j < i)%nat) as [Hji|Hji].
  - rewrite lookup_app_l in Hjc by lia. by rewrite lookup_app_l by lia.
  - rewrite lookup_app_r in Hjc by lia. rewrite lookup_app_r by lia.
    destruct (decide (j = i)) as [->|Hne].
    + by replace (i - length done)%nat with 0%nat by lia.
    + replace (j - length done)%nat with (S (j - i - 1)) in * by lia.
      simpl in *. change (map ?f ?l) with (fmap f l).
      rewrite list_lookup_fmap, Hjc. done.
Qed.

Lemma fold_cols (k : nat) :
  ∀ M i done rest,
    rect M → cols_of M = done ++ rest → length done = i → length rest = k →
    cols_of (fold_left (fun matrix i => orthogonalize_step eps m i matrix)
                       (seq i k) M)
    = done ++ mgs eps rest.
Proof.
  induction k as [|k IH]; intros M i done rest HM Hcols Hlen Hk.
  - destruct rest; [|done]. simpl. by rewrite Hcols, mgs_equation_1.
  - destruct rest as [|c rest]; [done|]. cbn [seq fold_left].
    rewrite (IH _ (S i)
               (done ++ [map (fun x => x / (l2norm c + eps)) c])
               (map (project (map (fun x => x / (l2norm c + eps)) c)) rest)).
    + rewrite mgs_equation_2. cbv zeta. by rewrite <- app_assoc.
    + by apply step_rect.
    + rewrite (step_cols M i done c rest) by done. by rewrite <- app_assoc.
    + rewrite length_app. simpl. lia.
    + rewrite length_map. simpl in Hk. lia.
Qed.

Lemma orthogonalize_is_mgs M :
  rect M → cols_of (orthogonalize eps m M) = mgs eps (cols_of M).
Proof.
  intros HM. unfold orthogonalize.
  apply (fold_cols m M 0%nat [] (cols_of M)); try done.
  apply cols_of_length.
Qed.

End OrthRefinement.

(** ** Orthogonalisation: what the pass achieves in exact arithmetic *)

Section VectorFacts.
Import Orth.
Local Open Scope R_scope.

Lemma vdot_nil_l b : vdot [] b = 0.
Proof. done. Qed.

Lemma vdot_nil_r a : vdot a [] = 0.
Proof. by destruct a. Qed.

Lemma vdot_cons x a y b : vdot (x :: a) (y :: b) = x * y + vdot a b.
Proof. done. Qed.

Lemma vdot_comm a b : vdot a b = vdot b a.
Proof.
  revert b. induction a as [|x a IH]; intros [|y b]; try done.
  rewrite !vdot_cons, IH. ring.
Qed.

Lemma vdot_scale_l (d : R) c r :
  vdot (map (fun x => x / d) c) r = vdot c r / d.
Proof.
  revert r. induction c as [|x c IH]; intros [|y r]; simpl;
    rewrite ?vdot_nil_l, ?vdot_nil_r; try (unfold Rdiv; ring).
  rewrite !vdot_cons, IH. unfold Rdiv. ring.
Qed.

Lemma vdot_scale_r (d : R) c r :
  vdot r (map (fun x => x / d) c) = vdot r c / d.
Proof. by rewrite vdot_comm, vdot_scale_l, vdot_comm. Qed.

Lemma vdot_project u q r :
  length r = length q →
  vdot u (project q r) = vdot u r - vdot q r * vdot u q.
Proof.
  unfold project. generalize (vdot q r) as s. intros s.
  revert q r. induction u as [|x u IH]; intros q r Hlen.
  { rewrite !vdot_nil_l. ring. }
  destruct r as [|y r], q as [|z q]; try done.
  { simpl. rewrite !vdot_nil_r. ring. }
  simpl. rewrite !vdot_cons, IH by (simpl in Hlen; lia). ring.
Qed.

Lemma project_length q r : length r = length q → length (project q r) = length r.
Proof. intros H. unfold project. rewrite length_zip_with. lia. Qed.

Lemma sum_squares_nonneg c : 0 <= Rtotal (map (fun x => x ^ 2) c).
Proof.
  unfold Rtotal, total. induction c as [|x c IH]; simpl in *; [lra|]. nra.
Qed.

Lemma vdot_self c : vdot c c = Rtotal (map (fun x => x ^ 2) c).
Proof.
  induction c as [|x c IH]; [done|].
  rewrite vdot_cons, IH. unfold Rtotal, total. simpl. ring.
Qed.

Lemma l2norm_nonneg c : 0 <= l2norm c.
Proof. apply sqrt_pos. Qed.

Lemma l2norm_square c : l2norm c * l2norm c = vdot c c.
Proof.
  unfold l2norm. rewrite sqrt_sqrt by apply sum_squares_nonneg.
  by rewrite vdot_self.
Qed.

Lemma l2norm_zero c : l2norm c = 0 → c = replicate (length c) 0.
Proof.
  intros H. assert (vdot c c = 0) as Hd by (rewrite <- l2norm_square, H; ring).
  clear H. induction c as [|x c IH]; [done|].
  rewrite vdot_cons in Hd.
  pose proof (sum_squares_nonneg c) as Hc. rewrite <- vdot_self in Hc.
  assert (x = 0) as -> by nra. simpl. f_equal. apply IH. nra.
Qed.

End VectorFacts.

Section MgsFacts.
Import Orth.
Local Open Scope R_scope.

Lemma mgs_cons eps c rest :
  mgs eps (c :: rest)
  = map (fun x => x / (l2norm c + eps)) c
    :: mgs eps (map (project (map (fun x => x / (l2norm c + eps)) c)) rest).
Proof. by rewrite mgs_equation_2. Qed.

Lemma mgs_length eps : ∀ cols, length (mgs eps cols) = length cols.
Proof.
  intros cols. remember (length cols) as k eqn:Hk. revert cols Hk.
  induction k as [|k IH]; intros [|c rest] Hk; try done.
  rewrite mgs_cons. simpl. f_equal. apply IH.
  rewrite length_map. simpl in Hk. lia.
Qed.

Lemma mgs_Forall_length eps n :
  ∀ cols, Forall (fun c => length c = n) cols →
          Forall (fun q => length q = n) (mgs eps cols).
Proof.
  intros cols. remember (length cols) as k eqn:Hk. revert cols Hk.
  induction k as [|k IH]; intros [|c rest] Hk Hlen; try done.
  rewrite mgs_cons. inversion Hlen as [|? ? Hc Hrest]; subst.
  constructor; [by rewrite length_map|].
  apply IH; [rewrite length_map; simpl in Hk; lia|].
  apply List.Forall_map. eapply Forall_impl; [exact Hrest|].
  intros r Hr. simpl. rewrite project_length; rewrite ?length_map; congruence.
Qed.

Lemma mgs_orthogonal_to eps u n :
  ∀ cols, Forall (fun r => length r = n ∧ vdot u r = 0) cols →
          Forall (fun q => vdot u q = 0) (mgs eps cols).
Proof.
  intros cols. remember (length cols) as k eqn:Hk. revert cols Hk.
  induction k as [|k IH]; intros [|c rest] Hk Hall; try done.
  rewrite mgs_cons. inversion Hall as [|? ? [Hc Huc] Hrest]; subst.
  constructor.
  { rewrite vdot_scale_r, Huc. unfold Rdiv. ring. }
  apply IH; [rewrite length_map; simpl in Hk; lia|].
  apply List.Forall_map. eapply Forall_impl; [exact Hrest|].
  intros r [Hr Hur]. simpl. split.
  - rewrite project_length; rewrite ?length_map; congruence.
  - rewrite vdot_project by (rewrite length_map; congruence).
    rewrite Hur, vdot_scale_r, Huc. unfold Rdiv. ring.
Qed.

Lemma mgs_norm_below_one eps :
  0 < eps → ∀ cols, Forall (fun q => vdot q q < 1) (mgs eps cols).
Proof.
  intros Heps cols. remember (length cols) as k eqn:Hk. revert cols Hk.
  induction k as [|k IH]; intros [|c rest] Hk; try done.
  rewrite mgs_cons. constructor.
  2:{ apply IH. rewrite length_map. simpl in Hk. lia. }
  rewrite vdot_scale_l, vdot_scale_r, <- l2norm_square.
  pose proof (l2norm_nonneg c) as Hn.
  set (v := l2norm c) in *. set (d := v + eps).
  assert (0 < d) as Hd by (unfold d; lra).
  assert (v * v / d / d = (v / d) * (v / d)) as -> by (field; lra).
  assert (v / d * d = v) as Ht by (field; lra).
  set (t := v / d) in *.
  destruct (Rlt_le_dec t 1) as [H1|H1], (Rlt_le_dec (-1) t) as [H2|H2];
    unfold d in *; nra.
Qed.

End MgsFacts.

Section RankFacts.
Import Orth.
Local Open Scope R_scope.

Lemma nth_replicate_zero k n : nth k (replicate n 0) 0 = 0.
Proof. revert k. induction n as [|n IH]; intros [|k]; simpl; auto. Qed.

Lemma nth_zip_with_lt {A B C} (f : A → B → C) a b k da db dc :
  (k < length a)%nat → (k < length b)%nat →
  nth k (zip_with f a b) dc = f (nth k a da) (nth k b db).
Proof.
  revert a b. induction k as [|k IH]; intros [|x a] [|y b] Ha Hb;
    simpl in *; try lia; [done|].
  apply IH; lia.
Qed.

Lemma nth_map_lt {A B} (f : A → B) l k da db :
  (k < length l)%nat → nth k (map f l) db = f (nth k l da).
Proof.
  revert l. induction k as [|k IH]; intros [|x l] Hk; simpl in *; try lia;
    [done|].
  apply IH. lia.
Qed.

Lemma lincomb_length n a cols :
  Forall (fun c => length c = n) cols → length (lincomb n a cols) = n.
Proof.
  intros Hlen. revert a. induction Hlen as [|c cols Hc _ IH]; intros [|x a];
    simpl; rewrite ?length_replicate; try done.
  rewrite length_zip_with, length_map, IH. lia.
Qed.

Lemma lincomb_nth n a cols k :
  Forall (fun c => length c = n) cols → (k < n)%nat →
  nth k (lincomb n a cols) 0 = vdot a (map (fun c => nth k c 0) cols).
Proof.
  intros Hlen Hk. revert a. induction Hlen as [|c cols Hc Hcols IH];
    intros [|x a]; simpl; rewrite ?nth_replicate_zero, ?vdot_nil_l, ?vdot_nil_r;
    try done.
  rewrite vdot_cons.
  rewrite (nth_zip_with_lt _ _ _ _ 0 0)
    by (rewrite ?length_map, ?lincomb_length; (done || lia)).
  rewrite (nth_map_lt _ _ _ 0) by lia. by rewrite IH.
Qed.

Lemma vdot_zero_l k b : vdot (replicate k 0) b = 0.
Proof.
  revert b. induction k as [|k IH]; intros [|y b]; simpl;
    rewrite ?vdot_nil_l, ?vdot_nil_r; try done.
  rewrite vdot_cons, IH. ring.
Qed.

Lemma nth_project q r k :
  length r = length q → (k < length r)%nat →
  nth k (project q r) 0 = nth k r 0 - vdot q r * nth k q 0.
Proof.
  intros Hlen Hk. unfold project.
  by rewrite (nth_zip_with_lt _ _ _ _ 0 0) by lia.
Qed.

Lemma vdot_projected n q rest k :
  Forall (fun r => length r = n) rest → length q = n → (k < n)%nat →
  ∀ a, vdot a (map (fun r => nth k (project q r) 0) rest)
       = vdot a (map (fun r => nth k r 0) rest)
         - vdot a (map (vdot q) rest) * nth k q 0.
Proof.
  intros Hlen Hq Hk. induction Hlen as [|r rest Hr _ IH]; intros [|x a];
    simpl; rewrite ?vdot_nil_l, ?vdot_nil_r; try ring.
  rewrite !vdot_cons, IH, nth_project by lia. ring.
Qed.

Lemma rank_head n c rest : full_column_rank n (c :: rest) → l2norm c ≠ 0.
Proof.
  intros [Hlen Hind] H0. apply l2norm_zero in H0.
  assert (length c = n) as Hc by (by inversion Hlen).
  specialize (Hind (1 :: replicate (length rest) 0)).
  assert (1 = 0); [|lra].
  assert (Forall (fun x => x = 0) (1 :: replicate (length rest) 0)) as H;
    [|by inversion H].
  apply Hind; [simpl; by rewrite length_replicate|].
  apply (nth_ext _ _ 0 0).
  { rewrite lincomb_length, length_replicate; done. }
  intros k Hk. rewrite lincomb_length in Hk by done.
  rewrite lincomb_nth by done. cbn [map]. rewrite vdot_cons, vdot_zero_l.
  rewrite H0, Hc, !nth_replicate_zero. ring.
Qed.

Lemma rank_project n c rest d :
  d ≠ 0 → full_column_rank n (c :: rest) →
  full_column_rank n (map (project (map (fun x => x / d) c)) rest).
Proof.
  intros Hd [Hlen Hind].
  assert (length c = n) as Hc by (by inversion Hlen).
  assert (Forall (fun r => length r = n) rest) as Hrest by (by inversion Hlen).
  set (q := map (fun x => x / d) c).
  assert (length q = n) as Hq by (unfold q; by rewrite length_map).
  assert (Forall (fun r => length r = n) (map (project q) rest)) as Hlen'.
  { apply List.Forall_map. eapply Forall_impl; [exact Hrest|].
    intros r Hr. simpl. rewrite project_length; congruence. }
  split; [done|]. intros a Ha Hz. rewrite length_map in Ha.
  set (β := vdot a (map (vdot q) rest)).
  assert (Forall (fun x => x = 0) ((- β / d) :: a)) as H; [|by inversion H].
  apply Hind; [simpl; lia|].
  apply (nth_ext _ _ 0 0).
  { rewrite lincomb_length, length_replicate; done. }
  intros k Hk. rewrite lincomb_length in Hk by done.
  assert (nth k (lincomb n a (map (project q) rest)) 0 = 0) as Hk0
    by (by rewrite Hz, nth_replicate_zero).
  rewrite lincomb_nth, map_map in Hk0 by done.
  rewrite (vdot_projected n) in Hk0 by done.
  rewrite lincomb_nth, nth_replicate_zero by done. cbn [map].
  rewrite vdot_cons. fold β in Hk0. unfold q in Hk0.
  rewrite (nth_map_lt _ _ _ 0) in Hk0 by lia.
  etransitivity; [|exact Hk0]. field. done.
Qed.

End RankFacts.

Section GramFacts.
Import Orth.
Local Open Scope R_scope.

Lemma mgs_orthonormal n :
  ∀ cols, full_column_rank n cols → orthonormal (mgs 0 cols).
Proof.
  intros cols. remember (length cols) as k eqn:Hk. revert cols Hk.
  induction k as [|k IH]; intros [|c rest] Hk Hrank; try done.
  pose proof (rank_head _ _ _ Hrank) as Hc.
  pose proof (l2norm_nonneg c) as Hpos.
  assert (l2norm c + 0 ≠ 0) as Hd by lra.
  pose proof (rank_project _ _ _ _ Hd Hrank) as Hrank'.
  destruct Hrank as [Hlen _].
  assert (length c = n) as Hcn by (by inversion Hlen).
  assert (Forall (fun r => length r = n) rest) as Hrest by (by inversion Hlen).
  rewrite mgs_cons.
  set (q := map (fun x => x / (l2norm c + 0)) c) in *.
  assert (length q = n) as Hq by (unfold q; by rewrite length_map).
  assert (vdot q q = 1) as Hqq.
  { unfold q. rewrite vdot_scale_l, vdot_scale_r, <- l2norm_square.
    field. lra. }
  assert (Forall (fun q' => vdot q q' = 0) (mgs 0 (map (project q) rest)))
    as Horth.
  { apply (mgs_orthogonal_to 0 q n).
    apply List.Forall_map. eapply Forall_impl; [exact Hrest|].
    intros r Hr. simpl. split.
    - rewrite project_length; congruence.
    - rewrite vdot_project, Hqq by congruence. ring. }
  assert (orthonormal (mgs 0 (map (project q) rest))) as Hrec.
  { apply IH; [rewrite length_map; simpl in Hk; lia|done]. }
  intros [|i] [|j] ci cj Hi Hj; simpl in Hi, Hj;
    try (injection Hi as <-); try (injection Hj as <-).
  - by rewrite decide_True.
  - rewrite decide_False by lia.
    by apply (proj1 (Forall_lookup _ _) Horth j).
  - rewrite decide_False by lia. rewrite vdot_comm.
    by apply (proj1 (Forall_lookup _ _) Horth i).
  - rewrite (Hrec i j ci cj) by done.
    destruct (decide (i = j)), (decide (S i = S j)); (done || lia).
Qed.

Lemma gram_lookup m (M : list (list R)) i :
  (i < m)%nat →
  gram m M !! i
  = Some (map (fun j => vdot (column 0 i M) (column 0 j M)) (seq 0 m)).
Proof.
  intros Hi. unfold gram, matmul.
  change (map ?f (transpose 0 m M)) with (fmap f (transpose 0 m M)).
  by rewrite list_lookup_fmap, cols_of_lookup.
Qed.

Lemma gram_entry m (M : list (list R)) i j :
  (i < m)%nat → (j < m)%nat →
  ∃ row, gram m M !! i = Some row
         ∧ row !! j = Some (vdot (column 0 i M) (column 0 j M)).
Proof.
  intros Hi Hj. eexists. split; [by apply gram_lookup|].
  change (map ?f ?l) with (fmap f l).
  by rewrite list_lookup_fmap, lookup_seq_lt.
Qed.

Lemma gram_identity m (M : list (list R)) :
  orthonormal (transpose 0 m M) → gram m M = identity m.
Proof.
  intros Hon. apply list_eq. intros i.
  destruct (decide (i < m)%nat) as [Hi|Hi].
  2:{ rewrite !lookup_ge_None_2; [done|..].
      - unfold identity. rewrite length_map, length_seq. lia.
      - unfold gram, matmul. rewrite length_map, cols_of_length. lia. }
  rewrite gram_lookup by done. unfold identity.
  change (map ?f (seq 0 m)) with (fmap f (seq 0 m)) at 2.
  rewrite list_lookup_fmap, lookup_seq_lt by done. simpl. f_equal.
  apply map_ext_in. intros j Hj. apply in_seq in Hj.
  apply Hon; apply cols_of_lookup; lia.
Qed.

End GramFacts.




(** ** The low-rank reducer: which tensors go where *)

Section FlaggedFacts.
Context {A : Type}.
Implicit Types (xs : list A) (flags : list bool).

Local Abbreviation flagged_from s flags xs :=
  (map (fun '(i, x, _) => (i, x))
       (filter (fun '(_, _, flag) => flag = true)
               (zip (zip (seq s (length xs)) xs) flags))).

Lemma flagged_from_cons (s : nat) b flags (x : A) xs :
  flagged_from s (b :: flags) (x :: xs)
  = (if b then [(s, x)] else []) ++ flagged_from (S s) flags xs.
Proof. destruct b; reflexivity. Qed.

Lemma flagged_from_nil_flags (s : nat) xs : flagged_from s [] xs = [].
Proof. by destruct xs. Qed.

Lemma flagged_from_elem (s : nat) flags xs i (t : A) :
  (i, t) ∈ flagged_from s flags xs
  ↔ (s ≤ i)%nat ∧ xs !! (i - s)%nat = Some t ∧ flags !! (i - s)%nat = Some true.
Proof.
  revert s flags. induction xs as [|x xs IH]; intros s flags.
  { simpl. split; [by intros ?%elem_of_nil|by intros (_ & ? & _)]. }
  destruct flags as [|b flags].
  { rewrite flagged_from_nil_flags.
    split; [by intros ?%elem_of_nil|by intros (_ & _ & ?)]. }
  rewrite flagged_from_cons, elem_of_app, IH. split.
  - intros [Hhd|(Hle & Hx & Hf)].
    + destruct b; [|by apply elem_of_nil in Hhd].
      apply list_elem_of_singleton in Hhd. injection Hhd as -> ->.
      rewrite Nat.sub_diag. done.
    + replace (i - s)%nat with (S (i - S s)) by lia. split; [lia|done].
  - intros (Hle & Hx & Hf).
    destruct (decide (i = s)) as [->|Hne].
    + rewrite Nat.sub_diag in Hx, Hf. simpl in Hx, Hf.
      injection Hx as ->. injection Hf as ->. left. apply list_elem_of_here.
    + right. replace (i - s)%nat with (S (i - S s)) in Hx, Hf by lia.
      split; [lia|done].
Qed.

Lemma flagged_elem flags xs i (t : A) :
  (i, t) ∈ RankK.flagged flags xs
  ↔ xs !! i = Some t ∧ flags !! i = Some true.
Proof.
  unfold RankK.flagged. rewrite flagged_from_elem, Nat.sub_0_r.
  split; [by intros (_ & ? & ?)|intros [? ?]; split_and!; (done || lia)].
Qed.

Lemma flagged_from_NoDup (s : nat) flags xs :
  NoDup (map fst (flagged_from s flags xs)).
Proof.
  revert s flags. induction xs as [|x xs IH]; intros s flags; [constructor|].
  destruct flags as [|b flags].
  { rewrite flagged_from_nil_flags. constructor. }
  rewrite flagged_from_cons. destruct b; [|apply IH].
  cbn [app map fst]. constructor; [|apply IH].
  intros Hin. change (map ?f ?l) with (fmap f l) in Hin.
  apply list_elem_of_fmap in Hin as ([i t] & Hi & Hin). simpl in Hi. subst i.
  apply flagged_from_elem in Hin. lia.
Qed.

Lemma flagged_NoDup flags xs : NoDup (map fst (RankK.flagged flags xs)).
Proof. apply flagged_from_NoDup. Qed.

End FlaggedFacts.

Section FlaggedPairs.
Context {A B : Type}.

Local Abbreviation flagged_at s flags xs :=
  (map (fun '(i, x, _) => (i, x))
       (filter (fun '(_, _, flag) => flag = true)
               (zip (zip (seq s (length xs)) xs) flags))).

Lemma flagged_from_other (s : nat) flags (xs : list A) (pre ys : list B) :
  length pre = s → length ys = length xs →
  omap (fun '(i, _) => (pre ++ ys) !! i) (flagged_at s flags xs)
  = map snd (flagged_at s flags ys).
Proof.
  revert s flags pre ys. induction xs as [|x xs IH];
    intros s flags pre [|y ys] Hpre Hlen; try done.
  destruct flags as [|b flags]; [done|].
  rewrite !flagged_from_cons, omap_app, map_app.
  rewrite (cons_middle y pre ys), app_assoc.
  rewrite (IH (S s) flags (pre ++ [y]) ys);
    [|rewrite length_app; simpl; lia|simpl in Hlen; lia].
  f_equal. destruct b; [|done]. cbn [omap map snd].
  rewrite <- app_assoc. simpl.
  by rewrite (list_lookup_middle pre ys y s) by done.
Qed.

Lemma flagged_other flags (xs : list A) (ys : list B) :
  length ys = length xs →
  omap (fun '(i, _) => ys !! i) (RankK.flagged flags xs)
  = map snd (RankK.flagged flags ys).
Proof. intros H. by apply (flagged_from_other 0 flags xs [] ys). Qed.

Lemma flagged_from_map (g : A → B) (s : nat) flags (xs : list A) :
  map g (map snd (flagged_at s flags xs))
  = map snd (flagged_at s flags (map g xs)).
Proof.
  revert s flags. induction xs as [|x xs IH]; intros s flags; [done|].
  destruct flags as [|b flags]; [done|].
  cbn [map]. rewrite !flagged_from_cons, !map_app, IH.
  f_equal. by destruct b.
Qed.

Lemma flagged_map (g : A → B) flags (xs : list A) :
  map g (map snd (RankK.flagged flags xs))
  = map snd (RankK.flagged flags (map g xs)).
Proof. apply flagged_from_map. Qed.

End FlaggedPairs.

Lemma rank1_lookup i :
  RankK.rank1 !! i = Some true ↔ (i < 45)%nat ∧ i ≠ 20%nat ∧ i ≠ 42%nat.
Proof.
  unfold RankK.rank1. change (map ?f ?l) with (fmap f l).
  rewrite list_lookup_fmap.
  destruct (decide (i < 45)%nat) as [Hi|Hi].
  - rewrite lookup_seq_lt by done. simpl.
    destruct (Nat.eqb_spec i 20), (Nat.eqb_spec i 42); simpl;
      split; (done || lia || (intros (_ & ? & ?); done) || idtac).
    all: intros _; split_and!; done.
  - rewrite lookup_seq_ge by lia. simpl. split; [done|lia].
Qed.

Lemma high_rank_lookup i :
  RankK.high_rank !! i = Some true ↔ i = 20%nat ∨ i = 42%nat.
Proof.
  unfold RankK.high_rank. change (map ?f ?l) with (fmap f l).
  rewrite list_lookup_fmap.
  destruct (decide (i < 45)%nat) as [Hi|Hi].
  - rewrite lookup_seq_lt by done. simpl.
    destruct (Nat.eqb_spec i 20), (Nat.eqb_spec i 42); simpl;
      split; (done || lia || auto).
  - rewrite lookup_seq_ge by lia. simpl. split; [done|lia].
Qed.

Section MatrixShapes.
Context {F : Type} (zero : F) (add mul : F → F → F).

Lemma to_rows_length n m (d : list F) : length (to_rows n m d) = n.
Proof. unfold to_rows. by rewrite length_map, length_seq. Qed.

Lemma to_rows_rect n m (d : list F) :
  (n * m ≤ length d)%nat →
  Forall (fun row => length row = m) (to_rows n m d).
Proof.
  intros Hd. unfold to_rows. apply List.Forall_map, Forall_forall.
  intros r Hr%elem_of_seq. rewrite length_take, length_drop. nia.
Qed.

Lemma concat_rect_length (rows : list (list F)) m :
  Forall (fun row => length row = m) rows →
  length (concat rows) = (length rows * m)%nat.
Proof.
  induction 1 as [|row rows Hrow _ IH]; [done|].
  simpl. rewrite length_app, IH, Hrow. lia.
Qed.

Lemma matmul_length r (a b : list (list F)) :
  length (matmul zero add mul r a b) = length a.
Proof. unfold matmul. by rewrite length_map. Qed.

Lemma matmul_rect r (a b : list (list F)) :
  Forall (fun row => length row = r) (matmul zero add mul r a b).
Proof.
  unfold matmul. apply List.Forall_map, Forall_forall. intros row _.
  by rewrite length_map, length_seq.
Qed.

Lemma matmul_concat_length r (a b : list (list F)) :
  length (concat (matmul zero add mul r a b)) = (length a * r)%nat.
Proof. by rewrite (concat_rect_length _ r), matmul_length by apply matmul_rect. Qed.

Lemma transpose_length m (rows : list (list F)) :
  length (transpose zero m rows) = m.
Proof. unfold transpose. by rewrite length_map, length_seq. Qed.

End MatrixShapes.

Lemma orthogonalize_shape eps m (M : list (list R)) :
  Forall (fun row => length row = m) M →
  Forall (fun row => length row = m) (Orth.orthogonalize eps m M)
  ∧ length (Orth.orthogonalize eps m M) = length M.
Proof.
  unfold Orth.orthogonalize. generalize (seq 0 m) as todo.
  intros todo. revert M. induction todo as [|i todo IH]; intros M HM; [done|].
  cbn [fold_left].
  destruct (IH (Orth.orthogonalize_step eps m i M)) as [Hrect Hlen];
    [by apply step_rect|].
  split; [done|]. rewrite Hlen. unfold Orth.orthogonalize_step.
  case_decide; unfold Orth.project_rest, Orth.normalize_column;
    by rewrite ?length_map.
Qed.

Lemma foldM_invariant {A S} (f : S → A → result S) (P : S → Prop)
    (Q : A → Prop) xs s :
  Forall Q xs → (∀ s x, Q x → P s → ∃ s', f s x = Ok s' ∧ P s') → P s →
  ∃ s', foldM f xs s = Ok s' ∧ P s'.
Proof.
  intros HQ Hstep. revert s. induction HQ as [|x xs Hx _ IH]; intros s Hs.
  { by exists s. }
  destruct (Hstep s x Hx Hs) as (s' & Hf & Hs'). simpl. rewrite Hf.
  cbn [mbind result_bind]. by apply IH.
Qed.

Lemma M_bind_ok {A B} (m : M A) (k : A → M B) tr a tr' :
  m tr = Ok (a, tr') → (m ≫= k) tr = k a tr'.
Proof. intros H. unfold mbind, M_bind. by rewrite H. Qed.

Lemma lift_ok {A} (x : result A) a tr : x = Ok a → lift x tr = Ok (a, tr).
Proof. by intros ->. Qed.

Section RankKSteps.
Import RankK.
Context (randn : nat → nat → list R) (reuse_query : bool).
Context (pt qt : nat).
Hypothesis Hrandn : ∀ k n, length (randn k n) = n.

Local Abbreviation job_ok := (job_fits pt qt).

Lemma view_slice_ok (mem : list R) idx n r :
  (idx + n * r ≤ length mem)%nat →
  view_slice mem idx n r = Ok (to_rows n r (take (n * r) (drop idx mem))).
Proof.
  intros H. unfold view_slice. rewrite decide_True; [done|].
  rewrite length_take, length_drop. lia.
Qed.

Lemma view_slice_shape (mem : list R) idx n r rows :
  view_slice mem idx n r = Ok rows →
  length rows = n ∧ Forall (fun row => length row = r) rows.
Proof.
  unfold view_slice. case_decide as Hlen; [|done]. intros [= <-].
  split; [apply to_rows_length|apply to_rows_rect; lia].
Qed.

Lemma write_slice_length (mem : list R) idx rows :
  (idx + length (concat rows) ≤ length mem)%nat →
  length (write_slice mem idx rows) = length mem.
Proof.
  intros H. unfold write_slice.
  rewrite !length_app, length_take, length_drop. lia.
Qed.

Lemma prepare_q_ok uninit q_mem drawn j :
  job_ok j → length q_mem = qt →
  ∃ q' drawn', prepare_q randn reuse_query uninit (q_mem, drawn) j
               = Ok (q', drawn')
               ∧ length q' = qt.
Proof.
  intros (Hp & Hq & Hn) Hql. unfold prepare_q.
  destruct (reuse_query && negb uninit); [by eauto|].
  rewrite decide_True.
  2:{ rewrite length_take, length_drop, Hrandn. lia. }
  do 2 eexists. split; [done|].
  rewrite !length_app, length_take, length_drop, Hrandn. lia.
Qed.

Lemma compute_p_ok q_mem p_mem j :
  job_ok j → length q_mem = qt → length p_mem = pt →
  ∃ p', compute_p q_mem p_mem j = Ok p' ∧ length p' = pt.
Proof.
  intros (Hp & Hq & Hn) Hql Hpl. unfold compute_p.
  rewrite !view_slice_ok by lia. cbn [mbind result_bind].
  eexists. split; [done|].
  rewrite write_slice_length; [done|].
  rewrite matmul_concat_length, Hn. lia.
Qed.

Lemma normalize_p_ok p_mem j :
  job_ok j → length p_mem = pt →
  ∃ p', normalize_p p_mem j = Ok p' ∧ length p' = pt.
Proof.
  intros (Hp & Hq & Hn) Hpl. unfold normalize_p.
  rewrite !view_slice_ok by lia. cbn [mbind result_bind].
  eexists. split; [done|].
  set (rows := to_rows _ _ _).
  assert (Forall (fun row => length row = j_rank j) rows) as Hrect.
  { apply to_rows_rect. rewrite length_take, length_drop. lia. }
  destruct (orthogonalize_shape Orth.default_eps _ _ Hrect) as [Hrect' Hlen'].
  rewrite write_slice_length; [done|].
  rewrite (concat_rect_length _ _ Hrect'), Hlen'. unfold rows.
  rewrite to_rows_length. lia.
Qed.

Lemma compute_q_ok p_mem q_mem j :
  job_ok j → length p_mem = pt → length q_mem = qt →
  ∃ q', compute_q p_mem q_mem j = Ok q' ∧ length q' = qt.
Proof.
  intros (Hp & Hq & Hn) Hpl Hql. unfold compute_q.
  rewrite !view_slice_ok by lia. cbn [mbind result_bind].
  eexists. split; [done|].
  rewrite write_slice_length; [done|].
  rewrite matmul_concat_length, transpose_length. lia.
Qed.

End RankKSteps.

Section RankKJobs.
Import RankK.

Lemma as_matrix_ok (t : vtensor R) n m :
  vshape t = [n; m] → n ≠ 0%nat → m ≠ 0%nat →
  as_matrix t = Ok (n, m, to_rows n m (vdata t)).
Proof.
  intros Hsh Hn Hm. unfold as_matrix, vnelement. rewrite Hsh.
  cbn [numel foldr]. rewrite Nat.mul_1_r.
  rewrite decide_False; [done|]. nia.
Qed.

Lemma layout_ok rank :
  ∀ high p0 q0,
    Forall (fun it : nat * vtensor R =>
              ∃ n m, vshape it.2 = [n; m] ∧ n ≠ 0%nat ∧ m ≠ 0%nat) high →
    ∃ jobs pt qt,
      layout rank p0 q0 high = Ok (jobs, pt, qt)
      ∧ (p0 ≤ pt)%nat ∧ (q0 ≤ qt)%nat
      ∧ Forall (job_fits pt qt) jobs
      ∧ Forall (fun j => vshape (j_tensor j) = [j_n j; j_m j]) jobs
      ∧ map (fun j => (j_index j, j_tensor j)) jobs = high.
Proof.
  induction high as [|[i t] high IH]; intros p0 q0 Hhigh.
  { exists [], p0, q0. by split_and!. }
  apply Forall_cons in Hhigh as [(n & m & Hsh & Hn & Hm) Hhigh].
  simpl in Hsh. cbn [layout]. rewrite (as_matrix_ok t n m) by done.
  cbn [mbind result_bind].
  set (r := (n `min` (m `min` rank))%nat).
  destruct (IH (p0 + n * r)%nat (q0 + m * r)%nat Hhigh)
    as (jobs & pt & qt & Hlay & Hp & Hq & Hfits & Hshapes & Hmap).
  rewrite Hlay. cbn [mbind result_bind].
  eexists _, pt, qt. split; [done|]. split_and!; try lia.
  - constructor; [|done]. unfold job_fits. simpl.
    split_and!; [lia..|apply to_rows_length].
  - constructor; done.
  - simpl. by rewrite Hmap.
Qed.

Lemma lookup_shape (ts : list (vtensor R)) sh i s :
  map vshape ts = sh → sh !! i = Some s →
  ∃ o, ts !! i = Some o ∧ vshape o = s.
Proof.
  intros <- Hi. change (map ?f ?l) with (fmap f l) in Hi.
  rewrite list_lookup_fmap in Hi.
  destruct (ts !! i) as [o|]; [|done]. injection Hi as <-. eauto.
Qed.

Lemma insert_shape (ts : list (vtensor R)) sh i o :
  map vshape ts = sh → sh !! i = Some (vshape o) →
  map vshape (<[i := o]> ts) = sh.
Proof.
  intros <- Hi. change (map ?f ?l) with (fmap f l) in *.
  rewrite list_fmap_insert. by apply list_insert_id.
Qed.

Lemma outerprod_ok pt qt p_mem q_mem outs mems j sh :
  job_fits pt qt j → length p_mem = pt → length q_mem = qt →
  map vshape outs = sh → map vshape mems = sh →
  sh !! j_index j = Some [j_n j; j_m j] →
  vshape (j_tensor j) = [j_n j; j_m j] →
  ∃ P Q,
    view_slice p_mem (j_p_idx j) (j_n j) (j_rank j) = Ok P
    ∧ view_slice q_mem (j_q_idx j) (j_m j) (j_rank j) = Ok Q
    ∧ let product :=
        concat (matmul 0%R Rplus Rmult (j_m j) P (transpose 0%R (j_rank j) Q)) in
      outerprod p_mem q_mem (outs, mems) j
      = Ok (<[j_index j := VTensor [j_n j; j_m j] product]> outs,
            <[j_index j := VTensor [j_n j; j_m j]
                             (zip_with Rminus (vdata (j_tensor j)) product)]>
              mems).
Proof.
  intros (Hp & Hq & Hn) Hpl Hql Houts Hmems Hi Ht.
  destruct (lookup_shape _ _ _ _ Houts Hi) as (o & Ho & Hosh).
  destruct (lookup_shape _ _ _ _ Hmems Hi) as (mm & Hmm & Hmsh).
  do 2 eexists. split; [by apply view_slice_ok; lia|].
  split; [by apply view_slice_ok; lia|].
  cbv zeta. unfold outerprod.
  rewrite !view_slice_ok by lia. cbn [mbind result_bind].
  rewrite Ho, Hmm. cbn [of_option mbind result_bind].
  unfold set_matrix. rewrite decide_True by done. cbn [mbind result_bind].
  unfold residual. cbn [vshape vdata]. rewrite decide_True by (split; congruence).
  cbn [mbind result_bind]. by rewrite Hosh, Hmsh.
Qed.

End RankKJobs.

Section RankKOutputs.
Import RankK.

Lemma outerprod_fold pt qt p_mem q_mem sh :
  length p_mem = pt → length q_mem = qt →
  ∀ jobs outs mems,
    NoDup (map j_index jobs) →
    Forall (job_fits pt qt) jobs →
    Forall (fun j => vshape (j_tensor j) = [j_n j; j_m j]) jobs →
    Forall (fun j => sh !! j_index j = Some [j_n j; j_m j]) jobs →
    map vshape outs = sh → map vshape mems = sh →
    ∃ outs' mems',
      foldM (outerprod p_mem q_mem) jobs (outs, mems) = Ok (outs', mems')
      ∧ map vshape outs' = sh ∧ map vshape mems' = sh
      ∧ (∀ i, i ∉ map j_index jobs →
              outs' !! i = outs !! i ∧ mems' !! i = mems !! i)
      ∧ Forall (low_rank_at p_mem q_mem outs' mems') jobs.
Proof.
  intros Hpl Hql.
  induction jobs as [|j jobs IH];
    intros outs mems Hnd Hfits Hsh Hpos Houts Hmems.
  { exists outs, mems. split_and!; try done. }
  cbn [map] in Hnd. apply NoDup_cons in Hnd as [Hnin Hnd].
  apply Forall_cons in Hfits as [Hj Hfits].
  apply Forall_cons in Hsh as [Hjsh Hsh].
  apply Forall_cons in Hpos as [Hjpos Hpos].
  destruct (outerprod_ok pt qt p_mem q_mem outs mems j sh)
    as (P & Q & HP & HQ & Hstep); try done.
  cbv zeta in Hstep. cbn [foldM]. rewrite Hstep. cbn [mbind result_bind].
  destruct (lookup_shape _ _ _ _ Houts Hjpos) as (o & Ho & _).
  destruct (lookup_shape _ _ _ _ Hmems Hjpos) as (mm & Hmm & _).
  apply lookup_lt_Some in Ho, Hmm.
  set (product := concat (matmul 0%R Rplus Rmult (j_m j) P
                                  (transpose 0%R (j_rank j) Q))) in *.
  set (out := VTensor [j_n j; j_m j] product) in *.
  set (mem := VTensor [j_n j; j_m j]
                (zip_with Rminus (vdata (j_tensor j)) product)) in *.
  destruct (IH (<[j_index j := out]> outs) (<[j_index j := mem]> mems))
    as (outs' & mems' & Hfold & Ho' & Hm' & Hkeep & Hlow); try done.
  { by apply insert_shape. }
  { by apply insert_shape. }
  exists outs', mems'. split_and!; try done.
  - intros i Hi. cbn [map] in Hi. apply not_elem_of_cons in Hi as [Hne Hi].
    destruct (Hkeep i Hi) as [-> ->].
    by rewrite !list_lookup_insert_ne by done.
  - constructor; [|done]. exists P, Q. split_and!; try done. cbv zeta.
    destruct (Hkeep _ Hnin) as [-> ->].
    by rewrite !list_lookup_insert_eq by done.
Qed.

End RankKOutputs.

Section Unpacking.
Context {A B : Type}.

Lemma segments_concat (buf : list A) :
  ∀ ns pre,
    concat (imap (fun k n => take n (drop (pre + sum_list (take k ns)) buf)) ns)
    = take (sum_list ns) (drop pre buf).
Proof.
  induction ns as [|n ns IH]; intros pre; [done|].
  cbn [imap concat]. rewrite Nat.add_0_r.
  change (sum_list (n :: ns)) with (n + sum_list ns)%nat.
  rewrite <- take_take_drop, drop_drop. f_equal.
  rewrite <- IH. f_equal. apply imap_ext. intros k m _. simpl.
  change (sum_list (n :: take k ns)) with (n + sum_list (take k ns))%nat.
  by rewrite Nat.add_assoc.
Qed.

Lemma scatter_zip_notin (its : list (nat * B)) :
  ∀ (os acc : list A) i,
    i ∉ map fst its →
    fold_left (fun acc '((i, _), out) => <[i := out]> acc) (zip its os) acc !! i
    = acc !! i.
Proof.
  induction its as [|[i' t] its IH]; intros [|o os] acc i Hi; try done.
  cbn [map fst] in Hi. apply not_elem_of_cons in Hi as [Hne Hi].
  simpl. rewrite IH by done. by rewrite list_lookup_insert_ne.
Qed.

End Unpacking.

Lemma unpack_scatter {B} (its : list (nat * B)) :
  ∀ (F : nat → vtensor R → vtensor R) (acc : list (vtensor R)),
    (∀ k y, vshape (F k y) = vshape y) →
    NoDup (map fst its) →
    Forall (fun it => is_Some (acc !! it.1)) its →
    let ys := omap (fun '(i, _) => acc !! i) its in
    let final := fold_left (fun acc '((i, _), out) => <[i := out]> acc)
                           (zip its (imap F ys)) acc in
    map vshape final = map vshape acc
    ∧ omap (fun '(i, _) => final !! i) its = imap F ys
    ∧ ∀ i, i ∉ map fst its → final !! i = acc !! i.
Proof.
  induction its as [|[i t] its IH]; intros F acc HF Hnd Hin; [done|].
  cbn [map fst] in Hnd. apply NoDup_cons in Hnd as [Hnin Hnd].
  apply Forall_cons in Hin as [[y Hy] Hin]. simpl in Hy.
  cbv zeta. cbn [omap list_omap]. rewrite Hy. cbn [imap zip zip_with fold_left].
  assert (omap (fun '(i', _) => <[i := F 0%nat y]> acc !! i') its
          = omap (fun '(i', _) => acc !! i') its) as Hsame.
  { clear -Hnin. induction its as [|[i' t'] its IH']; [done|].
    cbn [map fst] in Hnin. apply not_elem_of_cons in Hnin as [Hne Hnin].
    cbn [omap list_omap]. rewrite list_lookup_insert_ne by done.
    by rewrite IH'. }
  destruct (IH (F ∘ S) (<[i := F 0%nat y]> acc)) as (Hsh & Hom & Hkeep).
  { intros k z. apply HF. }
  { done. }
  { eapply Forall_impl; [exact Hin|]. intros [i' t'] [z Hz]. simpl in *.
    destruct (decide (i = i')) as [->|Hne].
    - rewrite list_lookup_insert_eq by (by eapply lookup_lt_Some). eauto.
    - rewrite list_lookup_insert_ne by done. eauto. }
  cbv zeta in Hsh, Hom, Hkeep. rewrite Hsame in Hsh, Hom, Hkeep.
  split_and!.
  - rewrite Hsh. apply insert_shape; [done|].
    change (map ?f ?l) with (fmap f l). by rewrite list_lookup_fmap, Hy, HF.
  - rewrite Hkeep by done.
    rewrite list_lookup_insert_eq by (by eapply lookup_lt_Some).
    by rewrite Hom.
  - intros i' Hi'. cbn [map fst] in Hi'.
    apply not_elem_of_cons in Hi' as [Hne Hi'].
    rewrite Hkeep by done. by rewrite list_lookup_insert_ne.
Qed.

Lemma sum_dim0_ok {F} (add : F → F → F) (rows : list (list F)) n :
  rows ≠ [] → Forall (fun r => length r = n) rows →
  ∃ summed, sum_dim0 add rows = Ok summed ∧ length summed = n.
Proof.
  destruct rows as [|r rs]; [done|]. intros _ [Hr Hrs]%Forall_cons.
  eexists. split; [done|].
  revert r Hr. induction Hrs as [|r' rs Hr' _ IH]; intros r Hr; [done|].
  simpl. apply IH. rewrite length_zip_with. lia.
Qed.

Lemma all_reduce_ok (net : network R) size (buf : list R) tr :
  (∀ k mine, gather_float net k mine ≠ []
             ∧ Forall (fun r => length r = length mine) (gather_float net k mine)) →
  ∃ out tr',
    all_reduce Rplus net size buf tr = Ok (out, tr')
    ∧ length out = length buf
    ∧ length tr'
      = (length tr + if decide (1 < n_workers net)%nat then 1 else 0)%nat.
Proof.
  intros Hnet. unfold all_reduce. case_decide.
  - unfold dist_all_reduce.
    destruct (Hnet (length tr) buf) as [Hne Hlen].
    destruct (sum_dim0_ok Rplus _ _ Hne Hlen) as (summed & -> & Hs).
    do 2 eexists. split; [done|]. split; [done|].
    rewrite length_app. simpl. lia.
  - exists buf, tr. split; [done|]. split; [done|lia].
Qed.

Lemma unpacked_concat (ys : list (vtensor R)) shapes (buf : list R) :
  map vshape ys = shapes → length buf = sum_list (map numel shapes) →
  concat (map vdata
            (imap (fun k y =>
                     VTensor (vshape y)
                       (take (vnelement y)
                          (drop (sum_list (take (0 + k) (map numel shapes))) buf)))
                  ys))
  = buf.
Proof.
  intros Hsh Hlen.
  transitivity
    (concat (imap (fun k n =>
                     take n (drop (0 + sum_list (take k (map numel shapes))) buf))
                  (map numel shapes))).
  - f_equal. apply list_eq. intros k.
    change (map ?f ?l) with (fmap f l).
    rewrite list_lookup_fmap, !list_lookup_imap, list_lookup_fmap, <- Hsh.
    rewrite list_lookup_fmap. by destruct (ys !! k).
  - rewrite segments_concat, drop_0, take_ge; [done|lia].
Qed.




(** * Further properties of the code *)

Lemma M_bind_raise {A B} (m : M A) (k : A → M B) tr e :
  m tr = Raise e → (m ≫= k) tr = Raise e.
Proof. intros H. unfold mbind, M_bind. by rewrite H. Qed.

Lemma all_reduce_raises {F} (add : F → F → F) (net : network F) size buf tr e :
  all_reduce add net size buf tr = Raise e → e = RuntimeError.
Proof.
  unfold all_reduce, dist_all_reduce. case_decide; [|done].
  destruct (gather_float net (length tr) buf); simpl; [|done].
  by intros [= <-].
Qed.

(** ** Sampling with rank zero *)

(** X7.  [sample_singular_values] raises [UnboundLocalError] exactly when the
    rank is zero.  With [rank = 0] the loop never runs: [pick] is empty from
    the start, so the [return] reads [sample_probs] before anything was
    assigned to it, whatever the probabilities are.  With any other rank the
    body runs before the [return] is reached, and the only exception left
    is the one of the exhausted attempts. *)
Theorem sample_unbound_iff_rank_zero
    (rand : nat → nat → Q) (rank drawn : nat) (probabilities : list Q) :
  Atomo.sample_singular_values rand rank drawn probabilities
  = Raise UnboundLocalError
  ↔ rank = 0%nat.
Proof.
  unfold Atomo.sample_singular_values. split.
  - intros Hraise. destruct (decide (rank = 0%nat)) as [|Hrank]; [done|].
    pose proof (sample_loop_spec rand rank probabilities 1001 0 drawn [] None
                  eq_refl ltac:(lia)) as Hspec.
    rewrite Hraise in Hspec. destruct Hspec as [He _]; [|done].
    intros _. simpl. lia.
  - intros ->. by rewrite sample_loop_unfold.
Qed.

(** ** Reshaping a vector for the decomposition *)

(** X8.  [reshape_to_2d] views a vector of [n] elements as [n // 2] rows.  This
    works for an even [n >= 2], giving [n / 2] rows of two, and for [n = 3],
    giving one row of three; a vector of fewer than two elements or of an odd
    length from five on cannot be viewed so and raises. *)
Theorem reshape_to_2d_vector (n : nat) (data : list Q) :
  (n = 3%nat →
   Atomo.reshape_to_2d (VTensor [n] data) = Ok (VTensor [1%nat; 3%nat] data))
  ∧ ((2 ≤ n)%nat → (n mod 2 = 0)%nat →
     Atomo.reshape_to_2d (VTensor [n] data)
     = Ok (VTensor [(n / 2)%nat; 2%nat] data))
  ∧ ((n ≤ 1)%nat ∨ ((5 ≤ n)%nat ∧ (n mod 2 = 1)%nat) →
     Atomo.reshape_to_2d (VTensor [n] data) = Raise RuntimeError).
Proof.
  unfold Atomo.reshape_to_2d, Atomo.view_2d, vnelement. cbn [vshape vdata numel foldr].
  rewrite Nat.mul_1_r. split_and!.
  - intros ->. reflexivity.
  - intros Hn Heven.
    pose proof (Nat.div_mod_eq n 2) as Hdiv. rewrite Heven in Hdiv.
    assert (n = (2 * (n / 2))%nat) as Hk by lia.
    set (k := (n / 2)%nat) in *.
    assert (k ≠ 0%nat) as Hk0 by lia.
    assert ((n mod k = 0)%nat) as Hmod.
    { rewrite Hk. by apply Nat.Div0.mod_mul. }
    assert ((n / k = 2)%nat) as Hquot.
    { rewrite Hk at 1. by apply Nat.div_mul. }
    rewrite decide_False by lia. by rewrite Hquot.
  - intros [Hn | [Hn Hodd]].
    + rewrite decide_True; [done|]. left.
      destruct n as [|[|n]]; [done|done|lia].
    + rewrite decide_True; [done|]. right. right.
      pose proof (Nat.div_mod_eq n 2) as Hdiv. rewrite Hodd in Hdiv.
      remember (n / 2)%nat as k eqn:Ek.
      assert (2 ≤ k)%nat as Hk by lia.
      rewrite Hdiv, Nat.add_comm, Nat.Div0.mod_add.
      rewrite Nat.mod_small by lia. done.
Qed.

Lemma reshape_to_2d_vector_witness :
  Atomo.reshape_to_2d (VTensor [4%nat] [1%Q; 2%Q; 3%Q; 4%Q])
  = Ok (VTensor [2%nat; 2%nat] [1%Q; 2%Q; 3%Q; 4%Q])
  ∧ Atomo.reshape_to_2d (VTensor [5%nat] [1%Q; 2%Q; 3%Q; 4%Q; 5%Q])
    = Raise RuntimeError.
Proof.
  split.
  - apply (proj1 (proj2 (reshape_to_2d_vector 4 [1%Q; 2%Q; 3%Q; 4%Q])));
      [lia|reflexivity].
  - apply (proj2 (proj2 (reshape_to_2d_vector 5 [1%Q; 2%Q; 3%Q; 4%Q; 5%Q]))).
    right. split; [lia|reflexivity].
Defined.

(** ** An empty list of gradients *)

(** X1.  [TensorBuffer([])] raises, as [torch.cat] refuses an empty list.  So on an
    empty list of gradients the sign reducers, the low-rank reducer and, with
    more than one worker, the exact reducer raise, while the exact reducer
    with one worker and the top-k reducer with one worker return zero bits
    and leave outputs and memories as they are. *)
Theorem empty_gradient_list
    (net : network Q) (size : Z) (grad_out memory_out : list (vtensor Q))
    (tr : list event) :
  (n_workers net = 1%nat →
   ExactReducer_reduce net size [] grad_out memory_out tr
   = Ok (grad_out, map (vfill 0%Q) memory_out, 0%Z, tr))
  ∧ (n_workers net ≠ 1%nat →
     ExactReducer_reduce net size [] grad_out memory_out tr
     = Raise RuntimeError)
  ∧ SignReducer_reduce net [] grad_out memory_out tr = Raise RuntimeError
  ∧ SignSGDwithMajorityVoteReducer_reduce net [] grad_out memory_out tr
    = Raise RuntimeError
  ∧ (∀ topk compression,
       n_workers net = 1%nat →
       TopKReducer_reduce topk net compression [] grad_out memory_out tr
       = Ok (grad_out, memory_out, 0%Z, tr))
  ∧ (∀ randn (netR : network R) rank reuse_query st
       (outsR memsR : list (vtensor R)),
       RankK.reduce randn netR rank reuse_query size st [] outsR memsR tr
       = Raise RuntimeError).
Proof.
  split_and!.
  - intros Hn. unfold ExactReducer_reduce, reduce_mean_list.
    rewrite decide_True by done. by destruct grad_out.
  - intros Hn. unfold ExactReducer_reduce, reduce_mean_list.
    by rewrite decide_False by done.
  - done.
  - done.
  - intros topk compression Hn. unfold TopKReducer_reduce.
    unfold mbind, M_bind, lift. simpl.
    destruct memory_out, grad_out; simpl;
      (destruct (decide (1 < n_workers net)%nat); [lia|done]).
  - intros randn netR rank reuse_query st outsR memsR.
    unfold RankK.reduce. rewrite take_nil.
    change (RankK.flagged RankK.rank1 []) with (@nil (nat * vtensor R)).
    change (RankK.flagged RankK.high_rank []) with (@nil (nat * vtensor R)).
    cbv zeta.
    erewrite M_bind_ok by (apply lift_ok; reflexivity). cbv beta iota.
    destruct (match RankK.p_memory st with
              | Some _ => RankK.q_memory st
              | None => Some (replicate 0 0%R)
              end) as [q0|]; [|by apply M_bind_raise].
    erewrite M_bind_ok by (apply lift_ok; reflexivity). cbv beta iota.
    erewrite M_bind_ok by (apply lift_ok; reflexivity). cbv beta iota.
    erewrite M_bind_ok by (apply lift_ok; reflexivity). cbv beta iota.
    destruct (all_reduce Rplus netR float32_size
                (default (replicate 0 0%R) (RankK.p_memory st)) tr)
      as [[p tr1]|e] eqn:Hp.
    + erewrite M_bind_ok by exact Hp. cbv beta iota. by apply M_bind_raise.
    + apply M_bind_raise. rewrite Hp. f_equal.
      by apply (all_reduce_raises _ _ _ _ _ _ Hp).
Qed.

Lemma empty_gradient_list_witness :
  ExactReducer_reduce single 4 [] sample_out sample_out []
  = Ok (sample_out, map (vfill 0%Q) sample_out, 0%Z, [])
  ∧ SignReducer_reduce single [] sample_out sample_out [] = Raise RuntimeError.
Proof.
  destruct (empty_gradient_list single 4 sample_out sample_out [])
    as (Hone & _ & Hsign & _).
  split; [apply Hone; reflexivity|exact Hsign].
Defined.

(** ** The exact reducer with several workers *)

Lemma imap_shapes {A} (F : nat → vtensor A → vtensor A) (ys : list (vtensor A)) :
  (∀ k y, vshape (F k y) = vshape y) →
  map vshape (imap F ys) = map vshape ys.
Proof.
  intros HF. apply list_eq. intros k. change (map ?f ?l) with (fmap f l).
  rewrite !list_lookup_fmap, list_lookup_imap.
  destruct (ys !! k); simpl; [by rewrite HF|done].
Qed.

Lemma unpacked_concat_any {A} (ys : list (vtensor A)) shapes (buf : list A) :
  map vshape ys = shapes → length buf = sum_list (map numel shapes) →
  concat (map vdata
            (imap (fun k y =>
                     VTensor (vshape y)
                       (take (vnelement y)
                          (drop (sum_list (take (0 + k) (map numel shapes))) buf)))
                  ys))
  = buf.
Proof.
  intros Hsh Hlen.
  transitivity
    (concat (imap (fun k n =>
                     take n (drop (0 + sum_list (take k (map numel shapes))) buf))
                  (map numel shapes))).
  - f_equal. apply list_eq. intros k.
    change (map ?f ?l) with (fmap f l).
    rewrite list_lookup_fmap, !list_lookup_imap, list_lookup_fmap, <- Hsh.
    rewrite list_lookup_fmap. by destruct (ys !! k).
  - rewrite segments_concat, drop_0, take_ge; [done|lia].
Qed.



(** ** Unpacking into more or fewer tensors than were packed *)

Lemma packed_entry {A} (tb : TensorBuffer.t A) (ts : list (vtensor A)) i t :
  laid_out tb (map vshape ts) (concat (map vdata ts)) →
  Forall wf_tensor ts → ts !! i = Some t →
  TensorBuffer.getitem tb i = Ok t.
Proof.
  intros Hlaid Hwf Ht.
  assert (map vshape ts !! i = Some (vshape t)) as Hsh.
  { change (map ?f ?l) with (fmap f l). by rewrite list_lookup_fmap, Ht. }
  rewrite (vgetitem_laid_out _ _ _ _ _ Hlaid Hsh).
  assert (map numel (map vshape ts) = map length (map vdata ts)) as ->.
  { clear -Hwf. induction Hwf as [|u us Hu _ IH]; [done|].
    simpl. by rewrite IH, Hu. }
  assert (numel (vshape t) = length (vdata t)) as ->.
  { symmetry. by apply (proj1 (Forall_lookup _ _) Hwf i). }
  rewrite firstn_map, concat_segment.
  - by destruct t.
  - change (map ?f ?l) with (fmap f l). by rewrite list_lookup_fmap, Ht.
Qed.

Lemma zip_entries_prefix {A} (tb : TensorBuffer.t A) (ts : list (vtensor A)) :
  laid_out tb (map vshape ts) (concat (map vdata ts)) →
  Forall wf_tensor ts →
  ∀ ys i,
    map vshape (take (length ts - i) ys)
    = map vshape (take (length ys) (drop i ts)) →
    TensorBuffer.zip_entries (fun entry y => vsetitem y entry) tb i ys
    = Ok (take (length ys) (drop i ts) ++ drop (length ts - i) ys).
Proof.
  intros Hlaid Hwf. induction ys as [|y ys IH]; intros i Hsh.
  { by rewrite drop_nil, app_nil_r. }
  cbn [TensorBuffer.zip_entries].
  destruct (decide (i < length ts)%nat) as [Hi|Hi].
  - destruct (lookup_lt_is_Some_2 ts i Hi) as [t Ht].
    rewrite (packed_entry tb ts i t) by done.
    rewrite (drop_S _ _ _ Ht) in Hsh |- *.
    replace (length ts - i)%nat with (S (length ts - S i)) in Hsh |- * by lia.
    cbn [length take map drop] in Hsh |- *. injection Hsh as Hy Hsh.
    rewrite vsetitem_same by done. cbn [mbind result_bind].
    rewrite (IH (S i)) by done. cbn [mbind result_bind app].
    rewrite Hy. by destruct t.
  - rewrite (vgetitem_past_end _ _ _ _ Hlaid) by (rewrite length_map; lia).
    rewrite drop_ge by lia.
    by replace (length ts - i)%nat with 0%nat by lia.
Qed.



(** ** The size of the compressed signs *)

Lemma words_bounds (n : nat) :
  n ≠ 0%nat → (32 * (words n - 1) < n ≤ 32 * words n)%nat.
Proof.
  intros Hn. unfold words, SignCompressor.add_elm.
  pose proof (Nat.div_mod_eq n 32) as Hdiv.
  pose proof (Nat.mod_upper_bound n 32) as Hlt.
  case_decide as Hmod.
  - rewrite Nat.add_0_r. rewrite Hmod in Hdiv. lia.
  - replace (n + (32 - n mod 32))%nat with ((n / 32 + 1) * 32)%nat by lia.
    rewrite Nat.div_mul by done. lia.
Qed.

(** X5.  [SignCompressor.compress] refuses a tensor without elements, which
    cannot be viewed as 32 rows.  Any other tensor of [n] elements is
    compressed into a vector of [ceil(n / 32)] words, one per column of the
    padded 32-row view, and its size is handed back for [uncompress]. *)
Theorem compress_word_count (x : vtensor Q) :
  wf_tensor x →
  (vnelement x = 0%nat → SignCompressor.compress x = Raise RuntimeError)
  ∧ (vnelement x ≠ 0%nat →
     ∃ packed,
       SignCompressor.compress x = Ok (packed, vshape x)
       ∧ vshape packed = [length (vdata packed)]
       ∧ (32 * (length (vdata packed) - 1) < vnelement x
          ≤ 32 * length (vdata packed))%nat).
Proof.
  intros Hwf. split.
  - intros Hn. unfold wf_tensor in Hwf. rewrite Hn in Hwf.
    unfold SignCompressor.compress, SignCompressor.packing.
    destruct (vdata x); [done|done].
  - intros Hn. destruct (compress_ok x Hwf Hn) as (packed & Hc & Hsh & Hlen & _).
    exists packed. split; [done|]. rewrite Hlen. split; [done|].
    unfold wf_tensor in Hwf. rewrite <- Hwf in *. by apply words_bounds.
Qed.

Lemma compress_word_count_witness :
  ∃ packed, SignCompressor.compress c2_odd = Ok (packed, vshape c2_odd)
            ∧ vshape packed = [length (vdata packed)].
Proof.
  destruct (compress_word_count c2_odd) as [_ Hok]; [reflexivity|].
  destruct Hok as (packed & Hc & Hsh & _); [by vm_compute|].
  exists packed. split; [exact Hc|exact Hsh].
Defined.

(** ** Orthogonalising twice *)

Section OrthTwice.
Import Orth.
Local Open Scope R_scope.

Lemma project_orthogonal (c r : list R) :
  length r = length c → vdot c r = 0 → project c r = r.
Proof.
  intros Hlen H0. unfold project. rewrite H0. clear H0.
  revert c Hlen. induction r as [|x r IH]; intros [|y c] Hlen; try done.
  simpl. f_equal; [ring|]. apply IH. simpl in Hlen. lia.
Qed.

Lemma orthonormal_tail (c : list R) rest :
  orthonormal (c :: rest) → orthonormal rest.
Proof.
  intros H i j ci cj Hi Hj.
  rewrite (H (S i) (S j) ci cj) by done.
  destruct (decide (i = j)), (decide (S i = S j)); (done || lia).
Qed.

Lemma mgs_fixed n :
  ∀ cols, Forall (fun c => length c = n) cols → orthonormal cols →
          mgs 0 cols = cols.
Proof.
  induction cols as [|c rest IH]; intros Hlen Hon.
  { by rewrite mgs_equation_1. }
  apply Forall_cons in Hlen as [Hc Hrest].
  assert (vdot c c = 1) as Hcc.
  { rewrite (Hon 0%nat 0%nat c c) by done. by rewrite decide_True. }
  assert (l2norm c = 1) as Hnorm.
  { pose proof (l2norm_nonneg c). pose proof (l2norm_square c). nra. }
  assert (map (fun x => x / (l2norm c + 0)) c = c) as Hq.
  { rewrite Hnorm. rewrite <- (map_id c) at 2. apply map_ext.
    intros x. field. }
  assert (map (project c) rest = rest) as Hproj.
  { rewrite <- (map_id rest) at 2. apply map_ext_in. intros r Hr.
    apply list_elem_of_In, list_elem_of_lookup in Hr as [j Hj].
    apply project_orthogonal.
    - rewrite Hc. by apply (proj1 (Forall_lookup _ _) Hrest j).
    - rewrite (Hon 0%nat (S j) c r) by done. by rewrite decide_False. }
  rewrite mgs_cons, Hq, Hproj. f_equal.
  apply IH; [done|]. by eapply orthonormal_tail.
Qed.

Lemma rect_ext m (M1 M2 : list (list R)) :
  Forall (fun row => length row = m) M1 →
  Forall (fun row => length row = m) M2 →
  length M1 = length M2 →
  transpose 0 m M1 = transpose 0 m M2 → M1 = M2.
Proof.
  intros H1 H2 Hlen Hcols.
  apply (nth_ext _ _ [] []); [done|]. intros i Hi.
  assert (length (nth i M1 []) = m) as Hr1.
  { apply (proj1 (List.Forall_forall _ _) H1). by apply nth_In. }
  assert (length (nth i M2 []) = m) as Hr2.
  { apply (proj1 (List.Forall_forall _ _) H2). apply nth_In. lia. }
  apply (nth_ext _ _ 0 0); [congruence|]. intros j Hj. rewrite Hr1 in Hj.
  assert (column 0 j M1 = column 0 j M2) as Hcol.
  { pose proof (cols_of_lookup m M1 j Hj) as Hc1.
    pose proof (cols_of_lookup m M2 j Hj) as Hc2.
    rewrite Hcols in Hc1. congruence. }
  assert (nth i (column 0 j M1) 0 = nth i (column 0 j M2) 0) as Hent
    by (by rewrite Hcol).
  unfold column in Hent.
  rewrite (nth_map_lt _ _ _ []) in Hent by done.
  by rewrite (nth_map_lt _ _ _ []) in Hent by lia.
Qed.

End OrthTwice.

(** X6.  [orthogonalize] keeps the shape of its matrix.  With [eps = 0] and in
    exact arithmetic it leaves a matrix it has produced from an input of full
    column rank as it is: a second pass changes nothing. *)
Theorem orthogonalize_idempotent (m : nat) (P : list (list R)) :
  Forall (fun row => length row = m) P →
  Orth.full_column_rank (length P) (transpose 0%R m P) →
  length (Orth.orthogonalize 0 m P) = length P
  ∧ Forall (fun row => length row = m) (Orth.orthogonalize 0 m P)
  ∧ Orth.orthogonalize 0 m (Orth.orthogonalize 0 m P)
    = Orth.orthogonalize 0 m P.
Proof.
  intros HP Hrank.
  destruct (orthogonalize_shape 0 m P HP) as [Hrect Hlen].
  destruct (orthogonalize_shape 0 m _ Hrect) as [Hrect' Hlen'].
  split; [done|]. split; [done|].
  apply (rect_ext m); try done.
  rewrite (orthogonalize_is_mgs 0 m _ Hrect).
  apply (mgs_fixed (length P)).
  - unfold transpose. apply List.Forall_map, Forall_forall. intros j _.
    unfold column. by rewrite length_map.
  - rewrite (orthogonalize_is_mgs 0 m P HP).
    by apply (mgs_orthonormal (length P)).
Qed.

Lemma orthogonalize_idempotent_witness :
  Orth.orthogonalize 0 2 (Orth.orthogonalize 0 2 skew_matrix)
  = Orth.orthogonalize 0 2 skew_matrix.
Proof.
  apply (orthogonalize_idempotent 2 skew_matrix).
  - repeat constructor.
  - split; [repeat constructor|].
    intros [|x [|y [|z a]]] Ha; try done. simpl. intros Hz.
    injection Hz as Hx Hy. repeat constructor; lra.
Defined.

(** ** Packing again *)

Section PackFacts.
Import Heap.
Context {A : Type}.
Implicit Types (σ : gmap positive (list A)) (t d : tensor) (vs v : list A).

Lemma length_concat_sum (l : list (list A)) :
  length (concat l) = sum_list (map length l).
Proof. induction l as [|x l IH]; [done|]. simpl. by rewrite length_app, IH. Qed.

Lemma pack_from_spec (tb : TensorBuffer) ts vss b cur :
  _tensors tb = ts →
  _start_idx tb = start_idx (map nelement ts) →
  _end_idx tb = end_idx (map nelement ts) →
  buffer tb = b → offset b = 0%nat →
  nelement b = sum_list (map nelement ts) →
  length cur = nelement b →
  map length vss = map nelement ts →
  Forall (fun t => storage t ≠ storage b) ts →
  ∀ ds i σ1,
    ds = drop i ts →
    σ1 !! storage b
    = Some (concat (take i vss)
            ++ drop (sum_list (map length (take i vss))) cur) →
    Forall2 (fun t v => read σ1 t = Ok v) ts vss →
    ∃ σ2, pack_from tb i ds σ1 = Ok σ2
          ∧ σ2 !! storage b = Some (concat vss)
          ∧ (∀ t', storage t' ≠ storage b → read σ2 t' = read σ1 t').
Proof.
  intros Hts Hs He <- Ho Hn Hcur Hlens Hfresh.
  set (b := buffer tb) in *.
  assert (length (concat vss) = length cur) as Htotal.
  { by rewrite Hcur, Hn, <- Hlens, length_concat_sum. }
  assert (length vss = length ts) as Hvl.
  { by rewrite <- (length_map length vss), Hlens, length_map. }
  induction ds as [|d ds IH]; intros i σ1 Hds Hbuf Hread.
  { exists σ1. split; [done|]. split; [|done].
    assert (length ts ≤ i)%nat as Hi.
    { destruct (decide (length ts ≤ i)%nat); [done|].
      assert (length (drop i ts) = 0%nat) as H0 by (by rewrite <- Hds).
      rewrite length_drop in H0. lia. }
    rewrite Hbuf, take_ge by lia.
    rewrite drop_ge, app_nil_r; [done|].
    rewrite <- length_concat_sum. lia. }
  assert (ts !! i = Some d) as Hti.
  { rewrite <- (Nat.add_0_r i), <- lookup_drop, <- Hds. done. }
  assert (ds = drop (S i) ts) as Hds'.
  { rewrite (drop_S _ _ _ Hti) in Hds. by injection Hds. }
  destruct (Forall2_lookup_l _ _ _ _ _ Hread Hti) as (v & Hvi & Hv).
  assert (length v = nelement d) as Hlv by (by eapply read_length).
  cbn [pack_from]. rewrite (getitem_packed tb ts i d) by done.
  fold b. rewrite Ho. cbn [Nat.add].
  set (entry := Tensor (storage b) (sum_list (take i (map nelement ts))) (shape d)).
  assert (sum_list (take i (map nelement ts))
          = sum_list (map length (take i vss))) as Hoff.
  { by rewrite <- Hlens, <- firstn_map. }
  assert (length (concat (take i vss)) = sum_list (map length (take i vss)))
    as Hpre.
  { apply length_concat_sum. }
  assert (sum_list (map length (take i vss)) + length v ≤ length cur)%nat
    as Hfit.
  { rewrite <- Htotal. by apply concat_segment_le. }
  unfold setitem. cbn [shape entry]. rewrite decide_True by done.
  rewrite Hv. cbn [mbind result_bind].
  unfold assign. cbn [storage offset entry]. rewrite Hbuf.
  change (nelement entry) with (nelement d).
  rewrite decide_True.
  2:{ rewrite length_app, length_drop, Hpre, Hoff, <- Hlv. lia. }
  set (σ' := <[storage b := _]> σ1).
  destruct (IH (S i) σ') as (σ2 & Hpack & Hfinal & Hframe); [done|..].
  - unfold σ'. rewrite lookup_insert_eq. f_equal.
    rewrite <- (length_concat_sum (take (S i) vss)).
    rewrite (take_S_r _ _ _ Hvi), concat_app, length_app.
    cbn [concat]. rewrite app_nil_r, Hpre, Hoff.
    rewrite (take_app_length' _ _ _ (eq_sym Hpre)).
    rewrite <- Hlv, (drop_app_add' _ _ _ _ (eq_sym Hpre)), drop_drop.
    by rewrite <- app_assoc.
  - apply Forall2_same_length_lookup. split; [by eapply Forall2_length|].
    intros k t' v' Ht' Hv'.
    pose proof (Forall2_lookup_lr _ _ _ _ _ _ Hread Ht' Hv') as Hr.
    assert (storage t' ≠ storage b) as Hne
      by (by apply (proj1 (Forall_lookup _ _) Hfresh k)).
    unfold σ', read. by rewrite lookup_insert_ne.
  - exists σ2. split; [done|]. split; [done|].
    intros t' Hne. rewrite Hframe by done.
    unfold σ', read. by rewrite lookup_insert_ne.
Qed.

End PackFacts.

Section PackAgain.
Import Heap.
Context {A : Type}.
Implicit Types (σ : gmap positive (list A)) (t d : tensor) (vs v : list A).

Lemma read_all_inv σ ts vss :
  read_all σ ts = Ok vss → Forall2 (fun t v => read σ t = Ok v) ts vss.
Proof.
  revert vss. induction ts as [|t ts IH]; intros vss H.
  { injection H as <-. constructor. }
  cbn [read_all] in H.
  apply result_bind_inv in H as (v & Hv & H).
  apply result_bind_inv in H as (vs & Hvs & H).
  injection H as <-. constructor; [done|]. by apply IH.
Qed.

Lemma init_inv σ ts σ' tb :
  init σ ts = Ok (σ', tb) →
  ∃ vss,
    Forall2 (fun t v => read σ t = Ok v) ts vss
    ∧ σ !! storage (buffer tb) = None
    ∧ σ' = <[storage (buffer tb) := concat vss]> σ
    ∧ offset (buffer tb) = 0%nat
    ∧ nelement (buffer tb) = sum_list (map nelement ts)
    ∧ _tensors tb = ts
    ∧ _start_idx tb = start_idx (map nelement ts)
    ∧ _end_idx tb = end_idx (map nelement ts).
Proof.
  unfold init, cat. intros H.
  apply result_bind_inv in H as ([σ0 b] & Hcat & H).
  injection H as <- <-. cbn [buffer _tensors _start_idx _end_idx].
  destruct ts as [|t ts]; [done|].
  apply result_bind_inv in Hcat as (vss & Hra & Hal).
  assert (alloc σ (concat vss) = (σ0, b)) as Hal' by (by injection Hal as <- <-).
  clear Hal. rename Hal' into Hal.
  apply read_all_inv in Hra.
  destruct (alloc_fresh _ _ _ _ Hal) as (Hf & Hσ & Ho & Hn).
  exists vss. split_and!; try done.
  rewrite Hn, length_concat_sum. f_equal. by eapply read_all_lengths.
Qed.

End PackAgain.



(** ** The sign and norm reducer with one worker *)

Section SignAndNormFacts.
Context (net : network Q).

Local Abbreviation signs_of :=
  (map (fun t : vtensor Q =>
          VTensor (vshape t) (map SignCompressor.sign_bucket (vdata t)))).

Lemma concat_signs (ts : list (vtensor Q)) :
  concat (map vdata (signs_of ts))
  = map SignCompressor.sign_bucket (concat (map vdata ts)).
Proof.
  induction ts as [|t ts IH]; [done|]. simpl. by rewrite IH, map_app.
Qed.

Lemma add_alpha_same (alpha : Q) (out other : vtensor Q) :
  vshape out = vshape other →
  add_alpha alpha out other
  = Ok (VTensor (vshape out)
          (zip_with (fun o x => (o + alpha * x)%Q) (vdata out) (vdata other))).
Proof. intros H. unfold add_alpha. by rewrite decide_True. Qed.

Lemma add_signs_spec (tb : TensorBuffer.t Q) (signs : list (vtensor Q)) :
  laid_out tb (map vshape signs) (concat (map vdata signs)) →
  Forall wf_tensor signs →
  ∀ outs norms i,
    Forall2 (fun out s => vshape out = vshape s) outs (drop i signs) →
    length norms = length outs →
    add_signs net tb i outs norms
    = Ok (zip_with
            (fun '(out, s) norm =>
               VTensor (vshape out)
                 (zip_with (fun o x =>
                              (o + norm / inject_Z (Z.of_nat (vnelement s))
                                   / inject_Z (Z.of_nat (n_workers net)) * x)%Q)
                           (vdata out) (vdata s)))
            (zip outs (drop i signs)) norms).
Proof.
  intros Hlaid Hwf. induction outs as [|out outs IH]; intros norms i Hsh Hlen.
  { cbn [add_signs zip zip_with].
    destruct (decide (i < length signs)%nat) as [Hi|Hi].
    - destruct (lookup_lt_is_Some_2 signs i Hi) as [s Hs].
      by rewrite (packed_entry tb signs i s).
    - by rewrite (vgetitem_past_end _ _ _ _ Hlaid)
        by (rewrite length_map; lia). }
  destruct (drop i signs) as [|s rest] eqn:Hdrop; [by inversion Hsh|].
  apply Forall2_cons in Hsh as [Hos Hsh].
  assert (signs !! i = Some s) as Hs.
  { rewrite <- (Nat.add_0_r i), <- lookup_drop, Hdrop. done. }
  assert (drop (S i) signs = rest) as Hrest.
  { rewrite (drop_S _ _ _ Hs) in Hdrop. by injection Hdrop. }
  destruct norms as [|norm norms]; [done|].
  cbn [add_signs]. rewrite (packed_entry tb signs i s) by done.
  rewrite add_alpha_same by done. cbn [mbind result_bind].
  rewrite (IH norms (S i)); [|by rewrite Hrest|by injection Hlen].
  cbn [mbind result_bind]. by rewrite Hrest.
Qed.

Lemma memory_less_norm (grad_in memory_out : list (vtensor Q)) :
  map vshape memory_out = map vshape grad_in →
  zip_update (fun '(tensor, norm) mem =>
                mem ← vsetitem mem tensor;
                add_alpha (- norm / inject_Z (Z.of_nat (vnelement tensor)))
                          mem (SignCompressor.sign tensor))
             (zip grad_in (map norm1 grad_in)) memory_out
  = Ok (map (fun t =>
               VTensor (vshape t)
                 (zip_with (fun o x =>
                              (o + - norm1 t / inject_Z (Z.of_nat (vnelement t))
                                   * x)%Q)
                           (vdata t) (map Qsign (vdata t))))
            grad_in).
Proof.
  revert memory_out. induction grad_in as [|t ts IH]; intros [|mem mems] Hsh;
    try done.
  injection Hsh as Hm Hsh. cbn [map zip zip_with zip_update].
  rewrite vsetitem_same by done. cbn [mbind result_bind].
  rewrite add_alpha_same by done. cbn [mbind result_bind].
  rewrite IH by done. cbn [mbind result_bind vshape vdata SignCompressor.sign].
  by rewrite Hm.
Qed.

Lemma SignAndNorm_single_run (grad_in grad_out memory_out : list (vtensor Q)) :
  n_workers net = 1%nat →
  grad_in ≠ [] → Forall wf_tensor grad_in →
  length (concat (map vdata grad_in)) ≠ 0%nat →
  Forall2 (fun out t => vshape out = vshape t) grad_out grad_in →
  map vshape memory_out = map vshape grad_in →
  run (SignAndNormReducer_reduce net grad_in grad_out memory_out)
  = Ok (zip_with
          (fun '(out, s) norm =>
             VTensor (vshape out)
               (zip_with (fun o x =>
                            (o + norm / inject_Z (Z.of_nat (vnelement s))
                                 / inject_Z (Z.of_nat 1) * x)%Q)
                         (vdata out) (vdata s)))
          (zip (map (vfill 0%Q) grad_out) (signs_of grad_in))
          (map norm1 grad_in),
        map (fun t =>
               VTensor (vshape t)
                 (zip_with (fun o x =>
                              (o + - norm1 t / inject_Z (Z.of_nat (vnelement t))
                                   * x)%Q)
                           (vdata t) (map Qsign (vdata t))))
            grad_in,
        (n_bits (words (length (concat (map vdata grad_in)))) int32_size
         + n_bits (length grad_in) float32_size)%Z,
        []).
Proof.
  intros Hn Hne Hwf Hlen Hosh Hmsh.
  destruct (vinit_laid_out _ Hne Hwf) as (tb & Hinit & Hlaid).
  assert (TensorBuffer.buffer tb = concat (map vdata grad_in)) as Hbuf
    by apply Hlaid.
  set (flat := concat (map vdata grad_in)) in *.
  destruct (compress_ok (VTensor [length flat] flat))
    as (packed & Hc & Hpsh & Hplen & Hun).
  { unfold wf_tensor, vnelement. simpl. lia. }
  { unfold vnelement. simpl. lia. }
  cbn [vshape vdata] in Hun, Hplen.
  assert (laid_out
            (TensorBuffer.set_buffer tb (map SignCompressor.sign_bucket flat))
            (map vshape (signs_of grad_in))
            (concat (map vdata (signs_of grad_in)))) as Hlaid'.
  { rewrite concat_signs, map_map.
    eapply set_buffer_laid_out; [exact Hlaid|by rewrite length_map]. }
  assert (Forall wf_tensor (signs_of grad_in)) as Hwfs.
  { apply List.Forall_map. eapply Forall_impl; [exact Hwf|].
    intros t Ht. unfold wf_tensor, vnelement in *. simpl.
    by rewrite length_map. }
  pose proof (add_signs_spec _ _ Hlaid' Hwfs (map (vfill 0%Q) grad_out)
                (map norm1 grad_in) 0%nat) as Hadd.
  rewrite drop_0, Hn in Hadd.
  unfold run, SignAndNormReducer_reduce.
  erewrite M_bind_ok by (apply lift_ok; exact Hinit). cbv beta zeta.
  rewrite Hbuf. fold flat.
  erewrite M_bind_ok by (apply lift_ok; exact Hc). cbv beta iota.
  rewrite decide_False by lia.
  erewrite M_bind_ok by reflexivity. cbv beta iota.
  erewrite M_bind_ok.
  2:{ apply lift_ok. cbn [mapM vshape]. rewrite Hun. reflexivity. }
  cbv beta.
  erewrite M_bind_ok.
  2:{ apply lift_ok. cbn [zip zip_with foldM vdata]. rewrite Hadd.
      - reflexivity.
      - change (map ?f ?l) with (fmap f l). apply Forall2_fmap.
        eapply Forall2_impl; [exact Hosh|]. done.
      - rewrite !length_map. symmetry. by eapply Forall2_length. }
  cbv beta.
  erewrite M_bind_ok by (apply lift_ok; by apply memory_less_norm).
  cbv beta. unfold mret, M_ret. by rewrite Hplen, length_map.
Qed.

End SignAndNormFacts.

Section SignAndNormNumbers.
Local Open Scope Q_scope.

Lemma total_nonneg (xs : list Q) :
  Forall (fun x => 0 <= x) xs → 0 <= total 0 Qplus xs.
Proof.
  induction 1 as [|x xs Hx _ IH]; [apply Qle_refl|].
  unfold total in *. simpl.
  apply (Qle_trans _ (0 + 0)); [done|]. by apply Qplus_le_compat.
Qed.

Lemma norm1_nonneg (t : vtensor Q) : 0 <= norm1 t.
Proof.
  unfold norm1. apply total_nonneg.
  apply List.Forall_map, Forall_forall. intros x _. apply Qabs_nonneg.
Qed.

Lemma abs_scaled_bucket (a q : Q) :
  Qabs (0 + a * SignCompressor.sign_bucket q) == Qabs a.
Proof.
  unfold SignCompressor.sign_bucket. destruct (Qnum q <? 0)%Z.
  - assert (0 + a * -1 == - a) as -> by ring. apply Qabs_opp.
  - assert (0 + a * 1 == a) as -> by ring. reflexivity.
Qed.

Lemma total_abs_scaled (a : Q) (data : list Q) :
  total 0 Qplus
    (map Qabs (map (fun q => 0 + a * SignCompressor.sign_bucket q) data))
  == inject_Z (Z.of_nat (length data)) * Qabs a.
Proof.
  induction data as [|q data IH].
  { unfold total. simpl. ring. }
  cbn [map length]. unfold total in *. cbn [foldr].
  rewrite IH, abs_scaled_bucket, Nat2Z.inj_succ.
  unfold Z.succ. rewrite inject_Z_plus. ring.
Qed.

Lemma zip_with_zeros {A} (f : Q → A → Q) (zs : list Q) (xs : list A) :
  length zs = length xs →
  zip_with f (map (fun _ => 0) zs) xs = map (f 0) xs.
Proof.
  revert xs. induction zs as [|z zs IH]; intros [|x xs] Hlen; try done.
  simpl. f_equal. apply IH. by injection Hlen.
Qed.

End SignAndNormNumbers.



(** ** The random block reducer *)

Section SliceFacts.
Context {A : Type}.

Lemma fill_slice_lookup (a b : nat) (c : A) (l : list A) j x :
  l !! j = Some x →
  fill_slice a b c l !! j = Some (if decide (a ≤ j < b)%nat then c else x).
Proof.
  intros Hj. pose proof (lookup_lt_Some _ _ _ Hj) as Hlt. unfold fill_slice.
  destruct (decide (j < a)%nat) as [Hja|Hja].
  { rewrite lookup_app_l by (rewrite length_take; lia).
    rewrite lookup_take_lt by done. rewrite Hj, decide_False by lia. done. }
  rewrite lookup_app_r by (rewrite length_take; lia).
  rewrite length_take. replace (a `min` length l)%nat with a by lia.
  destruct (decide (j < b)%nat) as [Hjb|Hjb].
  - rewrite lookup_app_l by (rewrite length_map, length_take, length_drop; lia).
    change (map ?f ?k) with (fmap f k).
    rewrite list_lookup_fmap, lookup_take_lt, lookup_drop by lia.
    replace (a + (j - a))%nat with j by lia.
    rewrite Hj, decide_True by lia. done.
  - rewrite lookup_app_r by (rewrite length_map, length_take, length_drop; lia).
    rewrite length_map, length_take, length_drop, lookup_drop.
    replace (a + (b - a) + (j - a - (b - a) `min` (length l - a)))%nat with j
      by lia.
    rewrite Hj, decide_False by lia. done.
Qed.

Lemma fill_slice_length (a b : nat) (c : A) (l : list A) :
  length (fill_slice a b c l) = length l.
Proof.
  unfold fill_slice.
  rewrite !length_app, length_map, !length_take, !length_drop. lia.
Qed.

Lemma set_slice_ok (a b : nat) (vs l : list A) :
  (a ≤ b ≤ length l)%nat → length vs = (b - a)%nat →
  set_slice a b vs l = Ok (take a l ++ vs ++ drop b l).
Proof.
  intros Hab Hvs. unfold set_slice.
  rewrite decide_True by (rewrite length_take, length_drop; lia).
  rewrite Hvs. by replace (a + (b - a))%nat with b by lia.
Qed.

Lemma spliced_lookup (a b : nat) (vs l : list A) j :
  (a ≤ b ≤ length l)%nat → length vs = (b - a)%nat →
  (take a l ++ vs ++ drop b l) !! j
  = if decide (a ≤ j < b)%nat then vs !! (j - a)%nat else l !! j.
Proof.
  intros Hab Hvs.
  destruct (decide (j < a)%nat) as [Hja|Hja].
  { rewrite lookup_app_l by (rewrite length_take; lia).
    rewrite lookup_take_lt by done. by rewrite decide_False by lia. }
  rewrite lookup_app_r by (rewrite length_take; lia).
  rewrite length_take. replace (a `min` length l)%nat with a by lia.
  destruct (decide (j < b)%nat) as [Hjb|Hjb].
  - rewrite lookup_app_l by lia. by rewrite decide_True by lia.
  - rewrite lookup_app_r by lia. rewrite lookup_drop, Hvs.
    replace (b + (j - a - (b - a)))%nat with j by lia.
    by rewrite decide_False by lia.
Qed.

Lemma block_of_split (st bs : nat) (data : list A) :
  (st ≤ length data)%nat → (bs ≤ length data)%nat →
  block_of st bs data
  = take ((st + bs) `min` length data - st) (drop st data)
    ++ take (bs - ((st + bs) `min` length data - st)) data.
Proof.
  intros Hst Hbs. unfold block_of.
  rewrite drop_app_le by done. rewrite take_app, length_drop.
  destruct (decide (st + bs ≤ length data)%nat).
  - replace ((st + bs) `min` length data - st)%nat with bs by lia.
    replace (bs - (length data - st))%nat with 0%nat by lia.
    by replace (bs - bs)%nat with 0%nat by lia.
  - replace ((st + bs) `min` length data - st)%nat with (length data - st)%nat
      by lia.
    f_equal. rewrite !take_ge; [done|rewrite length_drop; lia..].
Qed.

Lemma block_of_length (st bs : nat) (data : list A) :
  (st ≤ length data)%nat → (bs ≤ length data)%nat →
  length (block_of st bs data) = bs.
Proof.
  intros Hst Hbs. unfold block_of.
  rewrite length_take, length_drop, length_app. lia.
Qed.

Lemma block_of_lookup (st bs : nat) (data : list A) j :
  (st ≤ length data)%nat → (bs ≤ length data)%nat → (j < length data)%nat →
  in_block st bs (length data) j →
  block_of st bs data !! ((j + length data - st) mod length data)%nat
  = data !! j.
Proof.
  intros Hst Hbs Hj Hin. unfold block_of.
  destruct (decide (st ≤ j)%nat) as [Hle|Hgt].
  - destruct Hin as [Hin|Hin]; [|lia].
    replace (j + length data - st)%nat with (j - st + 1 * length data)%nat
      by lia.
    rewrite Nat.Div0.mod_add, Nat.mod_small by lia.
    rewrite lookup_take_lt, lookup_drop by lia.
    rewrite lookup_app_l by lia. f_equal. lia.
  - destruct Hin as [Hin|Hin]; [lia|].
    rewrite Nat.mod_small by lia.
    rewrite lookup_take_lt, lookup_drop by lia.
    rewrite lookup_app_r by lia. f_equal. lia.
Qed.

Lemma zip_update_pure {B} (f : A → B → B) (xs : list A) (ys : list B) :
  length ys = length xs →
  zip_update (fun x y => Ok (f x y)) xs ys = Ok (zip_with f xs ys).
Proof.
  revert ys. induction xs as [|x xs IH]; intros [|y ys] Hlen; try done.
  cbn [zip_update zip_with]. cbn [mbind result_bind].
  rewrite IH by (simpl in Hlen; lia). done.
Qed.

End SliceFacts.

Section BlockFacts.
Context (choice : nat → nat → nat) (rank : Z).

Lemma block_buffer {B} (k : list Q → result B) (st bs : nat) (data : list Q) :
  (st ≤ length data)%nat → (bs ≤ length data)%nat →
  let e := RandomSparseBlock.end_idx st bs (length data) in
  let r := RandomSparseBlock.rest st bs (length data) in
  (bfr ← set_slice 0 (e - st) (take (e - st) (drop st data))
                   (replicate bs 0%Q);
   bfr ← (if decide (0 < r)%nat then set_slice (e - st) bs (take r data) bfr
          else Ok bfr);
   k bfr)
  = k (block_of st bs data).
Proof.
  intros Hst Hbs e r.
  assert (e = ((st + bs) `min` length data)%nat) as He by done.
  assert (r = (bs - (e - st))%nat) as Hr by done.
  rewrite set_slice_ok.
  2:{ rewrite length_replicate. lia. }
  2:{ rewrite length_take, length_drop. lia. }
  cbn [mbind result_bind]. rewrite take_0, app_nil_l, drop_replicate.
  rewrite (block_of_split st bs data) by done. rewrite <- He, <- Hr.
  assert (length (take (e - st) (drop st data)) = (e - st)%nat) as Hlen.
  { rewrite length_take, length_drop. lia. }
  case_decide as Hpos.
  - rewrite set_slice_ok.
    2:{ rewrite length_app, length_replicate, Hlen. lia. }
    2:{ rewrite length_take. lia. }
    rewrite take_app_length' by done.
    rewrite (drop_ge _ bs)
      by (rewrite length_app, length_replicate, Hlen; lia).
    cbn [mbind result_bind]. by rewrite app_nil_r.
  - replace r with 0%nat by lia. done.
Qed.

Lemma block_size_ok (t : vtensor Q) n0 rest0 :
  (0 ≤ rank)%Z → vshape t = n0 :: rest0 → n0 ≠ 0%nat →
  RandomSparseBlock.block_size rank t = Ok (Z.of_nat (block_len rank t))
  ∧ (block_len rank t ≤ vnelement t)%nat.
Proof.
  intros Hrank Hsh Hn0. unfold block_len, RandomSparseBlock.block_size.
  rewrite Hsh, decide_False by done. cbv zeta. split.
  - rewrite Z2Nat.id; [done|]. apply Z.min_glb; lia.
  - lia.
Qed.

Lemma block_body_ok vl sl bl d (t : vtensor Q) n0 rest0 :
  (0 ≤ rank)%Z → wf_tensor t → vshape t = n0 :: rest0 → n0 ≠ 0%nat →
  (∀ k n, (0 < n)%nat → (choice k n < n)%nat) →
  ∃ st d',
    RandomSparseBlock.block_body choice rank (vl, sl, bl, d) t
    = Ok (vl ++ [VTensor [block_len rank t]
                   (block_of st (block_len rank t) (vdata t))],
          sl ++ [st], bl ++ [block_len rank t], d')
    ∧ (st < vnelement t ∨ st = 0)%nat.
Proof.
  intros Hrank Hwf Hsh Hn0 Hchoice.
  destruct (block_size_ok t n0 rest0 Hrank Hsh Hn0) as [Hsize Hle].
  unfold wf_tensor in Hwf.
  unfold RandomSparseBlock.block_body. rewrite Hsize. cbn [mbind result_bind].
  set (bs := block_len rank t) in *.
  case_decide as Hfull.
  - exists 0%nat, d. rewrite decide_False by lia. rewrite Nat2Z.id.
    rewrite <- Hwf. rewrite block_buffer by lia.
    split; [done|]. by right.
  - exists (choice d (vnelement t)), (S d).
    assert (vnelement t ≠ 0%nat) as Hpos.
    { intros H0. apply Hfull. rewrite H0 in Hle |- *. lia. }
    pose proof (Hchoice d (vnelement t) ltac:(lia)) as Hst.
    rewrite decide_False by lia. rewrite Nat2Z.id.
    rewrite <- Hwf in Hst |- *. rewrite block_buffer by lia.
    split; [done|]. by left.
Qed.

Lemma block_fold (ts : list (vtensor Q)) :
  (0 ≤ rank)%Z → Forall wf_tensor ts →
  Forall (fun t => ∃ n0 rest0, vshape t = n0 :: rest0 ∧ n0 ≠ 0%nat) ts →
  (∀ k n, (0 < n)%nat → (choice k n < n)%nat) →
  ∀ vl sl bl d,
    ∃ sts d',
      foldM (RandomSparseBlock.block_body choice rank) ts (vl, sl, bl, d)
      = Ok (vl ++ zip_with (fun t st =>
                              VTensor [block_len rank t]
                                (block_of st (block_len rank t) (vdata t)))
                           ts sts,
            sl ++ sts, bl ++ map (block_len rank) ts, d')
      ∧ Forall2 (fun t st => (st < vnelement t ∨ st = 0)%nat) ts sts.
Proof.
  intros Hrank Hwf Hsh Hchoice.
  induction ts as [|t ts IH]; intros vl sl bl d.
  { exists [], d. split; [|constructor]. cbn [foldM zip_with map].
    by rewrite !app_nil_r. }
  apply Forall_cons in Hwf as [Ht Hwf].
  apply Forall_cons in Hsh as [(n0 & rest0 & Hs & Hn0) Hsh].
  destruct (block_body_ok vl sl bl d t n0 rest0 Hrank Ht Hs Hn0 Hchoice)
    as (st & d1 & Hbody & Hst).
  cbn [foldM]. rewrite Hbody. cbn [mbind result_bind].
  destruct (IH Hwf Hsh
              (vl ++ [VTensor [block_len rank t]
                        (block_of st (block_len rank t) (vdata t))])
              (sl ++ [st]) (bl ++ [block_len rank t]) d1)
    as (sts & d' & Hfold & Hsts).
  exists (st :: sts), d'. split; [|by constructor].
  rewrite Hfold. cbn [zip_with map]. by rewrite <- !app_assoc.
Qed.

End BlockFacts.

Section CombineFacts.

Lemma in_block_ends (st bs n j : nat) :
  (st ≤ n)%nat → (bs ≤ n)%nat → (j < n)%nat →
  in_block st bs n j
  ↔ (st ≤ j < RandomSparseBlock.end_idx st bs n)%nat
    ∨ (j < RandomSparseBlock.rest st bs n)%nat.
Proof.
  unfold in_block, RandomSparseBlock.rest, RandomSparseBlock.end_idx. lia.
Qed.

Lemma memory_body_spec (t mem : vtensor Q) (st bs : nat) :
  wf_tensor t → (st ≤ vnelement t)%nat → (bs ≤ vnelement t)%nat →
  vshape (RandomSparseBlock.memory_body (t, (st, bs)) mem) = vshape t
  ∧ ∀ j q, vdata t !! j = Some q →
      (in_block st bs (vnelement t) j →
       vdata (RandomSparseBlock.memory_body (t, (st, bs)) mem) !! j = Some 0%Q)
      ∧ (¬ in_block st bs (vnelement t) j →
         vdata (RandomSparseBlock.memory_body (t, (st, bs)) mem) !! j = Some q).
Proof.
  intros Hwf Hst Hbs. split; [done|]. intros j q Hq.
  pose proof (lookup_lt_Some _ _ _ Hq) as Hj. rewrite Hwf in Hj.
  pose proof (in_block_ends st bs (vnelement t) j Hst Hbs Hj) as Hin.
  unfold RandomSparseBlock.memory_body. cbn [vdata].
  set (e := RandomSparseBlock.end_idx st bs (vnelement t)) in *.
  set (r := RandomSparseBlock.rest st bs (vnelement t)) in *.
  pose proof (fill_slice_lookup st e 0%Q (vdata t) j q Hq) as H1.
  destruct (decide (0 < r)%nat) as [Hr|Hr].
  - rewrite (fill_slice_lookup 0 r 0%Q _ j _ H1). split; intros H.
    + apply Hin in H. repeat case_decide; (done || lia).
    + repeat case_decide; try done; exfalso; apply H, Hin; lia.
  - rewrite H1. split; intros H.
    + apply Hin in H. case_decide; (done || lia).
    + case_decide; [|done]. exfalso. apply H, Hin. lia.
Qed.

Lemma combine_data {B} (k : list Q → result B) (st bs n : nat)
    (v zeros : list Q) :
  (st ≤ n)%nat → (bs ≤ n)%nat → length v = bs → zeros = replicate n 0%Q →
  let e := RandomSparseBlock.end_idx st bs n in
  let r := RandomSparseBlock.rest st bs n in
  ∃ data,
    (data ← set_slice st e (take (e - st) v) zeros;
     data ← (if decide (0 < r)%nat then set_slice 0 r (drop (e - st) v) data
             else Ok data);
     k data)
    = k data
    ∧ length data = n
    ∧ ∀ j, (j < n)%nat →
        (in_block st bs n j → data !! j = v !! ((j + n - st) mod n)%nat)
        ∧ (¬ in_block st bs n j → data !! j = Some 0%Q).
Proof.
  intros Hst Hbs Hv -> e r.
  assert (e = ((st + bs) `min` n)%nat) as He by done.
  assert (r = (bs - (e - st))%nat) as Hr by done.
  rewrite set_slice_ok.
  2:{ rewrite length_replicate. lia. }
  2:{ rewrite length_take. lia. }
  cbn [mbind result_bind].
  set (d1 := take st (replicate n 0%Q) ++ take (e - st) v
             ++ drop e (replicate n 0%Q)).
  assert (length d1 = n) as Hd1.
  { unfold d1. rewrite !length_app, !length_take, length_drop, length_replicate.
    lia. }
  assert (∀ j, (j < n)%nat →
               d1 !! j = if decide (st ≤ j < e)%nat then v !! (j - st)%nat
                         else Some 0%Q) as Hd1j.
  { intros j Hj. unfold d1. rewrite spliced_lookup.
    - case_decide; [by rewrite lookup_take_lt by lia|].
      by apply lookup_replicate_2.
    - rewrite length_replicate. lia.
    - rewrite length_take. lia. }
  destruct (decide (0 < r)%nat) as [Hpos|Hpos].
  - rewrite set_slice_ok.
    2:{ lia. }
    2:{ rewrite length_drop. lia. }
    cbn [mbind result_bind]. eexists. split; [done|]. split.
    { rewrite take_0, app_nil_l, length_app, !length_drop. lia. }
    intros j Hj.
    pose proof (in_block_ends st bs n j Hst Hbs Hj) as Hin. fold e r in Hin.
    rewrite spliced_lookup by (rewrite ?length_drop; lia).
    rewrite Hd1j by done. split; intros H.
    + apply Hin in H. case_decide.
      * rewrite lookup_drop, Nat.mod_small by lia. f_equal. lia.
      * rewrite decide_True by lia.
        replace (j + n - st)%nat with (j - st + 1 * n)%nat by lia.
        by rewrite Nat.Div0.mod_add, Nat.mod_small by lia.
    + repeat case_decide; try done; exfalso; apply H, Hin; lia.
  - exists d1. split; [done|]. split; [done|]. intros j Hj.
    pose proof (in_block_ends st bs n j Hst Hbs Hj) as Hin. fold e r in Hin.
    rewrite Hd1j by done. split; intros H.
    + apply Hin in H. rewrite decide_True by lia.
      replace (j + n - st)%nat with (j - st + 1 * n)%nat by lia.
      by rewrite Nat.Div0.mod_add, Nat.mod_small by lia.
    + case_decide; [|done]. exfalso. apply H, Hin. lia.
Qed.

End CombineFacts.

Section CombineLoop.

Lemma numel_one (sizes : list nat) :
  map numel (map (fun bs => [bs]) sizes) = sizes.
Proof.
  induction sizes as [|bs sizes IH]; [done|].
  cbn [map numel foldr]. rewrite Nat.mul_1_r. f_equal. exact IH.
Qed.

Lemma zeros_replicate {A} (xs : list A) :
  map (fun _ => 0%Q) xs = replicate (length xs) 0%Q.
Proof. induction xs as [|x xs IH]; [done|]. simpl. by rewrite IH. Qed.

Lemma combine_ok (tb : TensorBuffer.t Q)
    (all : list (vtensor Q * (nat * nat))) (avg : list Q) :
  let sizes := map (fun it : vtensor Q * (nat * nat) => it.2.2) all in
  laid_out tb (map (fun bs => [bs]) sizes) avg →
  Forall (fun it : vtensor Q * (nat * nat) =>
            (it.2.1 ≤ vnelement it.1 ∧ it.2.2 ≤ vnelement it.1)%nat) all →
  ∀ outs i,
    Forall2 (fun (it : vtensor Q * (nat * nat)) out =>
               length (vdata out) = vnelement it.1) (drop i all) outs →
    ∃ outs',
      RandomSparseBlock.combine tb i (drop i all) outs = Ok outs'
      ∧ ∀ k t st bs out,
          drop i all !! k = Some (t, (st, bs)) → outs !! k = Some out →
          ∃ out',
            outs' !! k = Some out' ∧ vshape out' = vshape out
            ∧ ∀ j, (j < vnelement t)%nat →
                (in_block st bs (vnelement t) j →
                 vdata out' !! j
                 = take bs (drop (sum_list (take (i + k) sizes)) avg)
                     !! ((j + vnelement t - st) mod vnelement t)%nat)
                ∧ (¬ in_block st bs (vnelement t) j →
                   vdata out' !! j = Some 0%Q).
Proof.
  intros sizes Hlaid Hall.
  assert (length avg = sum_list sizes) as Havg.
  { destruct Hlaid as (_ & _ & _ & _ & Hl). by rewrite numel_one in Hl. }
  induction outs as [|out outs IH]; intros i Hout.
  { apply Forall2_nil_inv_r in Hout. rewrite Hout. exists []. by split. }
  destruct (drop i all) as [|[t [st bs]] items] eqn:Hdrop; [by inversion Hout|].
  apply Forall2_cons in Hout as [Hlen Hout]. simpl in Hlen.
  assert (all !! i = Some (t, (st, bs))) as Hi.
  { rewrite <- (Nat.add_0_r i), <- lookup_drop, Hdrop. done. }
  assert (drop (S i) all = items) as Hrest.
  { rewrite (drop_S _ _ _ Hi) in Hdrop. by injection Hdrop. }
  assert (sizes !! i = Some bs) as Hbs.
  { unfold sizes. change (map ?f ?l) with (fmap f l).
    by rewrite list_lookup_fmap, Hi. }
  destruct (proj1 (Forall_lookup _ _) Hall i _ Hi) as [Hst Hle]. simpl in Hst, Hle.
  cbn [RandomSparseBlock.combine].
  rewrite (vgetitem_laid_out _ _ _ i [bs] Hlaid).
  2:{ change (map ?f ?l) with (fmap f l). by rewrite list_lookup_fmap, Hbs. }
  rewrite numel_one. cbn [numel foldr vdata]. rewrite Nat.mul_1_r.
  set (v := take bs (drop (sum_list (take i sizes)) avg)).
  assert (length v = bs) as Hv.
  { unfold v. rewrite length_take, length_drop.
    pose proof (sum_list_take_le sizes (S i)) as Hsum.
    rewrite (sum_list_take_S _ _ _ Hbs) in Hsum. lia. }
  rewrite zeros_replicate, Hlen.
  destruct (combine_data
              (fun data =>
                 outs' ← RandomSparseBlock.combine tb (S i) items outs;
                 Ok (VTensor (vshape out) data :: outs'))
              st bs (vnelement t) v (replicate (vnelement t) 0%Q))
    as (data & Hdata & Hdlen & Hpoint); try done.
  cbv zeta in Hdata. rewrite Hdata. clear Hdata.
  rewrite <- Hrest in Hout |- *.
  destruct (IH (S i) Hout) as (outs' & Hcomb & Hspec).
  rewrite Hcomb. cbn [mbind result_bind].
  eexists. split; [done|].
  intros [|k] t' st' bs' out' Hk Ho.
  - injection Hk as <- <- <-. injection Ho as <-.
    eexists. split; [done|]. split; [done|].
    rewrite Nat.add_0_r. exact Hpoint.
  - simpl in Hk, Ho.
    destruct (Hspec k t' st' bs' out' Hk Ho) as (o & Ho' & Hosh & Hop).
    exists o. split; [done|]. split; [done|].
    by replace (i + S k)%nat with (S i + k)%nat by lia.
Qed.

End CombineLoop.

Section RunFacts.
Context (choice : nat → nat → nat) (net : network Q) (rank : Z).

Lemma items_sizes {A B} (ts : list A) (sts : list B) (szs : list nat) :
  length ts = length szs → length sts = length szs →
  map (fun it : A * (B * nat) => it.2.2) (zip ts (zip sts szs)) = szs.
Proof.
  revert ts sts. induction szs as [|bs szs IH]; intros [|t ts] [|st sts] H1 H2;
    try done.
  simpl. f_equal. apply IH; simpl in *; lia.
Qed.

Lemma items_lookup {A B} (ts : list A) (sts : list B) (szs : list nat)
    i t st bs :
  ts !! i = Some t → sts !! i = Some st → szs !! i = Some bs →
  zip ts (zip sts szs) !! i = Some (t, (st, bs)).
Proof. intros H1 H2 H3. by rewrite !lookup_zip_with, H1, H2, H3. Qed.

Lemma items_lookup_inv {A B} (ts : list A) (sts : list B) (szs : list nat)
    i t st bs :
  zip ts (zip sts szs) !! i = Some (t, (st, bs)) →
  ts !! i = Some t ∧ sts !! i = Some st ∧ szs !! i = Some bs.
Proof.
  rewrite !lookup_zip_with. intros H.
  destruct (ts !! i); [|done]. destruct (sts !! i); [|done].
  destruct (szs !! i); [|done]. simpl in H. by injection H as -> -> ->.
Qed.

Lemma RandomSparseBlock_run (drawn : nat)
    (grad_in grad_out memory_out : list (vtensor Q)) :
  (0 ≤ rank)%Z → grad_in ≠ [] → Forall wf_tensor grad_in →
  Forall (fun t => ∃ n0 rest0, vshape t = n0 :: rest0 ∧ n0 ≠ 0%nat) grad_in →
  Forall2 (fun out t => length (vdata out) = vnelement t) grad_out grad_in →
  length memory_out = length grad_in →
  (∀ k n, (0 < n)%nat → (choice k n < n)%nat) →
  (∀ k mine, gather_float net k mine ≠ []
             ∧ Forall (fun r => length r = length mine) (gather_float net k mine)) →
  let sizes := map (block_len rank) grad_in in
  ∃ starts summed outs drawn',
    let blocks :=
      zip_with (fun t st => block_of st (block_len rank t) (vdata t))
               grad_in starts in
    let avg := map (div_workers (n_workers net)) summed in
    Forall2 (fun t st => (st < vnelement t ∨ st = 0)%nat) grad_in starts
    ∧ Forall (fun t => (block_len rank t ≤ vnelement t)%nat) grad_in
    ∧ sum_dim0 Qplus (gather_float net 0 (concat blocks)) = Ok summed
    ∧ length summed = sum_list sizes
    ∧ map length blocks = sizes
    ∧ run (RandomSparseBlock.reduce choice net rank drawn
             grad_in grad_out memory_out)
      = Ok (outs,
            zip_with RandomSparseBlock.memory_body
                     (zip grad_in (zip starts sizes)) memory_out,
            n_bits (sum_list sizes) float32_size, drawn',
            [Event AllReduce (sum_list sizes) float32_size])
    ∧ ∀ i t st out,
        grad_in !! i = Some t → starts !! i = Some st →
        grad_out !! i = Some out →
        ∃ out',
          outs !! i = Some out' ∧ vshape out' = vshape out
          ∧ ∀ j, (j < vnelement t)%nat →
              (in_block st (block_len rank t) (vnelement t) j →
               vdata out' !! j
               = take (block_len rank t)
                      (drop (sum_list (take i sizes)) avg)
                   !! ((j + vnelement t - st) mod vnelement t)%nat)
              ∧ (¬ in_block st (block_len rank t) (vnelement t) j →
                 vdata out' !! j = Some 0%Q).
Proof.
  intros Hrank Hne Hwf Hsh Hout Hmlen Hchoice Hnet sizes.
  destruct (block_fold choice rank grad_in Hrank Hwf Hsh Hchoice [] [] [] drawn)
    as (starts & drawn' & Hfold & Hstarts).
  cbn [app] in Hfold. fold sizes in Hfold.
  assert (length starts = length grad_in) as Hslen
    by (symmetry; by eapply Forall2_length).
  assert (length sizes = length grad_in) as Hzlen
    by (unfold sizes; by rewrite length_map).
  assert (Forall (fun t => (block_len rank t ≤ vnelement t)%nat) grad_in)
    as Hble.
  { apply Forall_forall. intros t Ht.
    destruct (proj1 (Forall_forall _ _) Hsh t Ht) as (n0 & rest0 & Hs & Hn0).
    by destruct (block_size_ok rank t n0 rest0 Hrank Hs Hn0). }
  set (values := zip_with (fun t st =>
                             VTensor [block_len rank t]
                               (block_of st (block_len rank t) (vdata t)))
                          grad_in starts) in *.
  set (blocks := zip_with (fun t st => block_of st (block_len rank t) (vdata t))
                          grad_in starts).
  assert (map vdata values = blocks) as Hvd.
  { unfold values, blocks. clear. revert starts.
    induction grad_in as [|t ts IH]; intros [|st sts]; try done.
    simpl. by rewrite IH. }
  assert (map vshape values = map (fun bs => [bs]) sizes) as Hvs.
  { unfold values, sizes. clear -Hslen. revert starts Hslen.
    induction grad_in as [|t ts IH]; intros [|st sts] Hl; try done.
    simpl. rewrite IH; [done|]. simpl in Hl. lia. }
  assert (map length blocks = sizes) as Hbl.
  { unfold blocks, sizes. clear -Hstarts Hble Hwf.
    induction Hstarts as [|t st ts sts Hst _ IH]; [done|].
    apply Forall_cons in Hble as [Hb Hble].
    apply Forall_cons in Hwf as [Ht Hwf]. unfold wf_tensor in Ht.
    simpl. rewrite IH by done. f_equal.
    apply block_of_length; lia. }
  assert (values ≠ []) as Hvne.
  { intros Hnil. apply (f_equal length) in Hnil.
    rewrite <- (length_map vshape), Hvs, length_map, Hzlen in Hnil.
    destruct grad_in; [done|]. simpl in Hnil. lia. }
  assert (Forall wf_tensor values) as Hvwf.
  { apply Forall_lookup. intros i v Hv. unfold wf_tensor, vnelement.
    assert (map vshape values !! i = Some (vshape v)) as H1.
    { change (map ?f ?l) with (fmap f l). by rewrite list_lookup_fmap, Hv. }
    assert (map length (map vdata values) !! i = Some (length (vdata v))) as H2.
    { change (map ?f ?l) with (fmap f l).
      by rewrite !list_lookup_fmap, Hv. }
    rewrite Hvs in H1. rewrite Hvd, Hbl in H2.
    change (map ?f ?l) with (fmap f l) in H1.
    rewrite list_lookup_fmap, H2 in H1. injection H1 as <-.
    cbn [numel foldr]. lia. }
  destruct (vinit_laid_out _ Hvne Hvwf) as (tb & Hinit & Hlaid).
  rewrite Hvd, Hvs in Hlaid.
  assert (TensorBuffer.buffer tb = concat blocks) as Hbuf by apply Hlaid.
  assert (length (concat blocks) = sum_list sizes) as Hblen.
  { destruct Hlaid as (_ & _ & _ & _ & Hl). by rewrite numel_one in Hl. }
  destruct (Hnet 0%nat (concat blocks)) as [Hgne Hglen].
  destruct (sum_dim0_ok Qplus _ _ Hgne Hglen) as (summed & Hsum & Hsumlen).
  set (avg := map (div_workers (n_workers net)) summed).
  assert (length avg = length (concat blocks)) as Havg.
  { unfold avg. by rewrite length_map. }
  assert (laid_out (TensorBuffer.set_buffer tb avg)
            (map (fun bs => [bs]) sizes) avg) as Hlaid'
    by (by eapply set_buffer_laid_out).
  set (items := zip grad_in (zip starts sizes)).
  assert (map (fun it : vtensor Q * (nat * nat) => it.2.2) items = sizes)
    as Hitems by (apply items_sizes; congruence).
  destruct (combine_ok (TensorBuffer.set_buffer tb avg) items avg)
    with (outs := grad_out) (i := 0%nat) as (outs & Hcomb & Hspec).
  { cbv zeta. by rewrite Hitems. }
  { apply Forall_lookup. intros i [t [st bs]] Hi.
    apply items_lookup_inv in Hi as (Ht & Hst & Hbs). simpl.
    unfold sizes in Hbs. change (map ?f ?l) with (fmap f l) in Hbs.
    rewrite list_lookup_fmap, Ht in Hbs. injection Hbs as <-.
    pose proof (Forall2_lookup_lr _ _ _ _ _ _ Hstarts Ht Hst) as Hs.
    pose proof (proj1 (Forall_lookup _ _) Hble i t Ht) as Hb.
    simpl in Hb, Hs. lia. }
  { rewrite drop_0. apply Forall2_same_length_lookup. split.
    - unfold items. rewrite !length_zip_with.
      apply Forall2_length in Hout. lia.
    - intros i [t [st bs]] out Hi Ho.
      apply items_lookup_inv in Hi as (Ht & _ & _). simpl.
      by apply (Forall2_lookup_lr _ _ _ _ _ _ Hout Ho Ht). }
  cbv zeta in Hspec. rewrite Hitems, drop_0 in Hspec. rewrite drop_0 in Hcomb.
  exists starts, summed, outs, drawn'. cbv zeta.
  split; [done|]. split; [done|]. split; [done|].
  split; [congruence|]. split; [done|]. split.
  - unfold run, RandomSparseBlock.reduce.
    erewrite M_bind_ok by (apply lift_ok; exact Hfold). cbv beta iota.
    erewrite M_bind_ok by (apply lift_ok; exact Hinit). cbv beta zeta.
    erewrite M_bind_ok.
    2:{ apply lift_ok. apply zip_update_pure.
        unfold items in *. rewrite !length_zip_with. lia. }
    cbv beta.
    erewrite M_bind_ok.
    2:{ unfold dist_all_reduce. rewrite Hbuf. cbn [length]. rewrite Hsum.
        reflexivity. }
    cbv beta.
    erewrite M_bind_ok by (apply lift_ok; exact Hcomb). cbv beta.
    unfold mret, M_ret. cbn [app]. rewrite Hblen. do 3 f_equal.
    unfold TensorBuffer.bits, TensorBuffer.nelement, n_bits.
    cbn [TensorBuffer.buffer TensorBuffer.set_buffer].
    fold avg. by rewrite Havg, Hblen.
  - intros i t st out Ht Hst Ho.
    assert (sizes !! i = Some (block_len rank t)) as Hbs.
    { unfold sizes. change (map ?f ?l) with (fmap f l).
      by rewrite list_lookup_fmap, Ht. }
    apply (Hspec i t st (block_len rank t) out); [|done].
    by apply items_lookup.
Qed.

End RunFacts.

(** X10.  [RandomSparseBlockReducer.reduce] takes from every gradient one block of
    [min(rank * (rows + columns), nelement)] consecutive elements, which
    starts where the generator puts it and goes round to the front at the
    end.  The blocks go on the wire together in one all-reduce and the bits
    returned are theirs.  The memory becomes the gradient with the block
    zeroed, whatever the memory was; the output is zero outside the block
    and holds the workers' mean inside it. *)
Theorem RandomSparseBlock_sends_blocks
    (choice : nat → nat → nat) (net : network Q) (rank : Z) (drawn : nat)
    (grad_in grad_out memory_out : list (vtensor Q)) :
  (0 ≤ rank)%Z → grad_in ≠ [] → Forall wf_tensor grad_in →
  Forall (fun t => ∃ n0 rest0, vshape t = n0 :: rest0 ∧ n0 ≠ 0%nat) grad_in →
  Forall2 (fun out t => length (vdata out) = vnelement t) grad_out grad_in →
  length memory_out = length grad_in →
  (∀ k n, (0 < n)%nat → (choice k n < n)%nat) →
  (∀ k mine, gather_float net k mine ≠ []
             ∧ Forall (fun r => length r = length mine) (gather_float net k mine)) →
  let sizes := map (block_len rank) grad_in in
  ∃ starts summed means outs mems drawn',
    run (RandomSparseBlock.reduce choice net rank drawn
           grad_in grad_out memory_out)
    = Ok (outs, mems, n_bits (sum_list sizes) float32_size, drawn',
          [Event AllReduce (sum_list sizes) float32_size])
    ∧ sum_dim0 Qplus
        (gather_float net 0
           (concat (zip_with (fun t st => block_of st (block_len rank t) (vdata t))
                             grad_in starts)))
      = Ok summed
    ∧ concat means = map (div_workers (n_workers net)) summed
    ∧ ∀ i t out0,
        grad_in !! i = Some t → grad_out !! i = Some out0 →
        let n := vnelement t in
        let bs := block_len rank t in
        RandomSparseBlock.block_size rank t = Ok (Z.of_nat bs)
        ∧ (bs ≤ n)%nat
        ∧ ∃ st mean out mem,
            starts !! i = Some st ∧ means !! i = Some mean
            ∧ outs !! i = Some out ∧ mems !! i = Some mem
            ∧ (st < n ∨ st = 0)%nat ∧ length mean = bs
            ∧ vshape mem = vshape t ∧ vshape out = vshape out0
            ∧ ∀ j q, vdata t !! j = Some q →
                (in_block st bs n j →
                 vdata mem !! j = Some 0%Q
                 ∧ vdata out !! j = mean !! ((j + n - st) mod n)%nat)
                ∧ (¬ in_block st bs n j →
                   vdata mem !! j = Some q ∧ vdata out !! j = Some 0%Q).
Proof.
  intros Hrank Hne Hwf Hsh Hout Hmlen Hchoice Hnet sizes.
  destruct (RandomSparseBlock_run choice net rank drawn grad_in grad_out
              memory_out Hrank Hne Hwf Hsh Hout Hmlen Hchoice Hnet)
    as (starts & summed & outs & drawn' & Hstarts & Hble & Hsum & Hsumlen
        & Hbl & Hrun & Hspec).
  cbv zeta in Hsum, Hbl, Hspec. fold sizes in Hsumlen, Hbl, Hrun, Hspec.
  set (avg := map (div_workers (n_workers net)) summed) in *.
  assert (length avg = sum_list sizes) as Havg.
  { unfold avg. by rewrite length_map. }
  set (means := imap (fun k bs => take bs (drop (sum_list (take k sizes)) avg))
                     sizes).
  exists starts, summed, means, outs,
    (zip_with RandomSparseBlock.memory_body (zip grad_in (zip starts sizes))
              memory_out), drawn'.
  split; [exact Hrun|]. split; [exact Hsum|]. split.
  { unfold means.
    rewrite (imap_ext _ (fun k n =>
               take n (drop (0 + sum_list (take k sizes)) avg)))
      by (intros k n _; done).
    rewrite segments_concat, drop_0, take_ge; [done|lia]. }
  intros i t out0 Ht Ho0 n bs.
  destruct (proj1 (Forall_lookup _ _) Hsh i t Ht) as (n0 & rest0 & Hs & Hn0).
  destruct (block_size_ok rank t n0 rest0 Hrank Hs Hn0) as [Hsize Hle].
  split; [done|]. split; [done|].
  destruct (Forall2_lookup_l _ _ _ _ _ Hstarts Ht) as (st & Hst & Hstn).
  assert (is_Some (memory_out !! i)) as [mem0 Hmem0].
  { apply lookup_lt_is_Some. rewrite Hmlen. by eapply lookup_lt_Some. }
  assert (sizes !! i = Some bs) as Hbs.
  { unfold sizes. change (map ?f ?l) with (fmap f l).
    by rewrite list_lookup_fmap, Ht. }
  destruct (Hspec i t st out0 Ht Hst Ho0) as (out & Hout' & Hosh & Hop).
  assert (wf_tensor t) as Hwft by (by apply (proj1 (Forall_lookup _ _) Hwf i)).
  destruct (memory_body_spec t mem0 st bs Hwft) as [Hmsh Hmp]; [lia|done|].
  exists st, (take bs (drop (sum_list (take i sizes)) avg)), out,
    (RandomSparseBlock.memory_body (t, (st, bs)) mem0).
  split; [done|]. split.
  { unfold means. by rewrite list_lookup_imap, Hbs. }
  split; [done|]. split.
  { rewrite lookup_zip_with.
    rewrite (items_lookup grad_in starts sizes i t st bs) by done.
    by rewrite Hmem0. }
  split; [done|]. split.
  { rewrite length_take, length_drop.
    pose proof (sum_list_take_le sizes (S i)) as Hle'.
    rewrite (sum_list_take_S _ _ _ Hbs) in Hle'. lia. }
  split; [done|]. split; [done|].
  intros j q Hq.
  pose proof (lookup_lt_Some _ _ _ Hq) as Hj. rewrite Hwft in Hj.
  destruct (Hmp j q Hq) as [Hm1 Hm2]. destruct (Hop j Hj) as [Ho1 Ho2].
  split; intros Hin; split; auto.
Qed.

Lemma RandomSparseBlock_sends_blocks_witness :
  ∃ outs mems drawn',
    run (RandomSparseBlock.reduce last_choice single 1 0
           block_grad block_out block_out)
    = Ok (outs, mems, n_bits 5 float32_size, drawn',
          [Event AllReduce 5 float32_size]).
Proof.
  destruct (RandomSparseBlock_sends_blocks last_choice single 1 0
              block_grad block_out block_out)
    as (starts & summed & means & outs & mems & drawn' & Hrun & _).
  - lia.
  - discriminate.
  - repeat constructor.
  - repeat constructor. exists 2%nat, [3%nat]. split; [reflexivity|lia].
  - repeat constructor.
  - reflexivity.
  - intros k n Hn. unfold last_choice. lia.
  - intros k mine. split; [discriminate|repeat constructor].
  - exists outs, mems, drawn'. exact Hrun.
Defined.

(** X11.  With one worker the random block reducer loses nothing: at every
    position the output and the memory add up to the gradient, and one of
    the two is zero. *)
Theorem RandomSparseBlock_single_worker
    (choice : nat → nat → nat) (net : network Q) (rank : Z) (drawn : nat)
    (grad_in grad_out memory_out : list (vtensor Q)) :
  n_workers net = 1%nat → (∀ k mine, gather_float net k mine = [mine]) →
  (0 ≤ rank)%Z → grad_in ≠ [] → Forall wf_tensor grad_in →
  Forall (fun t => ∃ n0 rest0, vshape t = n0 :: rest0 ∧ n0 ≠ 0%nat) grad_in →
  Forall2 (fun out t => length (vdata out) = vnelement t) grad_out grad_in →
  length memory_out = length grad_in →
  (∀ k n, (0 < n)%nat → (choice k n < n)%nat) →
  ∃ outs mems bits drawn' tr,
    run (RandomSparseBlock.reduce choice net rank drawn
           grad_in grad_out memory_out)
    = Ok (outs, mems, bits, drawn', tr)
    ∧ ∀ i t, grad_in !! i = Some t →
        ∃ out mem,
          outs !! i = Some out ∧ mems !! i = Some mem
          ∧ ∀ j q, vdata t !! j = Some q →
              ∃ o m,
                vdata out !! j = Some o ∧ vdata mem !! j = Some m
                ∧ (o + m == q)%Q ∧ (o = 0%Q ∨ m = 0%Q).
Proof.
  intros Hone Hgather Hrank Hne Hwf Hsh Hout Hmlen Hchoice.
  assert (∀ k mine, gather_float net k mine ≠ []
                    ∧ Forall (fun r => length r = length mine)
                             (gather_float net k mine)) as Hnet.
  { intros k mine. rewrite Hgather. split; [done|]. by repeat constructor. }
  destruct (RandomSparseBlock_run choice net rank drawn grad_in grad_out
              memory_out Hrank Hne Hwf Hsh Hout Hmlen Hchoice Hnet)
    as (starts & summed & outs & drawn' & Hstarts & Hble & Hsum & Hsumlen
        & Hbl & Hrun & Hspec).
  cbv zeta in Hsum, Hbl, Hspec.
  rewrite Hgather in Hsum. injection Hsum as <-.
  set (sizes := map (block_len rank) grad_in) in *.
  set (blocks := zip_with (fun t st => block_of st (block_len rank t) (vdata t))
                          grad_in starts) in *.
  do 5 eexists. split; [exact Hrun|].
  intros i t Ht.
  destruct (Forall2_lookup_l _ _ _ _ _ Hstarts Ht) as (st & Hst & Hstn).
  assert (is_Some (memory_out !! i)) as [mem0 Hmem0].
  { apply lookup_lt_is_Some. rewrite Hmlen. by eapply lookup_lt_Some. }
  assert (is_Some (grad_out !! i)) as [out0 Hout0].
  { apply lookup_lt_is_Some. rewrite (Forall2_length _ _ _ Hout).
    by eapply lookup_lt_Some. }
  set (bs := block_len rank t).
  assert (sizes !! i = Some bs) as Hbs.
  { unfold sizes. change (map ?f ?l) with (fmap f l).
    by rewrite list_lookup_fmap, Ht. }
  assert (bs ≤ vnelement t)%nat as Hle
    by (by apply (proj1 (Forall_lookup _ _) Hble i)).
  assert (wf_tensor t) as Hwft by (by apply (proj1 (Forall_lookup _ _) Hwf i)).
  destruct (Hspec i t st out0 Ht Hst Hout0) as (out & Hout' & _ & Hop).
  destruct (memory_body_spec t mem0 st bs Hwft) as [_ Hmp]; [lia|done|].
  assert (blocks !! i = Some (block_of st bs (vdata t))) as Hblock.
  { unfold blocks. by rewrite lookup_zip_with, Ht, Hst. }
  assert (take bs (drop (sum_list (take i sizes))
                        (map (div_workers (n_workers net)) (concat blocks)))
          = map (div_workers 1) (block_of st bs (vdata t))) as Hmean.
  { rewrite Hone. change (map ?f ?l) with (fmap f l).
    rewrite <- fmap_drop, <- fmap_take. f_equal.
    rewrite <- Hbl. change (map ?f ?l) with (fmap f l).
    rewrite <- fmap_take.
    change (fmap ?f ?l) with (map f l).
    pose proof (concat_segment blocks i _ Hblock) as Hseg.
    unfold wf_tensor in Hwft.
    rewrite block_of_length in Hseg by lia. exact Hseg. }
  exists out, (RandomSparseBlock.memory_body (t, (st, bs)) mem0).
  split; [done|]. split.
  { rewrite lookup_zip_with.
    rewrite (items_lookup grad_in starts sizes i t st bs) by done.
    by rewrite Hmem0. }
  intros j q Hq.
  pose proof (lookup_lt_Some _ _ _ Hq) as Hj.
  unfold wf_tensor in Hwft. rewrite Hwft in Hj.
  destruct (Hmp j q Hq) as [Hm1 Hm2]. destruct (Hop j Hj) as [Ho1 Ho2].
  assert (Decision (in_block st bs (vnelement t) j)) as [Hin|Hin]
    by (unfold in_block; apply _).
  - exists (div_workers 1 q), 0%Q. split.
    { rewrite (Ho1 Hin). fold bs. rewrite Hmean.
      change (map ?f ?l) with (fmap f l). rewrite list_lookup_fmap.
      rewrite <- Hwft.
      rewrite block_of_lookup by (rewrite ?Hwft; (done || lia)).
      by rewrite Hq. }
    split; [by apply Hm1|]. split; [|by right].
    unfold div_workers. change (inject_Z (Z.of_nat 1)) with 1%Q.
    unfold Qdiv. change (/ 1)%Q with 1%Q. ring.
  - exists 0%Q, q. split; [by apply Ho2|]. split; [by apply Hm2|].
    split; [ring|by left].
Qed.

Lemma RandomSparseBlock_single_worker_witness :
  ∃ outs mems bits drawn' tr,
    run (RandomSparseBlock.reduce last_choice single 1 0
           block_grad block_out block_out)
    = Ok (outs, mems, bits, drawn', tr).
Proof.
  destruct (RandomSparseBlock_single_worker last_choice single 1 0
              block_grad block_out block_out)
    as (outs & mems & bits & drawn' & tr & Hrun & _).
  - reflexivity.
  - reflexivity.
  - lia.
  - discriminate.
  - repeat constructor.
  - repeat constructor. exists 2%nat, [3%nat]. split; [reflexivity|lia].
  - repeat constructor.
  - reflexivity.
  - intros k n Hn. unfold last_choice. lia.
  - eauto 10.
Defined.

(** ** The low-rank reducer that splits by dimension *)

Section MultiFacts.
Import RankK.

Lemma kept_if_elem {A} (keep : A → bool) (xs : list A) i (x : A) :
  (i, x) ∈ MultiRankK.kept_if keep xs ↔ xs !! i = Some x ∧ keep x = true.
Proof.
  unfold MultiRankK.kept_if. rewrite flagged_elem.
  change (map ?f ?l) with (fmap f l). rewrite list_lookup_fmap.
  split.
  - intros [Hx Hk]. rewrite Hx in Hk. simpl in Hk. split; [done|].
    by injection Hk.
  - intros [Hx Hk]. rewrite Hx. simpl. split; [done|]. by rewrite Hk.
Qed.

Lemma custom_rank_lookup i r :
  MultiRankK.custom_rank !! i = Some r ↔ (i < 45)%nat ∧ r = 32%nat.
Proof.
  unfold MultiRankK.custom_rank. change (map ?f ?l) with (fmap f l).
  rewrite list_lookup_fmap.
  destruct (decide (i < 45)%nat) as [Hi|Hi].
  - rewrite lookup_seq_lt by done. simpl.
    unfold MultiRankK.low_rank, MultiRankK.high_rank.
    destruct (_ || _); split; (by intros [= <-]) || (by intros [_ ->]).
  - rewrite lookup_seq_ge by lia. simpl. split; [done|lia].
Qed.

Lemma multi_as_matrix_ok (t : vtensor R) n m :
  vshape t = [n; m] → n ≠ 0%nat →
  MultiRankK.as_matrix t = Ok (n, m, to_rows n m (vdata t)).
Proof.
  intros Hsh Hn. unfold MultiRankK.as_matrix. rewrite Hsh.
  cbn [numel foldr]. rewrite Nat.mul_1_r. by rewrite decide_False.
Qed.

Lemma multi_layout_ok :
  ∀ (high : list (nat * (vtensor R * nat))) p0 q0,
    Forall (fun it : nat * (vtensor R * nat) =>
              ∃ n m, vshape it.2.1 = [n; m] ∧ n ≠ 0%nat ∧ m ≠ 0%nat) high →
    ∃ jobs pt qt,
      MultiRankK.layout p0 q0 high = Ok (jobs, pt, qt)
      ∧ (p0 ≤ pt)%nat ∧ (q0 ≤ qt)%nat
      ∧ Forall (job_fits pt qt) jobs
      ∧ Forall (fun j => vshape (j_tensor j) = [j_n j; j_m j]) jobs
      ∧ Forall2 (fun j (it : nat * (vtensor R * nat)) =>
                   j_index j = it.1 ∧ j_tensor j = it.2.1
                   ∧ j_rank j = (j_n j `min` (j_m j `min` it.2.2))%nat)
                jobs high.
Proof.
  induction high as [|[i [t r0]] high IH]; intros p0 q0 Hhigh.
  { exists [], p0, q0. split_and!; (done || constructor). }
  apply Forall_cons in Hhigh as [(n & m & Hsh & Hn & Hm) Hhigh].
  simpl in Hsh. cbn [MultiRankK.layout].
  rewrite (multi_as_matrix_ok t n m) by done.
  cbn [mbind result_bind].
  set (r := (n `min` (m `min` r0))%nat).
  destruct (IH (p0 + n * r)%nat (q0 + m * r)%nat Hhigh)
    as (jobs & pt & qt & Hlay & Hp & Hq & Hfits & Hshapes & Hmap).
  rewrite Hlay. cbn [mbind result_bind].
  eexists _, pt, qt. split; [done|]. split_and!; try lia.
  - constructor; [|done]. unfold job_fits. simpl.
    split_and!; [lia..|apply to_rows_length].
  - constructor; done.
  - constructor; [|done]. done.
Qed.

End MultiFacts.

Lemma all_reduce_wire (net : network R) size (buf : list R) tr out tr' :
  all_reduce Rplus net size buf tr = Ok (out, tr') →
  tr' = tr ++ (if decide (1 < n_workers net)%nat
               then [Event AllReduce (length buf) size] else []).
Proof.
  unfold all_reduce. case_decide.
  - unfold dist_all_reduce.
    destruct (sum_dim0 Rplus (gather_float net (length tr) buf)); [|done].
    by intros [= <- <-].
  - intros [= <- <-]. by rewrite app_nil_r.
Qed.

(** The run of [Multi_RankKReducer.reduce] with all that the statements
    below read off it. *)
Lemma Multi_RankK_run
    (randn : nat → nat → list R) (net : network R)
    (reuse_query : bool) (grad_size : Z) (st : RankK.state)
    (grad_in grad_out memory_out : list (vtensor R)) (tr : list event) :
  Forall wf_tensor grad_in →
  map vshape grad_out = map vshape grad_in →
  map vshape memory_out = map vshape grad_in →
  (∃ t, t ∈ grad_in ∧ (MultiRankK.ndimension t ≤ 1)%nat) →
  (∀ i t, (i < 45)%nat → grad_in !! i = Some t →
          (1 < MultiRankK.ndimension t)%nat →
          ∃ n m, vshape t = [n; m] ∧ n ≠ 0%nat ∧ m ≠ 0%nat) →
  let high :=
    MultiRankK.kept_if
      (fun '(tensor, _) => bool_decide (1 < MultiRankK.ndimension tensor)%nat)
      (zip grad_in MultiRankK.custom_rank) in
  (∀ jobs p_total q_total,
     MultiRankK.layout 0 0 high = Ok (jobs, p_total, q_total) →
     memory_fits st p_total q_total) →
  (∀ k n, length (randn k n) = n) →
  (∀ k mine, gather_float net k mine ≠ []
             ∧ Forall (fun r => length r = length mine) (gather_float net k mine)) →
  let passed :=
    MultiRankK.kept_if
      (fun tensor => bool_decide (MultiRankK.ndimension tensor ≤ 1)%nat)
      grad_in in
  let call := (length tr + if decide (1 < n_workers net)%nat then 1 else 0)%nat in
  ∃ jobs p_total q_total outs mems bits p q drawn tr' summed,
    MultiRankK.layout 0 0 high = Ok (jobs, p_total, q_total)
    ∧ MultiRankK.reduce randn net reuse_query grad_size st
        grad_in grad_out memory_out tr
      = Ok (outs, mems, bits, RankK.State (Some p) (Some q) drawn, tr')
    ∧ map vshape outs = map vshape grad_in
    ∧ (∀ i t, (i, t) ∈ passed
              ↔ grad_in !! i = Some t ∧ (MultiRankK.ndimension t ≤ 1)%nat)
    ∧ sum_dim0 Rplus
        (gather_float net call (concat (map vdata (map snd passed))))
      = Ok summed
    ∧ concat (map vdata (omap (fun '(i, _) => outs !! i) passed))
      = map (fun x => (x / INR (n_workers net))%R) summed
    ∧ (∀ i, i ∉ map RankK.j_index jobs → mems !! i = memory_out !! i)
    ∧ (∀ i, i ∈ map RankK.j_index jobs
            ↔ (i < 45)%nat
              ∧ ∃ t, grad_in !! i = Some t
                     ∧ (1 < MultiRankK.ndimension t)%nat)
    ∧ Forall (fun j => grad_in !! RankK.j_index j = Some (RankK.j_tensor j)
                       ∧ vshape (RankK.j_tensor j)
                         = [RankK.j_n j; RankK.j_m j]
                       ∧ RankK.j_rank j
                         = (RankK.j_n j `min` (RankK.j_m j `min` 32))%nat) jobs
    ∧ Forall (low_rank_at p q outs mems) jobs
    ∧ (∀ i t, (45 ≤ i)%nat → grad_in !! i = Some t →
              (1 < MultiRankK.ndimension t)%nat →
              outs !! i = grad_out !! i ∧ mems !! i = memory_out !! i)
    ∧ bits
      = (n_bits p_total float32_size
         + n_bits (length (concat (map vdata (map snd passed)))) grad_size
         + n_bits q_total float32_size)%Z
    ∧ tr'
      = tr
        ++ (if decide (1 < n_workers net)%nat
            then [Event AllReduce p_total float32_size] else [])
        ++ [Event AllReduce (length (concat (map vdata (map snd passed))))
                  grad_size]
        ++ (if decide (1 < n_workers net)%nat
            then [Event AllReduce q_total float32_size] else []).
Proof.
  intros Hwf Hosh Hmsh Hvec Hhigh high Hfits Hrandn Hnet passed call.
  assert (length grad_out = length grad_in) as Holen.
  { by rewrite <- (length_map vshape grad_out), Hosh, length_map. }
  assert (length memory_out = length grad_in) as Hmlen.
  { by rewrite <- (length_map vshape memory_out), Hmsh, length_map. }
  assert (∀ i t r, (i, (t, r)) ∈ high
                   ↔ grad_in !! i = Some t ∧ (i < 45)%nat ∧ r = 32%nat
                     ∧ (1 < MultiRankK.ndimension t)%nat) as Hhigh_elem.
  { intros i t r. unfold high. rewrite kept_if_elem, lookup_zip_with.
    rewrite bool_decide_eq_true. split.
    - intros [Hz Hd]. destruct (grad_in !! i) as [t'|]; [|done].
      destruct (MultiRankK.custom_rank !! i) as [r'|] eqn:Hr; [|done].
      simpl in Hz. injection Hz as -> ->.
      apply custom_rank_lookup in Hr as [? ?]. done.
    - intros (Ht & Hi & -> & Hd). rewrite Ht. simpl.
      rewrite (proj2 (custom_rank_lookup i 32)) by done. done. }
  (* the jobs *)
  destruct (multi_layout_ok high 0 0)
    as (jobs & pt & qt & Hlay & _ & _ & Hjobs & Hjsh & Hjmap).
  { apply Forall_forall. intros [i [t r]] (Ht & Hi & _ & Hd)%Hhigh_elem.
    simpl. by apply (Hhigh i). }
  specialize (Hfits _ _ _ Hlay).
  assert (map RankK.j_index jobs = map fst high) as Hjidx.
  { clear -Hjmap. induction Hjmap as [|j it jobs high (Hj & _) _ IH]; [done|].
    simpl. by rewrite Hj, IH. }
  assert (∀ j, j ∈ jobs →
               grad_in !! RankK.j_index j = Some (RankK.j_tensor j)
               ∧ (RankK.j_index j < 45)%nat
               ∧ (1 < MultiRankK.ndimension (RankK.j_tensor j))%nat
               ∧ RankK.j_rank j
                 = (RankK.j_n j `min` (RankK.j_m j `min` 32))%nat)
    as Hjin.
  { intros j Hj. apply list_elem_of_lookup in Hj as [k Hk].
    destruct (Forall2_lookup_l _ _ _ _ _ Hjmap Hk)
      as ([i [t r]] & Hit & Hji & Hjt & Hjr).
    simpl in Hji, Hjt, Hjr.
    assert ((i, (t, r)) ∈ high) as Hin by (by eapply list_elem_of_lookup_2).
    apply Hhigh_elem in Hin as (Ht & Hi & -> & Hd).
    rewrite Hji, Hjt. done. }
  exists jobs, pt, qt.
  (* the factor buffers *)
  set (uninit := bool_decide (RankK.p_memory st = None)).
  set (p0 := default (replicate pt 0%R) (RankK.p_memory st)).
  assert (length p0 = pt) as Hp0.
  { unfold p0, memory_fits in *. destruct (RankK.p_memory st); simpl.
    - by destruct Hfits.
    - by rewrite length_replicate. }
  assert (∃ q0, match RankK.p_memory st with
                | None => Some (replicate qt 0%R)
                | Some _ => RankK.q_memory st
                end = Some q0 ∧ length q0 = qt) as (q0 & Hq0 & Hq0len).
  { unfold memory_fits in Hfits. destruct (RankK.p_memory st).
    - destruct Hfits as (_ & q0 & ? & ?). eauto.
    - eexists. split; [done|]. by rewrite length_replicate. }
  destruct (foldM_invariant (RankK.prepare_q randn reuse_query uninit)
              (fun s => length s.1 = qt) (job_fits pt qt) jobs
              (q0, RankK.draws st)) as ([q1 d1] & Hprep & Hq1); try done.
  { intros [q d] j Hj Hs.
    destruct (prepare_q_ok randn reuse_query pt qt Hrandn uninit q d j Hj Hs)
      as (q' & d' & -> & ?). by exists (q', d'). }
  simpl in Hq1.
  destruct (foldM_invariant (RankK.compute_p q1)
              (fun p => length p = pt) (job_fits pt qt) jobs p0)
    as (p1 & Hcp & Hp1); try done.
  { intros p j Hj Hs. by apply (compute_p_ok pt qt). }
  destruct (all_reduce_ok net float32_size p1 tr Hnet)
    as (p2 & tr1 & Hrp & Hp2 & Htr1).
  (* the packed buffer of the tensors passed through *)
  assert (∀ i t, (i, t) ∈ passed
                 ↔ grad_in !! i = Some t ∧ (MultiRankK.ndimension t ≤ 1)%nat)
    as Hpassed.
  { intros i t. unfold passed. by rewrite kept_if_elem, bool_decide_eq_true. }
  assert (map snd passed ≠ []) as Hts.
  { destruct Hvec as (t & [i Hi]%list_elem_of_lookup & Hd).
    assert ((i, t) ∈ passed) as Hin by (by apply Hpassed).
    intros Hnil. destruct passed; [by apply elem_of_nil in Hin|done]. }
  assert (Forall wf_tensor (map snd passed)) as Htswf.
  { apply List.Forall_map, Forall_forall. intros [i t] [Hit _]%Hpassed.
    simpl. by eapply (proj1 (Forall_lookup _ _) Hwf). }
  destruct (vinit_laid_out _ Hts Htswf) as (tb & Hinit & Hlaid).
  destruct (Hnet (length tr1) (TensorBuffer.buffer tb)) as [Hgne Hglen].
  destruct (sum_dim0_ok Rplus _ _ Hgne Hglen) as (summed & Hsum & Hsumlen).
  (* the factors *)
  assert (length p2 = pt) as Hp2' by congruence.
  destruct (foldM_invariant RankK.normalize_p
              (fun p => length p = pt) (job_fits pt qt) jobs p2)
    as (p3 & Hnp & Hp3); try done.
  { intros p j Hj Hs. by apply (normalize_p_ok pt qt). }
  destruct (foldM_invariant (RankK.compute_q p3)
              (fun q => length q = qt) (job_fits pt qt) jobs q1)
    as (q2 & Hcq & Hq2); try done.
  { intros q j Hj Hs. by apply (compute_q_ok pt qt). }
  destruct (all_reduce_ok net float32_size q2
              (tr1 ++ [Event AllReduce (length (TensorBuffer.buffer tb))
                         grad_size]) Hnet)
    as (q3 & tr3 & Hrq & Hq3 & _).
  set (q4 := map (fun x => (x / INR (n_workers net))%R) q3).
  assert (length q4 = qt) as Hq4 by (unfold q4; rewrite length_map; congruence).
  (* the outputs of the approximated tensors *)
  destruct (outerprod_fold pt qt p3 q4 (map vshape grad_in) Hp3 Hq4 jobs
              grad_out memory_out)
    as (outs1 & mems1 & Hop & Ho1 & Hm1 & Hkeep & Hlow); try done.
  { rewrite Hjidx. apply flagged_NoDup. }
  { apply Forall_forall. intros j Hj. destruct (Hjin j Hj) as [Hj1 _].
    change (map ?f ?l) with (fmap f l). rewrite list_lookup_fmap, Hj1. simpl.
    f_equal. by apply (proj1 (Forall_forall _ _) Hjsh). }
  assert (length outs1 = length grad_in) as Ho1len.
  { by rewrite <- (length_map vshape outs1), Ho1, length_map. }
  (* the outputs of the tensors passed through *)
  set (avg := map (fun x => (x / INR (n_workers net))%R) summed).
  assert (TensorBuffer.buffer tb = concat (map vdata (map snd passed)))
    as Hbuf by apply Hlaid.
  assert (laid_out (TensorBuffer.set_buffer tb avg)
            (map vshape (map snd passed)) avg) as Hlaid'.
  { eapply set_buffer_laid_out; [exact Hlaid|].
    unfold avg. rewrite length_map. congruence. }
  set (ys := omap (fun '(i, _) => outs1 !! i) passed).
  assert (map vshape ys = map vshape (map snd passed)) as Hysh.
  { unfold ys, passed, MultiRankK.kept_if.
    rewrite (flagged_other _ grad_in outs1) by done.
    by rewrite !flagged_map, Ho1. }
  pose proof (zip_entries_setitem _ _ _ ys Hlaid' 0%nat Hysh) as Hunp.
  set (F := fun (k : nat) (y : vtensor R) =>
              VTensor (vshape y)
                (take (vnelement y)
                   (drop (sum_list
                            (take (0 + k)
                               (map numel (map vshape (map snd passed)))))
                         avg))) in Hunp.
  destruct (unpack_scatter passed F outs1) as (Hfsh & Hfom & Hfkeep).
  { done. }
  { apply flagged_NoDup. }
  { apply Forall_forall. intros [i t] [Hit _]%Hpassed. simpl.
    apply lookup_lt_is_Some. rewrite Ho1len. by eapply lookup_lt_Some. }
  cbv zeta in Hfsh, Hfom, Hfkeep. fold ys in Hfsh, Hfom, Hfkeep.
  set (final := fold_left (fun acc '((i, _), out) => <[i := out]> acc)
                  (zip passed (imap F ys)) outs1) in *.
  assert (∀ i t, grad_in !! i = Some t → (1 < MultiRankK.ndimension t)%nat →
                 i ∉ map fst passed) as Hnotpassed.
  { intros i t Ht Hd Hp. change (map ?f ?l) with (fmap f l) in Hp.
    apply list_elem_of_fmap in Hp as ([i' t'] & Hi' & Hp). simpl in Hi'.
    subst i'. apply Hpassed in Hp as [Ht' Hd'].
    rewrite Ht in Ht'. injection Ht' as ->. lia. }
  assert (∀ i, i ∈ map RankK.j_index jobs → i ∉ map fst passed) as Hdisj.
  { intros i Hi. change (map ?f ?l) with (fmap f l) in Hi.
    apply list_elem_of_fmap in Hi as (j & -> & Hj).
    destruct (Hjin j Hj) as (Ht & _ & Hd & _). by eapply Hnotpassed. }
  assert (∀ i, i ∈ map RankK.j_index jobs
               ↔ (i < 45)%nat
                 ∧ ∃ t, grad_in !! i = Some t
                        ∧ (1 < MultiRankK.ndimension t)%nat) as Hjobs_idx.
  { intros i. rewrite Hjidx. change (map ?f ?l) with (fmap f l).
    rewrite list_elem_of_fmap. split.
    - intros ([i' [t r]] & -> & (Ht & Hi & _ & Hd)%Hhigh_elem). simpl.
      split; [done|]. by exists t.
    - intros (Hi & t & Ht & Hd). exists (i, (t, 32%nat)). split; [done|].
      by apply Hhigh_elem. }
  eexists final, mems1, _, p3, q4, d1, tr3, summed.
  split; [done|]. split.
  { unfold MultiRankK.reduce.
    rewrite Holen, Hmlen, !Nat.min_id, firstn_all. cbv zeta.
    fold high. fold passed.
    assert (dist_all_reduce Rplus net grad_size (TensorBuffer.buffer tb) tr1
            = Ok (summed,
                  tr1 ++ [Event AllReduce (length (TensorBuffer.buffer tb))
                            grad_size])) as Hdist.
    { unfold dist_all_reduce. by rewrite Hsum. }
    erewrite M_bind_ok by (apply lift_ok; exact Hlay). cbv beta iota.
    rewrite Hq0.
    erewrite M_bind_ok by (by apply lift_ok). cbv beta iota.
    erewrite M_bind_ok by (apply lift_ok; exact Hprep). cbv beta iota.
    erewrite M_bind_ok by (apply lift_ok; exact Hcp). cbv beta iota.
    erewrite M_bind_ok by exact Hrp. cbv beta iota.
    erewrite M_bind_ok by (apply lift_ok; exact Hinit). cbv beta iota.
    erewrite M_bind_ok by exact Hdist. cbv beta iota.
    erewrite M_bind_ok by (apply lift_ok; exact Hnp). cbv beta iota.
    erewrite M_bind_ok by (apply lift_ok; exact Hcq). cbv beta iota.
    erewrite M_bind_ok by exact Hrq. cbv beta iota.
    erewrite M_bind_ok by (apply lift_ok; exact Hop). cbv beta iota.
    erewrite M_bind_ok by (apply lift_ok; exact Hunp). cbv beta iota.
    reflexivity. }
  split; [by rewrite Hfsh|].
  split; [exact Hpassed|].
  split.
  { unfold call. by rewrite <- Htr1, <- Hbuf. }
  split.
  { rewrite Hfom. apply unpacked_concat; [done|]. apply Hlaid'. }
  split.
  { intros i Hi. by apply Hkeep. }
  split; [exact Hjobs_idx|].
  split.
  { apply Forall_forall. intros j Hj.
    destruct (Hjin j Hj) as (? & _ & _ & ?). split_and!; try done.
    by apply (proj1 (Forall_forall _ _) Hjsh). }
  split.
  { apply Forall_forall. intros j Hj.
    destruct (proj1 (Forall_forall _ _) Hlow j Hj)
      as (P & Q & HP & HQ & Hout & Hmem).
    exists P, Q. split_and!; try done. cbv zeta. rewrite Hfkeep; [done|].
    apply Hdisj. change (map ?f ?l) with (fmap f l).
    apply list_elem_of_fmap. by exists j. }
  split.
  { intros i t Hi Ht Hd.
    assert (i ∉ map RankK.j_index jobs) as Hnj.
    { intros Hin. apply Hjobs_idx in Hin as [? _]. lia. }
    rewrite Hfkeep by (by eapply Hnotpassed).
    by apply Hkeep. }
  split.
  { unfold TensorBuffer.bits, TensorBuffer.nelement, n_bits.
    rewrite Hp2', Hq3, Hq2, Hbuf. done. }
  apply all_reduce_wire in Hrp, Hrq. rewrite Hrq, Hrp, Hp1, Hq2, Hbuf.
  by rewrite <- !app_assoc.
Qed.






Section MultiRaises.

Lemma kept_if_none {A} (keep : A → bool) (xs : list A) :
  Forall (fun x => keep x = false) xs → MultiRankK.kept_if keep xs = [].
Proof.
  intros Hall. destruct (MultiRankK.kept_if keep xs) as [|[i x] l] eqn:Hk;
    [done|].
  assert ((i, x) ∈ MultiRankK.kept_if keep xs) as Hin by (rewrite Hk; left).
  apply kept_if_elem in Hin as [Hx Hkeep].
  pose proof (proj1 (Forall_lookup _ _) Hall i x Hx) as Hf. simpl in Hf.
  congruence.
Qed.

End MultiRaises.

(** X13.  [Multi_RankKReducer.reduce] needs a gradient of at most one dimension.
    When every gradient has two dimensions or more, the list of tensors to
    pass through is empty and [TensorBuffer] refuses it, so the call raises
    whatever else it was given. *)
Theorem Multi_RankK_needs_a_vector
    (randn : nat → nat → list R) (net : network R)
    (reuse_query : bool) (grad_size : Z) (st : RankK.state)
    (grad_in grad_out memory_out : list (vtensor R)) (tr : list event) :
  Forall (fun t => (1 < MultiRankK.ndimension t)%nat) grad_in →
  ∃ e, MultiRankK.reduce randn net reuse_query grad_size st
         grad_in grad_out memory_out tr
       = Raise e.
Proof.
  intros Hall. unfold MultiRankK.reduce. cbv zeta.
  set (grad_tensors := take _ grad_in).
  rewrite (kept_if_none (fun tensor => bool_decide _) grad_tensors).
  2:{ apply Forall_take. eapply Forall_impl; [exact Hall|].
      intros t Hd. apply bool_decide_eq_false. simpl in Hd. lia. }
  set (high := MultiRankK.kept_if _ _).
  destruct (MultiRankK.layout 0 0 high) as [[[jobs pt] qt]|e] eqn:Hlay.
  2:{ exists e. by apply M_bind_raise. }
  erewrite M_bind_ok by (apply lift_ok; reflexivity). cbv beta iota.
  destruct (match RankK.p_memory st with
            | Some _ => RankK.q_memory st
            | None => Some (replicate qt 0%R)
            end) as [q0|].
  2:{ eexists. by apply M_bind_raise. }
  erewrite M_bind_ok by (apply lift_ok; reflexivity). cbv beta iota.
  destruct (foldM _ jobs (q0, RankK.draws st)) as [[q1 d1]|e] eqn:Hprep.
  2:{ exists e. by apply M_bind_raise. }
  erewrite M_bind_ok by (apply lift_ok; reflexivity). cbv beta iota.
  destruct (foldM (RankK.compute_p q1) jobs _) as [p1|e] eqn:Hcp.
  2:{ exists e. by apply M_bind_raise. }
  erewrite M_bind_ok by (apply lift_ok; reflexivity). cbv beta iota.
  destruct (all_reduce Rplus net float32_size p1 tr) as [[p2 tr1]|e] eqn:Hrp.
  2:{ exists e. by apply M_bind_raise. }
  erewrite M_bind_ok by exact Hrp. cbv beta iota.
  eexists. by apply M_bind_raise.
Qed.

Lemma Multi_RankK_needs_a_vector_witness :
  ∃ e, MultiRankK.reduce ones two_workers false 4 fresh_state matrix_first
         matrix_first_zeros matrix_first_zeros []
       = Raise e.
Proof.
  apply (Multi_RankK_needs_a_vector ones two_workers false 4 fresh_state
           matrix_first matrix_first_zeros matrix_first_zeros []).
  repeat constructor.
Defined.

(** ** Normalising a tensor *)

(** X14.  In exact arithmetic [normalize_] turns a tensor whose L2 norm is not
    zero into one of L2 norm one and of the same shape, and normalising
    again changes nothing. *)
Theorem normalize_unit_norm (t : vtensor R) :
  l2norm t ≠ 0%R →
  l2norm (normalize_ t) = 1%R
  ∧ vshape (normalize_ t) = vshape t
  ∧ normalize_ (normalize_ t) = normalize_ t.
Proof.
  intros Hnorm.
  assert (l2norm (normalize_ t) = 1%R) as Hone.
  { unfold l2norm in *. cbn [normalize_ vdata]. unfold l2norm.
    set (c := Orth.l2norm (vdata t)) in *.
    unfold Orth.l2norm at 1.
    rewrite <- vdot_self, vdot_scale_l, vdot_scale_r, <- l2norm_square.
    fold c. replace (c * c / c / c)%R with 1%R by (by field).
    apply sqrt_1. }
  split; [done|]. split; [done|].
  unfold normalize_ at 1. rewrite Hone. unfold normalize_.
  cbn [vshape vdata]. f_equal. etransitivity; [|apply map_id].
  apply map_ext. intros x. field.
Qed.

Lemma normalize_unit_norm_witness :
  l2norm (normalize_ (VTensor [2%nat] [3; 4]%R)) = 1%R.
Proof.
  apply (normalize_unit_norm (VTensor [2%nat] [3; 4]%R)).
  unfold l2norm, Orth.l2norm, Orth.Rtotal, total. simpl.
  replace (3 * (3 * 1) + (4 * (4 * 1) + 0))%R with (5 * 5)%R by ring.
  rewrite sqrt_square; lra.
Defined.

(** ** The sampling probabilities *)

Section ProbabilityFacts.
Local Open Scope Q_scope.

Lemma clamp_bounds (x : Q) :
  0 <= x →
  0 <= (if Qltb 1 x then 1 else x)
  ∧ (if Qltb 1 x then 1 else x) <= 1
  ∧ (if Qltb 1 x then 1 else x) <= x
  ∧ (x <= 1 → (if Qltb 1 x then 1 else x) = x).
Proof.
  intros Hx. unfold Qltb. destruct (Qle_bool x 1) eqn:H; simpl.
  - apply Qle_bool_iff in H. split_and!; [done|done|apply Qle_refl|done].
  - assert (1 < x) as Hlt.
    { apply Qnot_le_lt. intros Hle. apply Qle_bool_iff in Hle. congruence. }
    split_and!.
    + by apply Qlt_le_weak.
    + apply Qle_refl.
    + by apply Qlt_le_weak.
    + intros Hle. exfalso. by apply (Qlt_not_le _ _ Hlt).
Qed.

Lemma scaled_nonneg (k a c : Q) : 0 <= k → 0 <= a → 0 < c → 0 <= k * a / c.
Proof.
  intros Hk Ha Hc. apply Qle_shift_div_l; [done|].
  rewrite Qmult_0_l. by apply Qmult_le_0_compat.
Qed.

Lemma total_clamped (k c : Q) (l : list Q) :
  0 <= k → 0 < c → Forall (fun a => 0 <= a) l →
  total 0 Qplus (map (fun a => if Qltb 1 (k * a / c) then 1 else k * a / c) l)
  <= k * total 0 Qplus l / c
  ∧ (Forall (fun a => k * a <= c) l →
     total 0 Qplus (map (fun a => if Qltb 1 (k * a / c) then 1 else k * a / c) l)
     == k * total 0 Qplus l / c).
Proof.
  intros Hk Hc Hl.
  assert (¬ c == 0) as Hc0.
  { intros H0. rewrite H0 in Hc. by apply (Qlt_irrefl 0). }
  induction Hl as [|a l Ha _ [IH1 IH2]].
  { unfold total. simpl. split; [|intros _]; field_simplify; try done.
    all: try apply Qle_refl. }
  unfold total in *. cbn [map foldr].
  destruct (clamp_bounds (k * a / c) (scaled_nonneg k a c Hk Ha Hc))
    as (_ & _ & Hle & Heq).
  assert (k * (a + foldr Qplus 0 l) / c == k * a / c + k * foldr Qplus 0 l / c)
    as Hsplit by (by field).
  split.
  - rewrite Hsplit. by apply Qplus_le_compat.
  - intros [Hka Hrest]%Forall_cons. rewrite Hsplit, (IH2 Hrest).
    rewrite Heq; [reflexivity|].
    apply Qle_shift_div_r; [done|]. by rewrite Qmult_1_l.
Qed.

End ProbabilityFacts.

(** X15.  What [AtomoReducer.probabilities] returns are probabilities, one per
    eigenvalue, as long as the eigenvalues are not all zero: each lies between
    0 and 1.  Their sum, the expected number of values a draw keeps, is at
    most [s]; it is exactly [s] when no entry had to be cut down to 1. *)
Theorem probabilities_budget (rank : nat) (eigenvalues : list Q) (s : option nat) :
  let probs := Atomo.probabilities rank eigenvalues s in
  let k := inject_Z (Z.of_nat (default rank s)) in
  let sum := total 0%Q Qplus (map Qabs eigenvalues) in
  ¬ (sum == 0)%Q →
  length probs = length eigenvalues
  ∧ Forall (fun p => (0 <= p)%Q ∧ (p <= 1)%Q) probs
  ∧ (total 0%Q Qplus probs <= k)%Q
  ∧ (Forall (fun ev => (k * Qabs ev <= sum)%Q) eigenvalues →
     (total 0%Q Qplus probs == k)%Q).
Proof.
  intros probs k sum Hsum.
  assert (Forall (fun a => (0 <= a)%Q) (map Qabs eigenvalues)) as Habs.
  { apply List.Forall_map, Forall_forall. intros x _. apply Qabs_nonneg. }
  assert ((0 < sum)%Q) as Hpos.
  { destruct (Qlt_le_dec 0 sum) as [|Hle]; [done|]. exfalso. apply Hsum.
    apply Qle_antisym; [done|]. by apply total_nonneg. }
  assert ((0 <= k)%Q) as Hk.
  { unfold k. change 0%Q with (inject_Z 0). rewrite <- Zle_Qle. lia. }
  assert ((k * sum / sum == k)%Q) as Hks by (by field).
  destruct (total_clamped k sum (map Qabs eigenvalues) Hk Hpos Habs)
    as [Hle Heq].
  fold sum in Hle, Heq.
  split_and!.
  - unfold probs, Atomo.probabilities. by rewrite !length_map.
  - unfold probs, Atomo.probabilities. cbv zeta. fold sum. fold k.
    apply List.Forall_map, List.Forall_map, Forall_forall. intros ev _.
    destruct (clamp_bounds (k * Qabs ev / sum))
      as (H0 & H1 & _); [|done].
    apply scaled_nonneg; [done|apply Qabs_nonneg|done].
  - rewrite <- Hks. exact Hle.
  - intros Hall. refine (Qeq_trans _ _ _ (Heq _) Hks).
    apply List.Forall_map. exact Hall.
Qed.

Lemma probabilities_budget_witness :
  (total 0%Q Qplus (Atomo.probabilities 1 [3%Q; 1%Q] None) <= 1)%Q.
Proof.
  apply (probabilities_budget 1 [3%Q; 1%Q] None). by vm_compute.
Defined.

(** ** The global top-k reducer *)

Section GlobalFacts.

Lemma pack_loop (ts : list (vtensor Q)) :
  Forall wf_tensor ts →
  ∀ pre tail,
    length tail = sum_list (map vnelement ts) →
    foldM GlobalTopK.pack_body
          (zip ts (bounds_from (length pre) (map vnelement ts))) (pre ++ tail)
    = Ok (pre ++ concat (map vdata ts)).
Proof.
  induction 1 as [|t ts Ht _ IH]; intros pre tail Hlen.
  { destruct tail; [done|done]. }
  change (sum_list (map vnelement (t :: ts)))
    with (vnelement t + sum_list (map vnelement ts))%nat in Hlen.
  unfold wf_tensor in Ht.
  cbn [map bounds_from zip zip_with foldM concat GlobalTopK.pack_body].
  rewrite <- Ht. rewrite set_slice_segment by lia.
  cbn [mbind result_bind].
  replace (length pre + length (vdata t))%nat
    with (length (pre ++ vdata t)) by (by rewrite length_app).
  rewrite IH by (rewrite length_drop; lia).
  by rewrite <- app_assoc.
Qed.

Lemma local_positions_nat (s e : nat) (ps : list nat) :
  GlobalTopK.local_positions s e (map Z.of_nat ps)
  = map Z.of_nat (local_of s e ps).
Proof.
  unfold GlobalTopK.local_positions, local_of.
  induction ps as [|p ps IH]; [done|].
  cbn [map]. rewrite !filter_cons.
  destruct (decide (s ≤ p < e)%nat) as [Hp|Hp].
  - rewrite decide_True by lia. cbn [map]. rewrite IH. f_equal. lia.
  - rewrite decide_False by lia. exact IH.
Qed.

Lemma local_vals_nat (f : nat → Q) (s e : nat) (ps : list nat) :
  GlobalTopK.local_vals s e (map Z.of_nat ps) (map f ps)
  = Ok (map f (filter (fun p => (s ≤ p < e)%nat) ps)).
Proof.
  unfold GlobalTopK.local_vals. rewrite decide_True by (by rewrite !length_map).
  f_equal. induction ps as [|p ps IH]; [done|].
  cbn [map zip zip_with]. rewrite !filter_cons. cbn [fst].
  destruct (decide (s ≤ p < e)%nat) as [Hp|Hp].
  - rewrite decide_True by lia. cbn [map snd]. by rewrite IH.
  - rewrite decide_False by lia. exact IH.
Qed.

Lemma local_of_elem (s e : nat) (ps : list nat) j :
  j ∈ local_of s e ps ↔ (s + j)%nat ∈ ps ∧ (s + j < e)%nat.
Proof.
  unfold local_of. change (map ?f ?l) with (fmap f l).
  rewrite list_elem_of_fmap. split.
  - intros (p & -> & [Hp Hin]%list_elem_of_filter).
    replace (s + (p - s))%nat with p by lia. split; [done|lia].
  - intros [Hin Hlt]. exists (s + j)%nat. split; [lia|].
    apply list_elem_of_filter. split; [lia|done].
Qed.

Lemma local_of_length (f : nat → Q) (s e : nat) (ps : list nat) :
  length (map f (filter (fun p => (s ≤ p < e)%nat) ps))
  = length (local_of s e ps).
Proof. unfold local_of. by rewrite !length_map. Qed.

Lemma local_of_NoDup (s e : nat) (ps : list nat) :
  NoDup ps → NoDup (local_of s e ps).
Proof.
  intros Hnd. unfold local_of. change (map ?f ?l) with (fmap f l).
  apply NoDup_fmap_2_strong; [|by apply NoDup_filter].
  intros p q [Hp _]%list_elem_of_filter [Hq _]%list_elem_of_filter Heq. lia.
Qed.

Lemma local_of_lt (s n : nat) (ps : list nat) :
  Forall (fun j => j < n)%nat (local_of s (s + n) ps).
Proof.
  apply Forall_forall. intros j [_ Hj]%local_of_elem. lia.
Qed.

Lemma local_of_lookup (f : nat → Q) (s e : nat) (ps : list nat) k j :
  local_of s e ps !! k = Some j →
  map f (filter (fun p => (s ≤ p < e)%nat) ps) !! k = Some (f (s + j)%nat).
Proof.
  unfold local_of. change (map ?g ?l) with (fmap g l).
  rewrite !list_lookup_fmap.
  destruct (filter _ ps !! k) as [p|] eqn:Hp; [|done].
  simpl. intros [= <-].
  assert (p ∈ filter (fun p => (s ≤ p < e)%nat) ps) as Hin
    by (by eapply list_elem_of_lookup_2).
  apply list_elem_of_filter in Hin as [Hr _].
  by replace (s + (p - s))%nat with p by lia.
Qed.

End GlobalFacts.

Section GlobalRun.
Context (topk : list Q → nat → result (list nat)).
Context (net : network Q) (compression : Q).

Lemma global_memory_body_ok (ps : list nat) (t mem : vtensor Q) (s : nat) :
  wf_tensor t → vshape mem = vshape t →
  GlobalTopK.memory_body (map Z.of_nat ps) (t, (s, (s + vnelement t)%nat)) mem
  = Ok (VTensor (vshape t)
          (zero_at (local_of s (s + vnelement t) ps) (vdata t))).
Proof.
  intros Hwf Hsh. unfold GlobalTopK.memory_body.
  rewrite local_positions_nat, vsetitem_same by done.
  cbn [mbind result_bind vdata vshape].
  rewrite index_fill_ok by (rewrite Hwf; apply local_of_lt).
  cbn [mbind result_bind]. by rewrite Hsh.
Qed.

Lemma global_memory_loop (ps : list nat) (ts : list (vtensor Q)) :
  Forall wf_tensor ts →
  ∀ mems s,
    map vshape mems = map vshape ts →
    zip_update (GlobalTopK.memory_body (map Z.of_nat ps))
               (zip ts (bounds_from s (map vnelement ts))) mems
    = Ok (zip_with (fun t '(a, b) =>
                      VTensor (vshape t) (zero_at (local_of a b ps) (vdata t)))
                   ts (bounds_from s (map vnelement ts))).
Proof.
  induction 1 as [|t ts Ht _ IH]; intros [|m ms] s Hsh; try done.
  injection Hsh as Hm Hsh.
  cbn [map bounds_from zip zip_with zip_update].
  rewrite global_memory_body_ok by done. cbn [mbind result_bind].
  rewrite IH by done. done.
Qed.

Lemma global_combine_body_single (ps : list nat) (flat : list Q)
    (t out : vtensor Q) (s : nat) :
  length (vdata out) = vnelement t →
  GlobalTopK.combine_body net [map Z.of_nat ps]
                          [map (fun p => nth p flat 0%Q) ps]
                          (t, (s, (s + vnelement t)%nat)) out
  = Ok (VTensor (vshape out)
          (added_at (local_of s (s + vnelement t) ps)
             (map (div_workers (n_workers net))
                  (map (fun p => nth p flat 0%Q)
                       (filter (fun p => (s ≤ p < s + vnelement t)%nat) ps)))
             (map (fun _ => 0%Q) (vdata out)))).
Proof.
  intros Hlen. unfold GlobalTopK.combine_body. cbn [zip zip_with foldM].
  rewrite local_positions_nat, local_vals_nat. cbn [mbind result_bind].
  rewrite index_add_ok.
  - done.
  - rewrite length_map, Hlen. apply local_of_lt.
  - by rewrite length_map, local_of_length.
Qed.

Lemma global_combine_loop_single (ps : list nat) (flat : list Q)
    (ts : list (vtensor Q)) :
  ∀ outs s,
    Forall2 (fun out t => length (vdata out) = vnelement t) outs ts →
    zip_update (GlobalTopK.combine_body net [map Z.of_nat ps]
                                        [map (fun p => nth p flat 0%Q) ps])
               (zip ts (bounds_from s (map vnelement ts))) outs
    = Ok (zip_with
            (fun '(t, (a, b)) out =>
               VTensor (vshape out)
                 (added_at (local_of a b ps)
                    (map (div_workers (n_workers net))
                         (map (fun p => nth p flat 0%Q)
                              (filter (fun p => (a ≤ p < b)%nat) ps)))
                    (map (fun _ => 0%Q) (vdata out))))
            (zip ts (bounds_from s (map vnelement ts))) outs).
Proof.
  induction ts as [|t ts IH]; intros outs s Hout.
  { apply Forall2_nil_inv_r in Hout as ->. done. }
  apply Forall2_cons_inv_r in Hout as (out & outs' & Ho & Hout & ->).
  cbn [map bounds_from zip zip_with zip_update].
  rewrite global_combine_body_single by done. cbn [mbind result_bind].
  rewrite IH by done. done.
Qed.

Lemma bounds_from_lookup (ns : list nat) :
  ∀ s i n, ns !! i = Some n →
    bounds_from s ns !! i
    = Some ((s + sum_list (take i ns))%nat, (s + sum_list (take i ns) + n)%nat).
Proof.
  induction ns as [|m ns IH]; intros s [|i] n Hi; try done.
  - injection Hi as ->. simpl. by rewrite !Nat.add_0_r.
  - simpl in Hi. cbn [bounds_from].
    change ((?x :: ?l) !! S i) with (l !! i).
    rewrite (IH (s + m)%nat i n Hi). cbn [take sum_list sum_list_with].
    unfold Datatypes.id. do 2 f_equal; lia.
Qed.

Lemma flat_lookup (ts : list (vtensor Q)) i t j :
  Forall wf_tensor ts → ts !! i = Some t → (j < vnelement t)%nat →
  concat (map vdata ts) !! (sum_list (take i (map vnelement ts)) + j)%nat
  = vdata t !! j.
Proof.
  intros Hwf Ht Hj.
  assert (wf_tensor t) as Hwft by (by apply (proj1 (Forall_lookup _ _) Hwf i)).
  unfold wf_tensor in Hwft.
  assert (map vdata ts !! i = Some (vdata t)) as Hv.
  { change (map ?f ?l) with (fmap f l). by rewrite list_lookup_fmap, Ht. }
  assert (map vnelement ts = map length (map vdata ts)) as ->.
  { clear -Hwf. induction Hwf as [|u us Hu _ IH]; [done|].
    simpl. by rewrite IH, Hu. }
  pose proof (concat_segment (map vdata ts) i _ Hv) as Hseg.
  apply (f_equal (fun l => l !! j)) in Hseg.
  rewrite lookup_take_lt, lookup_drop in Hseg by lia.
  by rewrite firstn_map.
Qed.

End GlobalRun.



(** ** The majority vote among several workers *)

Section Votes.
Import SignCompressor.

Lemma unpack_row_bits i (src row : list Z) :
  Forall (fun d => d = 1%Z) row →
  Forall (fun d => d = 0 ∨ d = 2)%Z (bit2byte.unpack_row i src row).
Proof.
  intros Hrow. unfold bit2byte.unpack_row. revert src.
  induction Hrow as [|d row -> _ IH]; intros [|w src]; simpl; try constructor.
  - set (x := Z.shiftr w (31 - Z.of_nat i)).
    assert (Z.land 1 x = x mod 2)%Z as ->.
    { rewrite Z.land_comm. apply (Z.land_ones x 1). lia. }
    rewrite Z.shiftl_mul_pow2 by lia.
    pose proof (Z.mod_pos_bound x 2 ltac:(lia)). lia.
  - apply IH.
Qed.

Lemma unpack_row_length i (src row : list Z) :
  length src = length row → length (bit2byte.unpack_row i src row) = length row.
Proof. intros H. unfold bit2byte.unpack_row. rewrite length_zip_with. lia. Qed.

Lemma uncompress_votes (sh : list nat) (ws : list Z) (n : nat) :
  n ≠ 0%nat → length ws = words n →
  ∃ ds, uncompress (VTensor sh ws) [n] = Ok (VTensor [n] ds)
        ∧ length ds = n ∧ Forall pm_one ds.
Proof.
  intros Hn Hws. unfold uncompress, unpacking.
  rewrite element_num_numel. change (numel [n]) with (n * 1)%nat.
  rewrite Nat.mul_1_r.
  destruct (add_elm_padded n Hn) as [Hmod Hpos].
  destruct (view_32_ok (replicate (n + add_elm n) 1%Z))
    as (c & Hc & Hc0 & Hview); [by rewrite length_replicate..|].
  rewrite length_replicate in Hc.
  rewrite Hview. cbn [mbind result_bind vdata].
  assert (words n = c) as Hw.
  { unfold words. rewrite Hc. by rewrite Nat.mul_comm, Nat.div_mul. }
  rewrite decide_True by congruence.
  set (rows := map (fun r => take c (drop (r * c) (replicate (n + add_elm n) 1%Z)))
                   (seq 0 32)).
  assert (Forall (fun row => length row = c ∧ Forall (fun d => d = 1%Z) row) rows)
    as Hrows.
  { apply List.Forall_map, Forall_forall. intros r Hr%elem_of_seq. split.
    - rewrite length_take, length_drop, length_replicate. nia.
    - apply Forall_take, Forall_drop, Forall_replicate. done. }
  assert (∀ k, length (concat (imap (fun i row => bit2byte.unpack_row (k + i) ws row) rows))
               = (length rows * c)%nat
               ∧ Forall (fun d => d = 0 ∨ d = 2)%Z
                   (concat (imap (fun i row => bit2byte.unpack_row (k + i) ws row) rows)))
    as Hcat.
  { clear -Hrows Hws Hw. induction Hrows as [|row rows [Hl Hr] _ IH]; intros k.
    { split; [done|constructor]. }
    cbn [imap concat length]. rewrite length_app.
    destruct (IH (S k)) as [IHl IHf]. split.
    - rewrite unpack_row_length by congruence.
      rewrite (imap_ext _ (fun i row => bit2byte.unpack_row (S k + i) ws row)).
      + rewrite IHl. lia.
      + intros i x _. simpl. f_equal. lia.
    - apply Forall_app. split; [by apply unpack_row_bits|].
      rewrite (imap_ext _ (fun i row => bit2byte.unpack_row (S k + i) ws row)).
      + done.
      + intros i x _. simpl. f_equal. lia. }
  destruct (Hcat 0%nat) as [Hlen Hbits]. clear Hcat.
  cbn [Nat.add] in Hlen, Hbits.
  unfold bit2byte.unpacking. fold rows.
  eexists. split; [reflexivity|]. split.
  - rewrite !length_map, length_take, Hlen.
    unfold rows. rewrite length_map, length_seq. lia.
  - apply List.Forall_map, List.Forall_map, Forall_take.
    eapply Forall_impl; [exact Hbits|].
    intros d [-> | ->]; [exists 1%Z|exists (-1)%Z]; split; (done || lia).
Qed.

Lemma mapM_uncompress_votes (sh : list nat) (n : nat) (rows : list (list Z)) :
  n ≠ 0%nat → Forall (fun ws => length ws = words n) rows →
  ∃ signs, mapM (fun their_bits => uncompress (VTensor sh their_bits) [n]) rows
           = Ok signs
           ∧ length signs = length rows
           ∧ Forall (fun s => length (vdata s) = n ∧ Forall pm_one (vdata s)) signs.
Proof.
  intros Hn. induction 1 as [|ws rows Hws _ (signs & Hm & Hl & Hf)].
  { exists []. by split_and!. }
  destruct (uncompress_votes sh ws n Hn Hws) as (ds & Hu & Hdl & Hdf).
  exists (VTensor [n] ds :: signs). cbn [mapM]. rewrite Hu. cbn [mbind result_bind].
  rewrite Hm. cbn [mbind result_bind]. split_and!; [done|simpl; lia|].
  constructor; [done|done].
Qed.

Lemma tally_step k (acc row : list Q) :
  length acc = length row →
  Forall (tally k) acc → Forall pm_one row →
  Forall (tally (S k)) (zip_with Qplus acc row).
Proof.
  intros Hlen Hacc. revert row Hlen.
  induction Hacc as [|a acc (z & -> & Hz) _ IH]; intros [|r row] Hlen Hrow;
    try done.
  apply Forall_cons in Hrow as [(s & -> & Hs) Hrow].
  cbn [zip_with]. constructor; [|apply IH; [by injection Hlen|done]].
  exists (z + s)%Z. split.
  - unfold Qplus, inject_Z. simpl. by rewrite !Z.mul_1_r.
  - rewrite Nat.odd_succ, <- Nat.negb_odd, <- Hz, Z.odd_add.
    destruct Hs as [-> | ->]; by destruct (Z.odd z).
Qed.

Lemma tally_fold (n : nat) (rows : list (list Q)) :
  Forall (fun r => length r = n ∧ Forall pm_one r) rows →
  ∀ k acc, length acc = n → Forall (tally k) acc →
    length (fold_left (zip_with Qplus) rows acc) = n
    ∧ Forall (tally (k + length rows)) (fold_left (zip_with Qplus) rows acc).
Proof.
  induction 1 as [|r rows [Hr Hrf] _ IH]; intros k acc Hl Hacc.
  { simpl. by rewrite Nat.add_0_r. }
  cbn [fold_left length].
  replace (k + S (length rows))%nat with (S k + length rows)%nat by lia.
  apply IH.
  - rewrite length_zip_with. lia.
  - apply tally_step; [congruence|done..].
Qed.

Lemma sum_of_votes (n : nat) (signs : list (vtensor Q)) :
  signs ≠ [] →
  Forall (fun s => length (vdata s) = n ∧ Forall pm_one (vdata s)) signs →
  ∃ summed, sum_dim0 Qplus (map vdata signs) = Ok summed
            ∧ length summed = n ∧ Forall (tally (length signs)) summed.
Proof.
  intros Hne Hf. destruct signs as [|s signs]; [done|]. clear Hne.
  apply Forall_cons in Hf as [[Hs Hsf] Hf].
  cbn [map sum_dim0]. eexists. split; [reflexivity|].
  assert (Forall (tally 1) (vdata s)) as Hacc.
  { eapply Forall_impl; [exact Hsf|].
    intros q (z & -> & [-> | ->]); eexists; by split. }
  destruct (tally_fold n (map vdata signs)) with (k := 1%nat) (acc := vdata s)
    as [Hl Ht]; [|done|done|].
  { apply List.Forall_map. exact Hf. }
  rewrite length_map in Ht. by split.
Qed.

Lemma vote_of_tally k q :
  tally k q → is_vote (Qsign q) ∧ (Nat.odd k = true → Qsign q = 1%Q ∨ Qsign q = (-1)%Q).
Proof.
  intros (z & -> & Hz). unfold Qsign, is_vote. simpl.
  destruct (0 <? z)%Z eqn:Hp; [by split; auto|].
  destruct (z <? 0)%Z eqn:Hm; [by split; auto|].
  split; [auto|]. intros Hk. assert (z = 0)%Z as -> by lia.
  rewrite Hk in Hz. done.
Qed.

End Votes.

Section MajorityAmongWorkers.
Context (net : network Q) (grad_in grad_out memory_out : list (vtensor Q)).
Hypothesis Hmany : (1 < n_workers net)%nat.
Hypothesis Hgather : gathers_every_worker net.
Hypothesis Hne : grad_in ≠ [].
Hypothesis Hwf : Forall wf_tensor grad_in.
Hypothesis Hlen : length (concat (map vdata grad_in)) ≠ 0%nat.

Lemma gather_signs_among :
  let flat := concat (map vdata grad_in) in
  ∃ tb signs,
    gather_signs net grad_in []
    = Ok (tb, signs, n_bits (words (length flat)) int32_size,
          [Event AllGather (words (length flat)) int32_size])
    ∧ laid_out tb (map vshape grad_in) flat
    ∧ length signs = n_workers net
    ∧ Forall (fun s => length (vdata s) = length flat ∧ Forall pm_one (vdata s))
             signs.
Proof.
  intros flat.
  destruct (vinit_laid_out grad_in Hne Hwf) as (tb & Hinit & Hlo).
  assert (TensorBuffer.buffer tb = flat) as Hbuf by apply Hlo.
  destruct (compress_ok (VTensor [length flat] flat))
    as (packed & Hc & Hpsh & Hplen & _).
  { unfold wf_tensor, vnelement. simpl. lia. }
  { unfold vnelement. simpl. fold flat in Hlen. lia. }
  cbn [vshape vdata] in Hc, Hplen.
  destruct (Hgather 0%nat (vdata packed)) as [Hrows Hrow].
  rewrite Hplen in Hrow.
  destruct (mapM_uncompress_votes (vshape packed) (length flat) _ Hlen Hrow)
    as (signs & Hm & Hsl & Hsf).
  exists tb, signs. split; [|split_and!; [done|congruence|done]].
  unfold gather_signs.
  erewrite M_bind_ok by (apply lift_ok; exact Hinit). cbv beta zeta.
  rewrite Hbuf.
  erewrite M_bind_ok by (apply lift_ok; exact Hc). cbv beta iota.
  rewrite decide_True by done.
  erewrite M_bind_ok.
  2:{ unfold all_gather. rewrite decide_True by done. reflexivity. }
  cbv beta.
  erewrite M_bind_ok by (apply lift_ok; exact Hm).
  unfold mret, M_ret. by rewrite Hplen.
Qed.

End MajorityAmongWorkers.

Lemma sum_take_le (ns : list nat) k n :
  ns !! k = Some n → (sum_list (take k ns) + n ≤ sum_list ns)%nat.
Proof.
  revert k. induction ns as [|m ns IH]; intros [|k] Hk; try done; simpl in *.
  - injection Hk as ->. lia.
  - specialize (IH _ Hk). lia.
Qed.


